(** * maskforge: the masking engine of [src/maskforge.py] (class [Scrubber])

    A shallow embedding of the [Scrubber] class: the word <-> token
    dictionaries, the text transforms [_enc] and [_dec] with the behaviour of
    the [re] calls they make, the snapshot operations [save] and [load], and
    the per-file driver [process] with its loop [batch].

    Python strings are sequences of Unicode code points; a text is a list of
    code points (numbers in [N]).  [sorted(..., key=len)] and the regular
    expression engine both count code points, so this is the granularity at
    which the source works.

    What lies outside the class is kept abstract or explicit:
    - [uuid.uuid4] is an oracle, and the number of calls is part of the state;
    - a file is what the reader that suits it returns, a text file the
      characters stored in it, whose line ends text mode translates;
      [json.dump] stores a JSON value and [json.load] returns it; texts are
      encodable (no lone surrogates), and writing a file succeeds;
    - [os.path] and the optional imports are fields of an environment;
    - the progress callback of [batch] returns or raises; the calls made to
      it are logged. *)

From Stdlib Require Import NArith String Ascii List Lia Sorting.Sorted.
From stdpp Require Import gmap list.

Local Open Scope N_scope.

(** ** Texts *)

Abbreviation text := (list N).

(** A string literal of the source as a text (ASCII literals only). *)
Fixpoint lit (s : String.string) : text :=
  match s with
  | String.EmptyString => []
  | String.String a s' => N_of_ascii a :: lit s'
  end.

(** ** The [re] module, as far as the source uses it

    A compiled pattern is modelled by what the engine does with it at one
    position: [m must_advance s] is the text matched at the start of [s], if
    any.  [must_advance] is the engine flag set after an empty match: the
    next match at the same position must be non-empty. *)

Definition matcher := bool -> text -> option text.

Inductive seg :=
  | Lit (c : N)
  | Hit (w : text).

(** The search loop shared by [sub], [split] and [findall]: leftmost match,
    then resume at its end; a position with no match contributes its
    character and the search moves one position on. *)
Fixpoint scan (m : matcher) (fuel : nat) (must_advance : bool) (s : text)
  : list seg :=
  match fuel with
  | O => []
  | S fuel' =>
      match m must_advance s with
      | Some w =>
          Hit w :: scan m fuel' (bool_decide (w = [])) (drop (length w) s)
      | None =>
          match s with
          | [] => []
          | c :: s' => Lit c :: scan m fuel' false s'
          end
      end
  end.

Definition finditer (m : matcher) (s : text) : list seg :=
  scan m (2 * length s + 2) false s.

Definition sub_segs (repl : text -> text) (l : list seg) : text :=
  flat_map (fun g => match g with Lit c => [c] | Hit w => repl w end) l.

Fixpoint findall_segs (l : list seg) : list text :=
  match l with
  | [] => []
  | Lit _ :: r => findall_segs r
  | Hit w :: r => w :: findall_segs r
  end.

Fixpoint split_segs (l : list seg) : list text :=
  match l with
  | [] => [[]]
  | Lit c :: r =>
      match split_segs r with
      | p :: ps => (c :: p) :: ps
      | [] => [[c]]
      end
  | Hit _ :: r => [] :: split_segs r
  end.

(** [pat.sub(repl, s)], [pat.findall(s)] (pattern without groups) and
    [pat.split(s)]. *)
Definition re_sub (m : matcher) (repl : text -> text) (s : text) : text :=
  sub_segs repl (finditer m s).
Definition re_findall (m : matcher) (s : text) : list text :=
  findall_segs (finditer m s).
Definition re_split (m : matcher) (s : text) : list text :=
  split_segs (finditer m s).

(** *** [re.compile(r'\[MASK_[0-9A-F]{8}\]')] *)

Definition is_hex_upper (c : N) : bool :=
  ((48 <=? c) && (c <=? 57)) || ((65 <=? c) && (c <=? 70)).

Definition MASK_OPEN : text := Eval cbv in lit "[MASK_".

(** A pattern that is a fixed sequence of character classes matches at the
    start of [s] when each class accepts the character at its place. *)
Definition char_class := N -> bool.

Fixpoint match_classes (cs : list char_class) (s : text) : bool :=
  match cs, s with
  | [], _ => true
  | c :: cs', x :: s' => c x && match_classes cs' s'
  | _ :: _, [] => false
  end.

Definition MASK_CLASSES : list char_class :=
  map N.eqb MASK_OPEN ++ replicate 8 is_hex_upper ++ [N.eqb 93].

Definition mask_pat : matcher := fun _ s =>
  if match_classes MASK_CLASSES s
  then Some (take (length MASK_CLASSES) s)
  else None.

(** *** [re.compile("|".join(re.escape(w) for w in words))]

    Escaped words match literally; the alternatives are tried left to right
    and the first that matches wins. *)
Definition is_prefix (w s : text) : bool := bool_decide (take (length w) s = w).

Definition word_pat (words : list text) : matcher := fun must_advance s =>
  List.find
    (fun w => is_prefix w s && (negb must_advance || negb (bool_decide (w = []))))
    words.

(** ** [sorted(keys, key=len, reverse=True)]: stable, longest first *)

Fixpoint insert_by_len (x : text) (l : list text) : list text :=
  match l with
  | [] => [x]
  | y :: l' =>
      if (length x <? length y)%nat then y :: insert_by_len x l' else x :: y :: l'
  end.

Definition sorted_by_len_desc (l : list text) : list text :=
  foldr insert_by_len [] l.

(** ** The engine state *)

Record Scrubber := mkScrubber {
  mapping : gmap text text;      (* word -> mask *)
  reverse : gmap text text;      (* mask -> word *)
  json_paths : list text         (* snapshot paths written so far *)
}.

(** [Scrubber.__init__] *)
Definition Scrubber_init : Scrubber :=
  {| mapping := ∅; reverse := ∅; json_paths := [] |}.

(** [d.keys()].  A dict iterates in insertion order, which the finite map
    does not record; the only use below sorts the keys by length, and the
    order among keys of one length does not change the pattern's matches
    (lemma [enc_part_key_order]). *)
Definition keys (d : gmap text text) : list text := (map_to_list d).*1.

(** [Scrubber._enc] *)
Definition _enc (self : Scrubber) (t : text) : text :=
  if bool_decide (mapping self = ∅) then t
  else
    let words := sorted_by_len_desc (keys (mapping self)) in
    let pat := word_pat words in
    let parts := re_split mask_pat t in
    let masks := re_findall mask_pat t in
    let repl := fun w => default w (mapping self !! w) in
    let safe_parts := map (re_sub pat repl) parts in
    foldl (fun out mp => out ++ fst mp ++ snd mp)
          (hd [] safe_parts) (zip masks (tail safe_parts)).

(** [Scrubber._dec] *)
Definition _dec (self : Scrubber) (t : text) : text :=
  re_sub mask_pat (fun m => default m (reverse self !! m)) t.

(** ** Token generation: ["[MASK_" + uuid.uuid4().hex[:8].upper() + "]"]

    [uuid.uuid4()] is the only source of randomness.  The value of its
    [i]-th call is given by an oracle [uuid4 : nat -> N] (the 128-bit integer
    of the UUID), and the number of calls made so far is threaded with the
    state. *)

Definition hex_digit (d : N) : N := if d <? 10 then 48 + d else 87 + d.

(** [UUID.hex]: 32 lowercase hexadecimal digits, most significant first. *)
Definition uuid_hex (u : N) : text :=
  map (fun i => hex_digit ((u / 16 ^ N.of_nat (31 - i)) mod 16)) (seq 0 32).

(** [str.upper] on ASCII letters. *)
Definition upper (c : N) : N :=
  if (97 <=? c) && (c <=? 122) then c - 32 else c.

Definition new_mask (u : N) : text :=
  MASK_OPEN ++ map upper (take 8 (uuid_hex u)) ++ [93].

(** [str.strip()]: the code points for which [str.isspace] holds. *)
Definition isspace (c : N) : bool :=
  ((9 <=? c) && (c <=? 13)) || ((28 <=? c) && (c <=? 32))
  || (c =? 133) || (c =? 160) || (c =? 5760)
  || ((8192 <=? c) && (c <=? 8202))
  || (c =? 8232) || (c =? 8233) || (c =? 8239) || (c =? 8287) || (c =? 12288).

Fixpoint lstrip (s : text) : text :=
  match s with
  | c :: s' => if isspace c then lstrip s' else s
  | [] => []
  end.

Definition strip (s : text) : text := rev (lstrip (rev (lstrip s))).

(** One iteration of the loop of [Scrubber.build]; the second component
    counts the calls to [uuid.uuid4]. *)
Definition build_step (uuid4 : nat -> N) (st : Scrubber * nat) (w : text)
  : Scrubber * nat :=
  let w := strip w in
  if bool_decide (w <> []) && bool_decide (mapping st.1 !! w = None) then
    let m := new_mask (uuid4 st.2) in
    ({| mapping := <[w := m]> (mapping st.1);
        reverse := <[m := w]> (reverse st.1);
        json_paths := json_paths st.1 |}, S st.2)
  else st.

(** [Scrubber.build] *)
Definition build (uuid4 : nat -> N) (words : list text) (st : Scrubber * nat)
  : Scrubber * nat :=
  foldl (build_step uuid4) st words.

(** ** Values read by [json.load] *)

#[warnings="-register-all"]
Inductive json :=
  | JNull
  | JBool (b : bool)
  | JNum (lexeme : text)                        (* a number, by its literal *)
  | JStr (s : text)
  | JArr (items : list json)
  | JObj (members : list (text * json)).        (* members in document order *)

(** The value of key [k] in the dict parsed from an object: of several
    members with one name the parser keeps the last. *)
Definition obj_lookup (k : text) (members : list (text * json)) : option json :=
  snd <$> List.find (fun kv => bool_decide (kv.1 = k)) (rev members).

(** [d.get(k, dflt)] *)
Definition obj_get (k : text) (members : list (text * json)) (dflt : json)
  : json :=
  default dflt (obj_lookup k members).

(** The keys of the parsed dict, in its iteration order (first occurrence). *)
Fixpoint obj_keys (members : list (text * json)) (seen : list text)
  : list text :=
  match members with
  | [] => []
  | (k, _) :: r =>
      if bool_decide (k ∈ seen) then obj_keys r seen
      else k :: obj_keys r (k :: seen)
  end.

(** ** Exceptions *)

Inductive exn :=
  | FileNotFoundError (path : text)
  | OSError (path : text)               (* [open] refused *)
  | JSONDecodeError
  | UnicodeDecodeError                  (* the file is not UTF-8 text *)
  | AttributeError                      (* [.get] on a value that is no dict *)
  | TypeError
  | ValueError                          (* raised by [dict.update] *)
  | LegacyFormat (ext : text)           (* [ValueError(ext + " 为旧版格式...")] *)
  | UnsupportedFormat (ext : text)      (* [ValueError("不支持的格式：" + ext)] *)
  | ImportError (package : String.string)
  | BadDocument (path : text).          (* the document library rejects the file *)

Inductive result (A : Type) :=
  | Ok (a : A)
  | Raise (e : exn).
Arguments Ok {A} a.
Arguments Raise {A} e.

(** ** [dict.update(other)] on a [str -> str] dictionary

    [__init__] declares both dictionaries as [str -> str]; the model keeps
    that type.  [Untyped] is the outcome where Python goes on without an
    exception but has stored a key or a value that is not a [str]: the
    dictionary has left the declared shape and the model does not follow
    it. *)

Inductive update_outcome :=
  | Updated (d : gmap text text)
  | UpdateRaised (e : exn) (d : gmap text text)   (* [d]: the entries stored before the exception *)
  | Untyped.

(** One element of an iterable of pairs. *)
Inductive pair_outcome :=
  | Pair (k v : text)
  | PairRaised (e : exn)
  | PairUntyped.

Definition as_pair (x : json) : pair_outcome :=
  match x with
  | JArr [k; v] =>
      match k, v with
      | JStr ks, JStr vs => Pair ks vs
      | JArr _, _ | JObj _, _ => PairRaised TypeError      (* unhashable key *)
      | _, _ => PairUntyped
      end
  | JArr _ => PairRaised ValueError                         (* length is not 2 *)
  | JStr [a; b] => Pair [a] [b]
  | JStr _ => PairRaised ValueError
  | JObj ms =>
      match obj_keys ms [] with
      | [k1; k2] => Pair k1 k2
      | _ => PairRaised ValueError
      end
  | JNull | JBool _ | JNum _ => PairRaised TypeError        (* not iterable *)
  end.

Fixpoint update_pairs (d : gmap text text) (items : list json)
  : update_outcome :=
  match items with
  | [] => Updated d
  | x :: r =>
      match as_pair x with
      | Pair k v => update_pairs (<[k := v]> d) r
      | PairRaised e => UpdateRaised e d
      | PairUntyped => Untyped
      end
  end.

(** The items of the parsed dict, in its iteration order. *)
Definition obj_items (members : list (text * json)) : list (text * json) :=
  map (fun k => (k, obj_get k members JNull)) (obj_keys members []).

Fixpoint update_items (d : gmap text text) (items : list (text * json))
  : update_outcome :=
  match items with
  | [] => Updated d
  | (k, JStr v) :: r => update_items (<[k := v]> d) r
  | _ :: _ => Untyped
  end.

Definition dict_update (d : gmap text text) (other : json) : update_outcome :=
  match other with
  | JObj members => update_items d (obj_items members)
  | JArr items => update_pairs d items
  | JStr [] => Updated d
  | JStr (c :: r) => update_pairs d [JStr [c]]
  | JNull | JBool _ | JNum _ => UpdateRaised TypeError d
  end.

(** ** Documents and the file system

    The office formats are read and written by external libraries; a file is
    modelled by what the reader that suits it returns. *)

Definition paragraph := list text.              (* the texts of its runs *)
Definition table := list (list (list paragraph)). (* rows, cells, paragraphs *)

(** A paragraph of a Word document, by what python-docx shows of it: the
    runs that are children of the paragraph, which are [p.runs], and, where
    they stand among them, its hyperlinks, whose text is part of [p.text]
    but of no run of [p.runs] (python-docx 1.0 and later; an earlier version
    shows no hyperlink).  A table is taken without merged cells, which
    [row.cells] would yield more than once, and the text of a run is read
    back as it was set, which holds for the texts that XML stores as they
    are (python-docx makes a line break of a carriage return). *)
Inductive inline :=
  | Run (t : text)
  | Hyperlink (t : text).

Definition docx_paragraph := list inline.
Definition docx_table := list (list (list docx_paragraph)).

Record docx := mkDocx {
  docx_paragraphs : list docx_paragraph;
  docx_tables : list docx_table
}.

Record shape := mkShape {
  text_frame : option (list paragraph);   (* [has_text_frame] *)
  shape_table : option table              (* [has_table] *)
}.
Definition pptx := list (list shape).            (* slides, shapes *)

Inductive cell :=
  | CStr (v : text)
  | COther.                                       (* a value that is no [str] *)
Definition xlsx := list (list (list cell)).      (* worksheets, rows, cells *)

Inductive file :=
  | FText (content : text)    (* UTF-8 text: the characters stored, line ends included *)
  | FJson (j : json)          (* the serialization of [j] *)
  | FDocx (d : docx)
  | FPptx (p : pptx)
  | FXlsx (x : xlsx)
  | FOther                    (* bytes that are no UTF-8 text and no document *)
  | FDenied.                  (* exists, but [open] raises *)

(** What the run-time environment fixes: which optional packages imported,
    [os.path] (platform dependent), the characters that the codec cascade
    of [_handle_txt] decodes from a file that is not UTF-8 text (none when
    no codec decodes it), what [json.load] makes of a text file ([None]
    when it raises), and [os.linesep]. *)
Record env := mkEnv {
  DOCX_OK : bool;
  PPTX_OK : bool;
  XLSX_OK : bool;
  dirname : text -> text;
  basename : text -> text;
  splitext : text -> text * text;
  join : text -> text -> text;
  decode : file -> text;
  json_loads : text -> option json;
  linesep : text
}.

Definition MAPPING_SUFFIX : text := Eval cbv in lit "_mask_mapping.json".

(** [os.path.dirname(p) or "."] *)
Definition dir_or_dot (E : env) (p : text) : text :=
  match dirname E p with
  | [] => [46]
  | d => d
  end.

(** The snapshot path that [save] and [auto_load] derive from a document
    path. *)
Definition mapping_path (E : env) (p : text) : text :=
  join E (dir_or_dot E p) ((splitext E (basename E p)).1 ++ MAPPING_SUFFIX).

Definition str_members (d : gmap text text) : list (text * json) :=
  (fun kv => (kv.1, JStr kv.2)) <$> map_to_list d.

(** The object written by [json.dump] in [save]. *)
Definition snapshot (self : Scrubber) : json :=
  JObj [(lit "mapping", JObj (str_members (mapping self)));
        (lit "reverse", JObj (str_members (reverse self)))].

(** The part of the world outside the engine that the engine reads and
    writes, by the path texts that are passed to [open].  Two texts are two
    files: this is a file system without links, in which every file is
    reached under one spelling of its path.  The code derives [./name] from
    a bare [name], so the properties below compare derived paths with
    derived paths, and say nothing of a path that the code did not open. *)
Definition files := gmap text file.

(** [Scrubber.save] *)
Definition save (E : env) (out_path : text) (self : Scrubber) (fs : files)
  : text * Scrubber * files :=
  let mp := mapping_path E out_path in
  (mp,
   {| mapping := mapping self; reverse := reverse self;
      json_paths := json_paths self ++ [mp] |},
   <[mp := FJson (snapshot self)]> fs).

(** [open(path) ... json.load(f)] *)
Definition json_load (E : env) (path : text) (fs : files) : result json :=
  match fs !! path with
  | None => Raise (FileNotFoundError path)
  | Some FDenied => Raise (OSError path)
  | Some (FJson j) => Ok j
  | Some (FText c) =>
      match json_loads E c with
      | Some j => Ok j
      | None => Raise JSONDecodeError
      end
  | Some _ => Raise UnicodeDecodeError
  end.

(** The outcome of a call that mutates the engine: the engine afterwards,
    and the exception if one was raised. *)
Inductive load_outcome :=
  | Loaded (self : Scrubber)
  | LoadRaised (e : exn) (self : Scrubber)
  | LoadUntyped.

Definition with_mapping (self : Scrubber) (d : gmap text text) : Scrubber :=
  {| mapping := d; reverse := reverse self; json_paths := json_paths self |}.
Definition with_reverse (self : Scrubber) (d : gmap text text) : Scrubber :=
  {| mapping := mapping self; reverse := d; json_paths := json_paths self |}.

(** [Scrubber.load] *)
Definition load (E : env) (path : text) (self : Scrubber) (fs : files)
  : load_outcome :=
  match json_load E path fs with
  | Raise e => LoadRaised e self
  | Ok (JObj d) =>
      match dict_update (mapping self) (obj_get (lit "mapping") d (JObj [])) with
      | Untyped => LoadUntyped
      | UpdateRaised e m => LoadRaised e (with_mapping self m)
      | Updated m =>
          let self := with_mapping self m in
          match dict_update (reverse self)
                  (obj_get (lit "reverse") d
                     (obj_get (lit "reverse_mapping") d (JObj []))) with
          | Untyped => LoadUntyped
          | UpdateRaised e r => LoadRaised e (with_reverse self r)
          | Updated r => Loaded (with_reverse self r)
          end
      end
  | Ok _ => LoadRaised AttributeError self
  end.

(** [Scrubber.auto_load] *)
Definition auto_load (E : env) (doc_path : text) (self : Scrubber) (fs : files)
  : option load_outcome * text :=
  let mp := mapping_path E doc_path in
  match fs !! mp with
  | Some _ => (Some (load E mp self fs), mp)
  | None => (None, mp)
  end.

(** ** Format handlers *)

(** The loop body of [fix_tf] in [_handle_pptx], on the runs of one
    paragraph: there the text of the paragraph is the join of its runs. *)
Definition fix_runs (fn : text -> text) (runs : paragraph) : paragraph :=
  let full := concat runs in
  let new := fn full in
  if bool_decide (full = new) then runs
  else
    let runs' := map fn runs in
    if bool_decide (concat runs' <> new)
    then imap (fun i _ => match i with O => new | S _ => [] end) runs'
    else runs'.

Definition fix_table (fn : text -> text) (t : table) : table :=
  map (map (map (fix_runs fn))) t.

(** [p.text] of a Word paragraph. *)
Definition inline_text (x : inline) : text :=
  match x with
  | Run t => t
  | Hyperlink t => t
  end.

Definition paragraph_text (p : docx_paragraph) : text :=
  concat (map inline_text p).

(** [for r in p.runs: r.text = f(r.text)] *)
Definition map_runs (f : text -> text) (p : docx_paragraph) : docx_paragraph :=
  map (fun x => match x with
                | Run t => Run (f t)
                | Hyperlink t => Hyperlink t
                end) p.

(** [for i, r in enumerate(p.runs): r.text = new if i == 0 else ""] *)
Fixpoint first_run (new : text) (p : docx_paragraph) : docx_paragraph :=
  match p with
  | [] => []
  | Run _ :: r => Run new :: map_runs (fun _ => []) r
  | Hyperlink t :: r => Hyperlink t :: first_run new r
  end.

(** The local function [fix] of [_handle_docx]. *)
Definition fix_paragraph (fn : text -> text) (p : docx_paragraph)
  : docx_paragraph :=
  let full := paragraph_text p in
  let new := fn full in
  if bool_decide (full = new) then p
  else
    let p' := map_runs fn p in
    if bool_decide (paragraph_text p' <> new) then first_run new p' else p'.

Definition fix_docx_table (fn : text -> text) (t : docx_table) : docx_table :=
  map (map (map (fix_paragraph fn))) t.

(** Opening [src] with a document library. *)
Definition open_with {A} (pick : file -> option A) (src : text) (fs : files)
  : result A :=
  match fs !! src with
  | None => Raise (FileNotFoundError src)
  | Some FDenied => Raise (OSError src)
  | Some f =>
      match pick f with
      | Some a => Ok a
      | None => Raise (BadDocument src)
      end
  end.

(** [Scrubber._handle_docx] *)
Definition _handle_docx (E : env) (src dst : text) (fn : text -> text)
  (fs : files) : result files :=
  if negb (DOCX_OK E) then Raise (ImportError "python-docx")
  else
    match open_with (fun f => match f with FDocx d => Some d | _ => None end)
            src fs with
    | Raise e => Raise e
    | Ok doc =>
        Ok (<[dst := FDocx
                      {| docx_paragraphs :=
                           map (fix_paragraph fn) (docx_paragraphs doc);
                         docx_tables :=
                           map (fix_docx_table fn) (docx_tables doc) |}]> fs)
    end.

Definition fix_shape (fn : text -> text) (sh : shape) : shape :=
  {| text_frame := map (fix_runs fn) <$> text_frame sh;
     shape_table := fix_table fn <$> shape_table sh |}.

(** [Scrubber._handle_pptx] *)
Definition _handle_pptx (E : env) (src dst : text) (fn : text -> text)
  (fs : files) : result files :=
  if negb (PPTX_OK E) then Raise (ImportError "python-pptx")
  else
    match open_with (fun f => match f with FPptx p => Some p | _ => None end)
            src fs with
    | Raise e => Raise e
    | Ok prs => Ok (<[dst := FPptx (map (map (fix_shape fn)) prs)]> fs)
    end.

Definition fix_cell (fn : text -> text) (c : cell) : cell :=
  match c with
  | CStr v => CStr (fn v)
  | COther => COther
  end.

(** [Scrubber._handle_xlsx] *)
Definition _handle_xlsx (E : env) (src dst : text) (fn : text -> text)
  (fs : files) : result files :=
  if negb (XLSX_OK E) then Raise (ImportError "openpyxl")
  else
    match open_with (fun f => match f with FXlsx x => Some x | _ => None end)
            src fs with
    | Raise e => Raise e
    | Ok wb => Ok (<[dst := FXlsx (map (map (map (fix_cell fn))) wb)]> fs)
    end.

(** Text mode, as [open] without a [newline] argument gives it: on
    reading, [\r\n] and a lone [\r] become [\n]; on writing, [\n] becomes
    [os.linesep]. *)
Fixpoint universal_newlines (s : text) : text :=
  match s with
  | [] => []
  | c :: r =>
      if c =? 13 then
        10 :: match r with
              | c' :: r' =>
                  if c' =? 10 then universal_newlines r'
                  else universal_newlines r
              | [] => []
              end
      else c :: universal_newlines r
  end.

Definition write_newlines (E : env) (s : text) : text :=
  flat_map (fun c => if c =? 10 then linesep E else [c]) s.

(** [Scrubber._handle_txt]: the three codecs are tried in turn, and the
    content stays empty when none decodes the file. *)
Definition _handle_txt (E : env) (src dst : text) (fn : text -> text)
  (fs : files) : result files :=
  match fs !! src with
  | None => Raise (FileNotFoundError src)
  | Some FDenied => Raise (OSError src)
  | Some (FText content) =>
      Ok (<[dst := FText (write_newlines E (fn (universal_newlines content)))]> fs)
  | Some f =>
      Ok (<[dst := FText (write_newlines E
                            (fn (universal_newlines (decode E f))))]> fs)
  end.

(** ** [Scrubber.process] *)

(** [str.lower] on ASCII letters (no other code point lowers to a letter
    of the extensions compared below). *)
Definition lower (c : N) : N :=
  if (65 <=? c) && (c <=? 90) then c + 32 else c.

Definition ENC : text := Eval cbv in lit "enc".
Definition SUFFIX_ENC : text := [95; 21152; 23494].     (* "_加密" *)
Definition SUFFIX_DEC : text := [95; 35299; 23494].     (* "_解密" *)

Definition is_enc (mode : text) : bool := bool_decide (mode = ENC).

Definition dst_path (E : env) (src mode : text) : text :=
  let ext := map lower (splitext E src).2 in
  let base := (splitext E (basename E src)).1 in
  join E (dir_or_dot E src)
    (base ++ (if is_enc mode then SUFFIX_ENC else SUFFIX_DEC) ++ ext).

(** The engine and the files after the call come with the result; when the
    call raises they are returned as they were at that point. *)
Definition process (E : env) (src mode : text) (self : Scrubber) (fs : files)
  : result (text * option text) * Scrubber * files :=
  match fs !! src with
  | None => (Raise (FileNotFoundError src), self, fs)
  | Some _ =>
      let ext := map lower (splitext E src).2 in
      let dst := dst_path E src mode in
      let fn := if is_enc mode then _enc self else _dec self in
      let handled :=
        if bool_decide (ext = lit ".docx") then _handle_docx E src dst fn fs
        else if bool_decide (ext = lit ".pptx") then _handle_pptx E src dst fn fs
        else if bool_decide (ext = lit ".xlsx") then _handle_xlsx E src dst fn fs
        else if bool_decide (ext = lit ".txt") then _handle_txt E src dst fn fs
        else if bool_decide (ext ∈ [lit ".doc"; lit ".ppt"; lit ".xls"])
             then Raise (LegacyFormat ext)
        else Raise (UnsupportedFormat ext) in
      match handled with
      | Raise e => (Raise e, self, fs)
      | Ok fs' =>
          if is_enc mode then
            let '(mp, self', fs'') := save E dst self fs' in
            (Ok (dst, Some mp), self', fs'')
          else (Ok (dst, None), self, fs')
      end
  end.

(** ** [Scrubber.batch] *)

Inductive tag := Done | Failed.                  (* "完成" / "失败" *)

(** One call of the progress callback: [cb(i+1, len(files), fname, tag)]. *)
Definition event := (nat * nat * text * tag)%type.

(** A callback returns ([None]) or raises. *)
Definition callback := event -> option exn.

(** One entry of the result list: [(fp, out, None, mp)] on success and
    [(fp, None, str(e), None)] on failure; the exception stands for its
    message. *)
Definition outcome := (text * option text * option exn * option text)%type.

Record world := mkWorld {
  scrub : Scrubber;
  fs : files;
  uuid_calls : nat;
  progress : list event        (* the calls made to [cb], oldest first *)
}.

(** [if cb: cb(...)] *)
Definition call (cb : option callback) (ev : event) : option exn :=
  match cb with
  | Some f => f ev
  | None => None
  end.

Definition logged (cb : option callback) (ev : event) (log : list event)
  : list event :=
  match cb with
  | Some _ => log ++ [ev]
  | None => log
  end.

(** The [for] loop of [batch].  Both calls of the callback stand where the
    source has them: the first inside the [try], so that an exception it
    raises is handled like one of [process]; the second inside the [except]
    clause, from where an exception leaves [batch]. *)
Fixpoint batch_loop (E : env) (mode : text) (cb : option callback)
  (total i : nat) (fps : list text) (w : world) (results : list outcome)
  : result (list outcome) * world :=
  match fps with
  | [] => (Ok results, w)
  | fp :: rest =>
      let fname := basename E fp in
      let failed (e : exn) (w : world) (results : list outcome) :=
        let results := results ++ [(fp, None, Some e, None)] in
        let ev := (S i, total, fname, Failed) in
        let w := {| scrub := scrub w; fs := fs w; uuid_calls := uuid_calls w;
                    progress := logged cb ev (progress w) |} in
        match call cb ev with
        | Some e' => (Raise e', w)
        | None => batch_loop E mode cb total (S i) rest w results
        end in
      match process E fp mode (scrub w) (fs w) with
      | (Ok (out, mp), self', fs') =>
          let results := results ++ [(fp, Some out, None, mp)] in
          let ev := (S i, total, fname, Done) in
          let w := {| scrub := self'; fs := fs'; uuid_calls := uuid_calls w;
                      progress := logged cb ev (progress w) |} in
          match call cb ev with
          | Some e => failed e w results
          | None => batch_loop E mode cb total (S i) rest w results
          end
      | (Raise e, self', fs') =>
          failed e {| scrub := self'; fs := fs'; uuid_calls := uuid_calls w;
                      progress := progress w |} results
      end
  end.

Definition batch (E : env) (uuid4 : nat -> N) (fps : list text)
  (words : list text) (mode : text) (cb : option callback) (w : world)
  : result (list outcome) * world :=
  let w :=
    if is_enc mode then
      let st := build uuid4 words (scrub w, uuid_calls w) in
      {| scrub := st.1; fs := fs w; uuid_calls := st.2; progress := progress w |}
    else w in
  batch_loop E mode cb (length fps) 0 fps w [].

(** ** The caller of [batch]: [App._run]

    The checks that [App._run] makes before it starts [batch].  The word
    list is what [App._words] returned; [dialogs] holds the user's answers
    to [askokcancel] and [askopenfilename] (the empty path when the file
    dialog is cancelled) and the behaviour of the progress callback that
    [_run] passes to [batch]. *)

Inductive warning :=
  | NoFiles      (* "请先在...添加文件。" *)
  | NoWords.     (* "请填写敏感词。" *)

Record dialogs := mkDialogs {
  ask_ok : bool;
  picked : text;
  on_progress : callback
}.

Inductive run_outcome :=
  | Warned (msg : warning)                (* [showwarning] and return *)
  | Declined                              (* a dialog was cancelled; return *)
  | LoadFailed (e : exn)                  (* [showerror] and return *)
  | Propagated (e : exn)                  (* the exception leaves [_run] *)
  | RunUntyped                            (* [load] left the [str -> str] shape *)
  | WorkerDied (e : exn) (w : world)      (* [batch] raised in the worker *)
  | Ran (results : list outcome) (w : world).

Definition with_scrub (w : world) (self : Scrubber) : world :=
  {| scrub := self; fs := fs w; uuid_calls := uuid_calls w;
     progress := progress w |}.

(** The worker started at the end of [_run]. *)
Definition worker (E : env) (uuid4 : nat -> N) (ui : dialogs)
  (fps words : list text) (mode : text) (w : world) : run_outcome :=
  match batch E uuid4 fps words mode (Some (on_progress ui)) w with
  | (Ok results, w') => Ran results w'
  | (Raise e, w') => WorkerDied e w'
  end.

Definition _run (E : env) (uuid4 : nat -> N) (ui : dialogs)
  (fps words : list text) (mode : text) (w : world) : run_outcome :=
  match fps with
  | [] => Warned NoFiles
  | first :: _ =>
      if is_enc mode then
        match words with
        | [] => Warned NoWords
        | _ :: _ => worker E uuid4 ui fps words mode w
        end
      else
        if bool_decide (reverse (scrub w) = ∅) then
          match auto_load E first (scrub w) (fs w) with
          | (Some (Loaded self), _) =>
              worker E uuid4 ui fps [] mode (with_scrub w self)
          | (Some (LoadRaised e _), _) => Propagated e
          | (Some LoadUntyped, _) => RunUntyped
          | (None, _) =>
              if ask_ok ui then
                match picked ui with
                | [] => Declined
                | jp =>
                    match load E jp (scrub w) (fs w) with
                    | Loaded self =>
                        worker E uuid4 ui fps [] mode (with_scrub w self)
                    | LoadRaised e _ => LoadFailed e
                    | LoadUntyped => RunUntyped
                    end
                end
              else Declined
          end
        else worker E uuid4 ui fps [] mode w
  end.

(** A POSIX instance of the environment, for concrete runs: every optional
    package present, [posixpath] for [os.path]. *)

Fixpoint rsplit_at (sep : N) (s : text) : option (text * text) :=
  match s with
  | [] => None
  | c :: r =>
      match rsplit_at sep r with
      | Some (a, b) => Some (c :: a, b)
      | None => if c =? sep then Some ([], r) else None
      end
  end.

Fixpoint lstrip_slash (s : text) : text :=
  match s with
  | 47 :: r => lstrip_slash r
  | _ => s
  end.

Definition rstrip_slash (s : text) : text := rev (lstrip_slash (rev s)).

Definition posix_dirname (p : text) : text :=
  match rsplit_at 47 p with
  | None => []
  | Some (a, _) =>
      let head := a ++ [47] in
      if forallb (fun c => c =? 47) head then head else rstrip_slash head
  end.

Definition posix_basename (p : text) : text :=
  match rsplit_at 47 p with
  | None => p
  | Some (_, b) => b
  end.

Definition posix_splitext (p : text) : text * text :=
  let b := posix_basename p in
  match rsplit_at 46 b with
  | None => (p, [])
  | Some (a, e) =>
      if forallb (fun c => c =? 46) a then (p, [])
      else (take (length p - S (length e)) p, 46 :: e)
  end.

Definition posix_join (a b : text) : text :=
  match b with
  | 47 :: _ => b
  | _ =>
      match last a with
      | None | Some 47 => a ++ b
      | Some _ => a ++ 47 :: b
      end
  end.

Definition posix : env :=
  {| DOCX_OK := true; PPTX_OK := true; XLSX_OK := true;
     dirname := posix_dirname; basename := posix_basename;
     splitext := posix_splitext; join := posix_join;
     decode := fun _ => []; json_loads := fun _ => None;
     linesep := [10] |}.

Local Close Scope N_scope.

(** ** Notions used to state the properties *)

(** What the engine guarantees of a match: it is no longer than the
    subject, and it is not empty when the engine must advance. *)
Definition good_matcher (m : matcher) : Prop :=
  (forall b s w, m b s = Some w -> length w <= length s)
  /\ (forall s w, m true s = Some w -> w <> []).

(** The measure that decreases along the search loop. *)
Definition weight (b : bool) (s : text) : nat :=
  2 * length s + (if b then 0 else 1).

(** The search loop from a position, with fuel to spare. *)
Definition scan_at (m : matcher) (b : bool) (s : text) : list seg :=
  scan m (2 * length s + 2) b s.

(** A text that is exactly one token. *)
Definition is_token (t : text) : Prop := mask_pat false t = Some t.

(** No token starts anywhere in [s]. *)
Definition token_free (s : text) : Prop :=
  forall i, mask_pat false (drop i s) = None.

(** The two dictionaries agree: every mask is a token and leads back to its
    word. *)
Definition consistent (self : Scrubber) : Prop :=
  forall w m, mapping self !! w = Some m ->
    is_token m /\ reverse self !! m = Some w.

(** The reassembly at the end of [_enc], on the segments found by
    [mask_pat]: [f] is applied to each part, and the parts are joined by the
    masks between them. *)
Definition join_parts (f : text -> text) (l : list seg) : text :=
  let safe_parts := map f (split_segs l) in
  foldl (fun out mp => out ++ fst mp ++ snd mp)
        (hd [] safe_parts) (zip (findall_segs l) (tail safe_parts)).

(** The word list, the replacement function and the substitution that
    [_enc] applies to each part. *)
Definition enc_words (self : Scrubber) : list text :=
  sorted_by_len_desc (keys (mapping self)).
Definition enc_repl (self : Scrubber) : text -> text :=
  fun w => default w (mapping self !! w).
Definition enc_part (self : Scrubber) : text -> text :=
  re_sub (word_pat (enc_words self)) (enc_repl self).

(** The output of that substitution from a position of the search loop. *)
Definition enc_out (self : Scrubber) (b : bool) (s : text) : text :=
  sub_segs (enc_repl self) (scan_at (word_pat (enc_words self)) b s).

(** The masks made from the UUIDs drawn at the calls [n0 .. n-1] are
    pairwise different: no collision of their first 32 bits. *)
Definition distinct_draws (uuid4 : nat -> N) (n0 n : nat) : Prop :=
  forall i j, n0 <= i -> i < j -> j < n ->
    new_mask (uuid4 i) <> new_mask (uuid4 j).

(** Every key of [reverse] was made from one of the calls [n0 .. n-1]. *)
Definition drawn (uuid4 : nat -> N) (n0 : nat) (st : Scrubber * nat) : Prop :=
  forall m, is_Some (reverse st.1 !! m) ->
    exists i, n0 <= i < st.2 /\ m = new_mask (uuid4 i).

(** The snapshot format in the words of the specification: a JSON object
    with the two keys [mapping] (word -> token) and [reverse]
    (token -> word), the latter also accepted under its legacy name; both
    hold objects whose values are strings. *)
Definition is_str_dict (j : json) : bool :=
  match j with
  | JObj ms => forallb (fun kv => match kv.2 with JStr _ => true | _ => false end) ms
  | _ => false
  end.

Definition valid_snapshot (j : json) : bool :=
  match j with
  | JObj d =>
      match obj_lookup (lit "mapping") d with
      | Some m => is_str_dict m
      | None => false
      end
      && match obj_lookup (lit "reverse") d, obj_lookup (lit "reverse_mapping") d with
         | Some r, _ | None, Some r => is_str_dict r
         | None, None => false
         end
  | _ => false
  end.

(** The entry that a snapshot member [ms] gives for key [k], if any. *)
Definition str_entry (k : text) (ms : list (text * json)) : option text :=
  match obj_lookup k ms with
  | Some (JStr v) => Some v
  | _ => None
  end.

(** The members of the [mapping] and [reverse] objects of a snapshot, as
    [load] picks them. *)
Definition members_of (j : json) : list (text * json) :=
  match j with
  | JObj ms => ms
  | _ => []
  end.
Definition snapshot_mapping (d : list (text * json)) : list (text * json) :=
  members_of (obj_get (lit "mapping") d (JObj [])).
Definition snapshot_reverse (d : list (text * json)) : list (text * json) :=
  members_of (obj_get (lit "reverse") d
                (obj_get (lit "reverse_mapping") d (JObj []))).

(** ** The loop of [batch], one iteration at a time *)

(** The entry appended to [results] for [fp]. *)
Definition entry (fp : text) (r : result (text * option text)) : outcome :=
  match r with
  | Ok (out, mp) => (fp, Some out, None, mp)
  | Raise e => (fp, None, Some e, None)
  end.

Definition tag_of (r : result (text * option text)) : tag :=
  match r with
  | Ok _ => Done
  | Raise _ => Failed
  end.

(** The world after the iteration for [fp], the [i]-th file of [total],
    when the callback returns. *)
Definition after_file (E : env) (mode : text) (cb : option callback)
  (total i : nat) (fp : text) (w : world) : world :=
  let r := process E fp mode (scrub w) (fs w) in
  {| scrub := r.1.2; fs := r.2; uuid_calls := uuid_calls w;
     progress := logged cb (S i, total, basename E fp, tag_of r.1.1) (progress w) |}.

(** A callback that never raises; no callback at all is one. *)
Definition quiet (cb : option callback) : Prop :=
  forall ev, call cb ev = None.

(** The list held by a result, empty for an exception. *)
Definition results_of (r : result (list outcome)) : list outcome :=
  match r with
  | Ok l => l
  | Raise _ => []
  end.

(** The world in which the loop of [batch] starts. *)
Definition batch_start (uuid4 : nat -> N) (words : list text) (mode : text)
  (w : world) : world :=
  if is_enc mode then
    let st := build uuid4 words (scrub w, uuid_calls w) in
    {| scrub := st.1; fs := fs w; uuid_calls := st.2; progress := progress w |}
  else w.

(** The fields of an outcome, and the test that [App._done] applies to it
    ([r[2] is None]). *)
Definition input (r : outcome) : text := r.1.1.1.
Definition output (r : outcome) : option text := r.1.1.2.
Definition error (r : outcome) : option exn := r.1.2.
Definition snapshot_path (r : outcome) : option text := r.2.
Definition succeeded (r : outcome) : bool :=
  match error r with
  | None => true
  | Some _ => false
  end.

(** The shape of every entry. *)
Definition well_shaped (E : env) (mode : text) (r : outcome) : Prop :=
  match r with
  | (fp, Some out, None, mp) =>
      out = dst_path E fp mode
      /\ mp = if is_enc mode then Some (mapping_path E out) else None
  | (_, None, Some _, None) => True
  | _ => False
  end.

(** What the files and the engine after [batch] hold for an entry of its
    result list: a file at the output path, the snapshot path among
    [json_paths], and at the snapshot path the snapshot of the engine, unless
    a document of the same batch was written to that very path. *)
Definition persisted (w' : world) (results : list outcome) (r : outcome)
  : Prop :=
  forall out, output r = Some out ->
    is_Some (fs w' !! out)
    /\ forall mp, snapshot_path r = Some mp ->
         mp ∈ json_paths (scrub w')
         /\ ((forall r', r' ∈ results -> output r' <> Some mp) ->
             fs w' !! mp = Some (FJson (snapshot (scrub w')))).

(** ** Concrete engines and texts used in the examples below *)

(** A UUID source whose draws differ in their first 32 bits. *)
Definition uuid_counting (i : nat) : N := (N.of_nat i * 2 ^ 96)%N.

(** A UUID source that repeats itself. *)
Definition uuid_constant (i : nat) : N := 0%N.

Definition TOKEN_0 : text := Eval cbv in lit "[MASK_00000000]".
Definition TOKEN_AB : text := Eval cbv in lit "[MASK_000000AB]".
Definition TOKEN_F : text := Eval cbv in lit "[MASK_FFFFFFFF]".

(** The engine after [build(["A", "AB"])] with draws 0 and 1. *)
Definition engine_A_AB : Scrubber :=
  (build uuid_counting [lit "A"; lit "AB"] (Scrubber_init, 0)).1.

(** The engine after [build(["a"])] when the draw gives [TOKEN_0]. *)
Definition engine_a : Scrubber :=
  (build uuid_constant [lit "a"] (Scrubber_init, 0)).1.

(** The engine after [build(["a", "b"])] when both draws give the same
    first 32 bits. *)
Definition engine_collision : Scrubber :=
  (build uuid_constant [lit "a"; lit "b"] (Scrubber_init, 0)).1.

(** A snapshot file that is a JSON object but no serialized mapping:
    [{"words": ["bob"]}]. *)
Definition foreign_json : json := JObj [(lit "words", JArr [JStr (lit "bob")])].

Definition files_foreign : files := {[ lit "m.json" := FJson foreign_json ]}.

(** A snapshot as [save] writes it, holding one word. *)
Definition bob_json : json :=
  JObj [(lit "mapping", JObj [(lit "bob", JStr TOKEN_F)]);
        (lit "reverse", JObj [(TOKEN_F, JStr (lit "bob"))])].

Definition files_bob : files := {[ lit "m.json" := FJson bob_json ]}.

(** A directory with a text file, a file that is no document, and nothing
    under the third name. *)
Definition files_batch : files :=
  {[ lit "a.txt" := FText (lit "hello bob");
     lit "b.docx" := FOther;
     lit "c.txt" := FText (lit "bob again") ]}.

Definition world_batch : world :=
  {| scrub := Scrubber_init; fs := files_batch; uuid_calls := 0; progress := [] |}.

(** A callback that raises when it is told of a success. *)
Definition cb_raises_on_done : callback := fun ev =>
  match ev.2 with
  | Done => Some TypeError
  | Failed => None
  end.

(** ** Further notions used to state properties *)

(** [w] occurs in [t] as a substring. *)
Definition occurs (w t : text) : Prop := exists pre post, t = pre ++ w ++ post.

(** A text whose only mapped words stand inside a token, and a text with
    mapped words and a token. *)
Definition TEXT_PLAIN : text :=
  Eval cbv in lit "nothing to hide here, [MASK_000000AB]".
Definition TEXT_MIXED : text :=
  Eval cbv in lit "AB met A at [MASK_FFFFFFFF] and AAB".

(** Every mask held by [mapping] is a well-formed token. *)
Definition masks_well_formed (self : Scrubber) : Prop :=
  forall w m, mapping self !! w = Some m -> is_token m.

(** No mapped word occurs in any of the parts into which the mask pattern
    splits [t], that is, outside the tokens of [t]. *)
Definition parts_clean (self : Scrubber) (t : text) : Prop :=
  forall p w, p ∈ re_split mask_pat t -> is_Some (mapping self !! w) ->
              ~ occurs w p.

#[global] Instance is_token_dec (t : text) : Decision (is_token t).
Proof. unfold is_token. apply _. Defined.

(** [occurs], as a test. *)
Definition occursb (w t : text) : bool :=
  existsb (fun i => is_prefix w (drop i t)) (seq 0 (S (length t))).

(** A snapshot whose [reverse] member is [null]. *)
Definition half_json : json :=
  JObj [(lit "mapping", JObj [(lit "bob", JStr TOKEN_F)]);
        (lit "reverse", JNull)].

Definition files_half : files := {[ lit "m.json" := FJson half_json ]}.

(** A snapshot with the reverse map under its legacy name. *)
Definition legacy_json : json :=
  JObj [(lit "mapping", JObj [(lit "bob", JStr TOKEN_F)]);
        (lit "reverse_mapping", JObj [(TOKEN_F, JStr (lit "bob"))])].

Definition files_legacy : files := {[ lit "m.json" := FJson legacy_json ]}.

(** The mode string of unmasking, as [App._run] passes it. *)
Definition DEC : text := Eval cbv in lit "dec".

(** [SUPPORTED_EXT], and the legacy extensions that [process] names. *)
Definition SUPPORTED_EXT : list text :=
  [lit ".docx"; lit ".pptx"; lit ".xlsx"; lit ".txt"].
Definition LEGACY_EXT : list text := [lit ".doc"; lit ".ppt"; lit ".xls"].

(** The extension that [process] and [FileList._add] look at. *)
Definition ext_of (E : env) (path : text) : text :=
  map lower (splitext E path).2.

(** A text file with two mapped words, for the POSIX environment. *)
Definition files_note : files :=
  {[ lit "note.txt" := FText (lit "AB met A") ]}.

(** A text file with a Windows line end. *)
Definition TEXT_CRLF : text :=
  Eval cbv in (lit "AB met A" ++ [13; 10]%N ++ lit "end").
Definition files_crlf : files := {[ lit "note.txt" := FText TEXT_CRLF ]}.

(** A legacy document, by its name. *)
Definition files_legacy_doc : files := {[ lit "old.DOC" := FOther ]}.

(** The cells of a workbook. *)
Definition cells_of (wb : xlsx) : list cell := concat (concat wb).

(** The hyperlink at a place of a Word paragraph, if one stands there. *)
Definition link_of (x : inline) : option text :=
  match x with
  | Run _ => None
  | Hyperlink t => Some t
  end.

(** What [fix] makes of a Word paragraph [p]: the hyperlinks stay as they
    are, each at its place, and a paragraph that consists of runs, at least
    one, gets the transformed text. *)
Definition docx_fixed (fn : text -> text) (p p' : docx_paragraph) : Prop :=
  map link_of p' = map link_of p
  /\ forall rs, p = map Run rs -> rs <> [] ->
                paragraph_text p' = fn (concat rs).

(** The engine cannot resolve any token that [t] already holds. *)
Definition tokens_unknown (self : Scrubber) (t : text) : Prop :=
  forall m, m ∈ re_findall mask_pat t -> reverse self !! m = None.

(** A document with a paragraph in three runs, a paragraph with a
    hyperlink, an empty paragraph and a table of one cell, and a workbook
    with a text and a number. *)
Definition docx_note : docx :=
  {| docx_paragraphs :=
       [[Run (lit "A"); Run (lit "B met"); Run (lit " A")];
        [Run (lit "see "); Hyperlink (lit "AB")];
        []];
     docx_tables := [[[[[Run (lit "AB")]]]]] |}.
Definition files_docx : files := {[ lit "n.docx" := FDocx docx_note ]}.
Definition xlsx_note : xlsx := [[[CStr (lit "AB met A"); COther]; []]].

(** The calls that the callback of [batch] receives for a list of results,
    when the first of them belongs to the file after the [i]-th:
    [cb(i+1, len(files), fname, tag)]. *)
Definition events_of (E : env) (total i : nat) (results : list outcome)
  : list event :=
  imap (fun k r => (S (i + k), total, basename E (input r),
                    if succeeded r then Done else Failed)) results.

(** A callback that returns, and one that raises whatever it is told. *)
Definition cb_returns : callback := fun _ => None.
Definition cb_raises : callback := fun _ => Some TypeError.

(** ** [FileList]: the list of paths behind a drop zone

    The state is the list [self.files] and the rows of the list box
    [self.lb], which the methods change together. *)

Module FileList.

Record t := mk {
  files : list text;
  lb : list text
}.

(** [__init__]: [self.files = []] and an empty list box. *)
Definition init : t := {| files := []; lb := [] |}.

(** The row shown for a path: ["  " + os.path.basename(path)]. *)
Definition row (E : env) (path : text) : text := lit "  " ++ basename E path.

(** [FileList._add] *)
Definition _add (E : env) (path : text) (self : t) : t :=
  if bool_decide (path = []) then self
  else if bool_decide (ext_of E path ∉ SUPPORTED_EXT) then self
  else if bool_decide (path ∈ files self) then self
  else {| files := files self ++ [path]; lb := lb self ++ [row E path] |}.

(** [FileList._scan_dir]; [listdir] is what [os.listdir(d)] returned. *)
Definition _scan_dir (E : env) (listdir : list text) (d : text) (self : t) : t :=
  foldl (fun self fn =>
           if bool_decide (ext_of E fn ∈ SUPPORTED_EXT)
           then _add E (join E d fn) self
           else self) self listdir.

(** [FileList._del]: for each selected index, from the last to the first,
    [self.lb.delete(i)] and then [self.files.pop(i)].  The list box ignores
    an index that is out of range; [list.pop] raises [IndexError], and the
    state is then the one reached at that point. *)
Inductive del_outcome :=
  | Deleted (self : t)
  | IndexError (self : t).

Fixpoint del_loop (sel : list nat) (self : t) : del_outcome :=
  match sel with
  | [] => Deleted self
  | i :: rest =>
      let self := {| files := files self; lb := delete i (lb self) |} in
      if bool_decide (i < length (files self))
      then del_loop rest {| files := delete i (files self); lb := lb self |}
      else IndexError self
  end.

Definition _del (curselection : list nat) (self : t) : del_outcome :=
  del_loop (rev curselection) self.

(** [FileList._clear] *)
Definition _clear (self : t) : t := {| files := []; lb := [] |}.

(** The elements of [l] whose index, counted from [k], is not in [sel]. *)
Fixpoint unselected_from {A} (k : nat) (sel : list nat) (l : list A) : list A :=
  match l with
  | [] => []
  | x :: l' =>
      if bool_decide (k ∈ sel) then unselected_from (S k) sel l'
      else x :: unselected_from (S k) sel l'
  end.

Definition unselected {A} (sel : list nat) (l : list A) : list A :=
  unselected_from 0 sel l.

(** What holds of every list that the methods build: no path twice, every
    path non-empty and of a supported extension, and one row per path. *)
Definition listed_ok (E : env) (self : t) : Prop :=
  NoDup (files self)
  /\ Forall (fun p => p <> [] /\ ext_of E p ∈ SUPPORTED_EXT) (files self)
  /\ lb self = map (row E) (files self).

(** What Tk returns from [curselection]: indices of rows, in ascending
    order. *)
Definition valid_selection (sel : list nat) (self : t) : Prop :=
  StronglySorted lt sel /\ Forall (fun i => i < length (lb self)) sel.

(** A list of three paths under POSIX. *)
Definition three : t :=
  _add posix (lit "c.TXT")
    (_add posix (lit "b.docx") (_add posix (lit "a.txt") init)).

End FileList.

(** ** [App._words]: the word list read from the input box *)

(** [self._ph], the placeholder shown in the empty box. *)
Definition _ph : text :=
  [20363; 65306; 20013; 22269; 65292; 49; 65292; 50; 65292; 51; 65292; 48;
   65292; 25919; 24220]%N.

(** [re.split(r"[,，\n]", raw)]: a comma, a full-width comma or a line feed. *)
Definition is_sep (c : N) : bool :=
  ((c =? 44) || (c =? 65292) || (c =? 10))%N.

Definition sep_pat : matcher := fun _ s =>
  if match_classes [is_sep] s then Some (take 1 s) else None.

(** [content] is what [self.word_box.get("1.0", tk.END)] returned. *)
Definition _words (content : text) : list text :=
  let raw := strip content in
  if bool_decide (raw = _ph) || bool_decide (raw = []) then []
  else map strip
         (List.filter (fun w => bool_decide (strip w <> []))
            (re_split sep_pat raw)).

(** The segment that the search loop yields for one character. *)
Definition sep_seg (c : N) : seg := if is_sep c then Hit [c] else Lit c.

(** A box with three entries, one of them blank. *)
Definition BOX : text := Eval cbv in (lit "  bob , ,alice" ++ [10%N]).

(** ** [App._done]: the report after a run, and the removal of snapshots

    [del_json_var] is the state of the check box; [removable] tells for
    which paths [os.remove] succeeds: where it raises, the [except] clause
    passes and the file stays. *)

Record report := mkReport {
  ok : list outcome;            (* [r for r in results if r[2] is None] *)
  fail : list outcome;          (* [r for r in results if r[2] is not None] *)
  deleted : list text;          (* base names of the snapshots removed *)
  warning_shown : bool          (* [showwarning], not [showinfo] *)
}.

(** The body of the loop over [list(self.scrubber.json_paths)]. *)
Definition remove_json (E : env) (removable : text -> bool)
  (st : files * list text) (path : text) : files * list text :=
  match st.1 !! path with
  | Some _ =>
      if removable path then (delete path st.1, st.2 ++ [basename E path])
      else st
  | None => st
  end.

Definition _done (E : env) (del_json_var : bool) (removable : text -> bool)
  (results : list outcome) (mode : text) (w : world) : world * report :=
  let ok := List.filter succeeded results in
  let fail := List.filter (fun r => negb (succeeded r)) results in
  let removed :=
    if bool_decide (mode = DEC) && bool_decide (ok <> []) && del_json_var
    then foldl (remove_json E removable) (fs w, []) (json_paths (scrub w))
    else (fs w, []) in
  ({| scrub := scrub w; fs := removed.1; uuid_calls := uuid_calls w;
      progress := progress w |},
   {| ok := ok; fail := fail; deleted := removed.2;
      warning_shown := bool_decide (fail <> []) |}).

(** A session that has masked [a.txt]: the engine has recorded the path of
    the snapshot, which is among the files. *)
Definition world_masked : world :=
  (batch posix uuid_counting [lit "a.txt"] [lit "bob"] ENC None world_batch).2.

(** A session that starts with a loaded engine and one text file. *)
Definition world_note : world :=
  {| scrub := engine_A_AB; fs := files_note; uuid_calls := 0; progress := [] |}.

(** The answers of a user who cancels every dialog. *)
Definition ui_cancel : dialogs :=
  {| ask_ok := false; picked := []; on_progress := cb_returns |}.

(** * Properties *)

(** ** The search loop *)

Section ScanLoop.
Variable m : matcher.
Hypothesis Hgood : good_matcher m.

Lemma scan_unfold n b s :
  scan m (S n) b s =
  match m b s with
  | Some w => Hit w :: scan m n (bool_decide (w = [])) (drop (length w) s)
  | None => match s with [] => [] | c :: s' => Lit c :: scan m n false s' end
  end.
Proof. done. Qed.

Lemma scan_fuel_irrelevant n n' b s :
  weight b s < n -> weight b s < n' -> scan m n b s = scan m n' b s.
Proof using Hgood.
  destruct Hgood as [Hlen Hadv].
  revert n' b s. induction n as [|n IH]; intros n' b s Hn Hn'; [lia|].
  destruct n' as [|n']; [lia|]. rewrite !scan_unfold.
  destruct (m b s) as [w|] eqn:Hm.
  - f_equal. pose proof (Hlen _ _ _ Hm) as Hw.
    apply IH; unfold weight in *; rewrite length_drop;
      case_bool_decide as Hnil; subst; simpl in *;
      try (destruct b; [exfalso; eapply Hadv; eauto | lia]);
      (destruct w; [done|]; simpl in *; destruct b; lia).
  - destruct s as [|c s]; [done|]. f_equal.
    apply IH; unfold weight in *; simpl in *; destruct b; lia.
Qed.

Lemma finditer_scan_at s : finditer m s = scan_at m false s.
Proof. done. Qed.

Lemma scan_at_hit b s w :
  m b s = Some w ->
  scan_at m b s
  = Hit w :: scan_at m (bool_decide (w = [])) (drop (length w) s).
Proof using Hgood.
  intros Hm. unfold scan_at at 1.
  replace (2 * length s + 2) with (S (2 * length s + 1)) by lia.
  rewrite scan_unfold, Hm. f_equal.
  destruct Hgood as [Hlen Hadv]. pose proof (Hlen _ _ _ Hm) as Hw.
  apply scan_fuel_irrelevant; unfold weight; rewrite length_drop;
    case_bool_decide as Hnil; subst; simpl in *; try lia;
    (destruct w; [done|]; simpl in *; lia).
Qed.

Lemma scan_at_lit b c s :
  m b (c :: s) = None -> scan_at m b (c :: s) = Lit c :: scan_at m false s.
Proof using Hgood.
  intros Hm. unfold scan_at at 1.
  replace (2 * length (c :: s) + 2) with (S (2 * length (c :: s) + 1)) by lia.
  rewrite scan_unfold, Hm. f_equal.
  apply scan_fuel_irrelevant; unfold weight; simpl; lia.
Qed.

Lemma scan_at_nil b : m b [] = None -> scan_at m b [] = [].
Proof. intros Hm. unfold scan_at. simpl. by rewrite Hm. Qed.
End ScanLoop.

(** Induction along the loop. *)
Lemma scan_ind (P : bool -> text -> Prop) :
  (forall b s, (forall b' s', weight b' s' < weight b s -> P b' s') -> P b s) ->
  forall b s, P b s.
Proof.
  intros Hstep b s.
  remember (weight b s) as k eqn:Hk.
  revert b s Hk. induction (lt_wf k) as [k _ IH]. intros b s ->.
  apply Hstep. intros b' s' Hlt. by eapply IH.
Qed.

(** ** The token pattern *)

Lemma match_classes_take cs s :
  match_classes cs s = match_classes cs (take (length cs) s).
Proof.
  revert s. induction cs as [|c cs IH]; intros [|x s]; simpl; try done.
  by rewrite <- IH.
Qed.

Lemma match_classes_length cs s :
  match_classes cs s = true -> length cs <= length s.
Proof.
  revert s. induction cs as [|c cs IH]; intros [|x s]; simpl; try done; try lia.
  intros [_ H]%andb_prop. apply IH in H. lia.
Qed.

Lemma match_classes_lookup cs s i (c : char_class) :
  match_classes cs s = true -> cs !! i = Some c ->
  exists x, s !! i = Some x /\ c x = true.
Proof.
  revert s i. induction cs as [|c' cs IH]; intros [|x s] i; simpl; try done.
  intros [Hc H]%andb_prop. destruct i as [|i]; simpl.
  - intros [= ->]. eauto.
  - by apply IH.
Qed.

Lemma mask_classes_length : length MASK_CLASSES = 15.
Proof. done. Qed.

Lemma mask_classes_inner i (c : char_class) :
  1 <= i -> MASK_CLASSES !! i = Some c -> c 91%N = false.
Proof.
  intros Hi. destruct i as [|i]; [lia|].
  do 14 (destruct i as [|i]; [by intros [= <-]|]). done.
Qed.

Lemma mask_pat_flag b b' s : mask_pat b s = mask_pat b' s.
Proof. done. Qed.

Lemma mask_pat_Some b s w :
  mask_pat b s = Some w -> w = take 15 s /\ length w = 15 /\ 15 <= length s.
Proof.
  unfold mask_pat. destruct (match_classes _ _) eqn:H; [|done].
  intros [= <-]. apply match_classes_length in H.
  rewrite mask_classes_length in *. rewrite length_take. repeat split; lia.
Qed.

Lemma mask_pat_good : good_matcher mask_pat.
Proof.
  split.
  - intros b s w (-> & _ & ?)%mask_pat_Some. rewrite length_take. lia.
  - intros s w (_ & ? & _)%mask_pat_Some ->. done.
Qed.

Lemma mask_pat_take b s : mask_pat b s = mask_pat b (take 15 s).
Proof.
  unfold mask_pat. rewrite (match_classes_take _ s), mask_classes_length.
  rewrite (match_classes_take _ (take 15 s)), mask_classes_length.
  by rewrite take_take.
Qed.

Lemma mask_pat_app b s x w :
  mask_pat b s = Some w -> mask_pat b (s ++ x) = Some w.
Proof.
  intros H. pose proof (mask_pat_Some _ _ _ H) as (_ & _ & Hlen).
  rewrite mask_pat_take, take_app_le, <- mask_pat_take; [done | lia].
Qed.

Lemma mask_pat_inner b s w i :
  mask_pat b s = Some w -> 1 <= i < 15 -> s !! i <> Some 91%N.
Proof.
  unfold mask_pat. destruct (match_classes _ _) eqn:H; [|done].
  intros _ [Hi Hlt] Hs.
  destruct (lookup_lt_is_Some_2 MASK_CLASSES i) as [c Hc];
    [rewrite mask_classes_length; lia|].
  destruct (match_classes_lookup _ _ _ _ H Hc) as (x & Hx & Hcx).
  rewrite Hs in Hx. injection Hx as <-.
  by rewrite (mask_classes_inner i c) in Hcx.
Qed.

Lemma mask_pat_head b s w : mask_pat b s = Some w -> s !! 0 = Some 91%N.
Proof.
  unfold mask_pat. destruct (match_classes _ _) eqn:H; [|done]. intros _.
  destruct (match_classes_lookup _ _ 0 (N.eqb 91) H eq_refl) as (x & Hx & Hcx).
  apply N.eqb_eq in Hcx. by subst.
Qed.

Lemma is_token_length t : is_token t -> length t = 15.
Proof. by intros (_ & ? & _)%mask_pat_Some. Qed.

Lemma is_token_head t : is_token t -> exists r, t = 91%N :: r.
Proof. intros H%mask_pat_head. destruct t; simplify_eq/=. eauto. Qed.

Lemma is_token_app b t x : is_token t -> mask_pat b (t ++ x) = Some t.
Proof. intros H. by apply mask_pat_app. Qed.

Lemma mask_pat_is_token b s w : mask_pat b s = Some w -> is_token w.
Proof.
  intros H. pose proof (mask_pat_Some _ _ _ H) as (-> & Hl & _).
  unfold is_token. rewrite mask_pat_take, take_take, Nat.min_id.
  rewrite <- mask_pat_take. by rewrite <- H.
Qed.

Lemma mask_pat_split b s w :
  mask_pat b s = Some w -> s = w ++ drop 15 s.
Proof.
  intros (-> & _)%mask_pat_Some. by rewrite take_drop.
Qed.

(** A token cannot begin inside the subject before another token begins:
    the only ['['] of a match is its first character. *)
Lemma mask_pat_before_token b p t x w :
  is_token t -> p <> [] -> mask_pat b (p ++ t ++ x) = Some w ->
  15 <= length p /\ mask_pat b p = Some w.
Proof.
  intros Ht Hp H.
  assert (15 <= length p) as Hlen.
  { destruct (decide (15 <= length p)) as [|Hn]; [done|]. exfalso.
    apply (mask_pat_inner _ _ _ (length p) H).
    - destruct p; [done|]. simpl in *. lia.
    - destruct (is_token_head _ Ht) as [r ->].
      rewrite lookup_app_r by lia. rewrite Nat.sub_diag. done. }
  split; [done|].
  rewrite mask_pat_take, take_app_le in H by done.
  by rewrite mask_pat_take.
Qed.

(** ** Scanning for tokens *)

Lemma token_free_cons c s :
  token_free (c :: s) -> mask_pat false (c :: s) = None /\ token_free s.
Proof. intros H. split; [apply (H 0) | intros i; apply (H (S i))]. Qed.

Lemma token_free_drop n s : token_free s -> token_free (drop n s).
Proof. intros H i. rewrite drop_drop. apply H. Qed.

Lemma token_free_nil : token_free [].
Proof. intros i. by rewrite drop_nil. Qed.

Lemma token_free_cons_intro c s :
  mask_pat false (c :: s) = None -> token_free s -> token_free (c :: s).
Proof. intros H0 H [|i]; [done | apply H]. Qed.

Lemma finditer_mask_nil : finditer mask_pat [] = [].
Proof. done. Qed.

Lemma finditer_mask_hit s w :
  mask_pat false s = Some w ->
  finditer mask_pat s = Hit w :: finditer mask_pat (drop 15 s).
Proof.
  intros H. rewrite !finditer_scan_at, (scan_at_hit _ mask_pat_good _ _ _ H).
  pose proof (mask_pat_Some _ _ _ H) as (_ & Hl & _). rewrite Hl.
  rewrite bool_decide_eq_false_2; [done|]. intros ->. done.
Qed.

Lemma finditer_mask_lit c s :
  mask_pat false (c :: s) = None ->
  finditer mask_pat (c :: s) = Lit c :: finditer mask_pat s.
Proof. intros H. by rewrite !finditer_scan_at, (scan_at_lit _ mask_pat_good). Qed.

(** A token in the subject is found where it stands, whatever surrounds
    it. *)
Lemma finditer_mask_app pre t post :
  is_token t ->
  finditer mask_pat (pre ++ t ++ post)
  = finditer mask_pat pre ++ Hit t :: finditer mask_pat post.
Proof.
  intros Ht. remember (length pre) as n eqn:Hn. revert pre Hn.
  induction (lt_wf n) as [n _ IH]. intros pre ->.
  destruct pre as [|c p].
  - simpl. rewrite (finditer_mask_hit _ t) by (by apply is_token_app).
    by rewrite <- (is_token_length t Ht), drop_app_length.
  - destruct (mask_pat false ((c :: p) ++ t ++ post)) as [w|] eqn:Hm.
    + assert (c :: p <> []) as Hne by done.
      destruct (mask_pat_before_token _ _ _ _ _ Ht Hne Hm) as [Hl Hp].
      rewrite (finditer_mask_hit _ _ Hm), (finditer_mask_hit _ _ Hp).
      rewrite drop_app_le by done.
      rewrite (IH (length (drop 15 (c :: p)))); [done | | done].
      rewrite length_drop. simpl in *. lia.
    + assert (mask_pat false (c :: p) = None) as Hp.
      { destruct (mask_pat false (c :: p)) eqn:E; [|done].
        by rewrite (mask_pat_app _ _ _ _ E) in Hm. }
      simpl in Hm. simpl. rewrite (finditer_mask_lit _ _ Hm), (finditer_mask_lit _ _ Hp).
      simpl. f_equal. by apply (IH (length p)); [simpl; lia|].
Qed.

Lemma finditer_mask_token_free s :
  token_free s -> finditer mask_pat s = map Lit s.
Proof.
  induction s as [|c s IH]; [done|]. intros [H0 H]%token_free_cons.
  rewrite (finditer_mask_lit _ _ H0). simpl. f_equal. by apply IH.
Qed.

(** Every text is free of tokens, or splits at its first token. *)
Lemma first_token s :
  token_free s \/
  exists a t b, s = a ++ t ++ b /\ token_free a /\ is_token t.
Proof.
  induction s as [|c s IH]; [left; apply token_free_nil|].
  destruct (mask_pat false (c :: s)) as [w|] eqn:Hm.
  - right. exists [], w, (drop 15 (c :: s)). split_and!.
    + by apply mask_pat_split in Hm.
    + apply token_free_nil.
    + by eapply mask_pat_is_token.
  - destruct IH as [Hf | (a & t & b & -> & Hf & Ht)].
    + left. by apply token_free_cons_intro.
    + right. exists (c :: a), t, b. split_and!; [done | | done].
      apply token_free_cons_intro; [|done].
      destruct (mask_pat false (c :: a)) eqn:E; [|done].
      pose proof (mask_pat_app _ _ (t ++ b) _ E) as E'. simpl in E'. congruence.
Qed.

(** ** The segment functions *)

Lemma sub_segs_app f l1 l2 : sub_segs f (l1 ++ l2) = sub_segs f l1 ++ sub_segs f l2.
Proof. unfold sub_segs. by rewrite !flat_map_concat_map, map_app, concat_app. Qed.

Lemma sub_segs_lits f s : sub_segs f (map Lit s) = s.
Proof. induction s as [|c s IH]; [done|]. simpl. by rewrite IH. Qed.

Lemma findall_segs_app l1 l2 :
  findall_segs (l1 ++ l2) = findall_segs l1 ++ findall_segs l2.
Proof.
  induction l1 as [|[c|w] l1 IH]; simpl; [done | done | by rewrite IH].
Qed.

Lemma findall_segs_lits s : findall_segs (map Lit s) = [].
Proof. by induction s. Qed.

Lemma split_segs_cons l :
  exists p ps, split_segs l = p :: ps /\ length ps = length (findall_segs l).
Proof.
  induction l as [|[c|w] l (p & ps & Hs & Hl)]; simpl.
  - by exists [], [].
  - rewrite Hs. by exists (c :: p), ps.
  - rewrite Hs. exists [], (p :: ps). simpl. by rewrite Hl.
Qed.

Lemma split_segs_app l1 w l2 :
  split_segs (l1 ++ Hit w :: l2) = split_segs l1 ++ split_segs l2.
Proof.
  induction l1 as [|[c|w'] l1 IH]; simpl; [done | | by rewrite IH].
  rewrite IH. by destruct (split_segs_cons l1) as (p & ps & -> & _).
Qed.

Lemma split_segs_lits s : split_segs (map Lit s) = [s].
Proof. induction s as [|c s IH]; [done|]. simpl. by rewrite IH. Qed.

Lemma foldl_join a (l : list (text * text)) :
  foldl (fun out mp => out ++ fst mp ++ snd mp) a l
  = a ++ flat_map (fun mp => fst mp ++ snd mp) l.
Proof.
  revert a. induction l as [|[m p] l IH]; intros a; simpl.
  - by rewrite app_nil_r.
  - rewrite IH. by rewrite <- !app_assoc.
Qed.

Lemma join_parts_lits f s : join_parts f (map Lit s) = f s.
Proof.
  unfold join_parts. rewrite split_segs_lits, findall_segs_lits. done.
Qed.

Lemma join_parts_app f l1 w l2 :
  join_parts f (l1 ++ Hit w :: l2) = join_parts f l1 ++ w ++ join_parts f l2.
Proof.
  unfold join_parts.
  rewrite split_segs_app, findall_segs_app, !foldl_join. simpl.
  destruct (split_segs_cons l1) as (p1 & ps1 & -> & Hl1).
  destruct (split_segs_cons l2) as (p2 & ps2 & -> & Hl2).
  simpl. rewrite map_app. simpl.
  rewrite zip_with_app by (by rewrite length_map).
  rewrite flat_map_app. simpl. by rewrite <- !app_assoc.
Qed.

Lemma _enc_unfold self t :
  mapping self <> ∅ ->
  _enc self t = join_parts (enc_part self) (finditer mask_pat t).
Proof. intros H. unfold _enc. by rewrite bool_decide_eq_false_2. Qed.

(** ** [_dec] and [_enc] around a token *)

Lemma _dec_app_token self pre t post :
  is_token t ->
  _dec self (pre ++ t ++ post)
  = _dec self pre ++ default t (reverse self !! t) ++ _dec self post.
Proof.
  intros Ht. unfold _dec, re_sub.
  by rewrite finditer_mask_app, sub_segs_app.
Qed.

Lemma _dec_token_free self s : token_free s -> _dec self s = s.
Proof.
  intros H. unfold _dec, re_sub.
  by rewrite finditer_mask_token_free, sub_segs_lits.
Qed.

Lemma _dec_cons self c s :
  mask_pat false (c :: s) = None -> _dec self (c :: s) = c :: _dec self s.
Proof. intros H. unfold _dec, re_sub. by rewrite finditer_mask_lit. Qed.

Lemma _enc_app_token self pre t post :
  is_token t ->
  _enc self (pre ++ t ++ post) = _enc self pre ++ t ++ _enc self post.
Proof.
  intros Ht. destruct (decide (mapping self = ∅)) as [He|Hne].
  - unfold _enc. by rewrite !bool_decide_eq_true_2.
  - rewrite !_enc_unfold by done.
    by rewrite finditer_mask_app, join_parts_app.
Qed.

Lemma _enc_token_free self s :
  mapping self <> ∅ -> token_free s -> _enc self s = enc_part self s.
Proof.
  intros Hne Hf. rewrite _enc_unfold by done.
  by rewrite finditer_mask_token_free, join_parts_lits.
Qed.

Lemma re_findall_mask_app pre t post :
  is_token t ->
  re_findall mask_pat (pre ++ t ++ post)
  = re_findall mask_pat pre ++ t :: re_findall mask_pat post.
Proof.
  intros Ht. unfold re_findall. by rewrite finditer_mask_app, findall_segs_app.
Qed.

(** Induction on a text by its tokens. *)
Lemma token_ind (P : text -> Prop) :
  (forall s, token_free s -> P s) ->
  (forall a t b, token_free a -> is_token t -> P b -> P (a ++ t ++ b)) ->
  forall s, P s.
Proof.
  intros Hfree Hstep s. remember (length s) as n eqn:Hn. revert s Hn.
  induction (lt_wf n) as [n _ IH]. intros s ->.
  destruct (first_token s) as [Hf | (a & t & b & -> & Hf & Ht)]; [by apply Hfree|].
  apply Hstep; [done | done |]. apply (IH (length b)); [|done].
  rewrite !length_app, (is_token_length t Ht). lia.
Qed.

(** Tokens that [reverse] does not know are left as they are. *)
Lemma _dec_unknown self s :
  (forall t, t ∈ re_findall mask_pat s -> reverse self !! t = None) ->
  _dec self s = s.
Proof.
  induction s as [s Hf | a t b Hf Ht IH] using token_ind; intros Hun.
  - by apply _dec_token_free.
  - rewrite _dec_app_token, (_dec_token_free _ a) by done.
    rewrite re_findall_mask_app in Hun by done.
    rewrite (Hun t), IH; [done | | ].
    + intros t' Ht'. apply Hun. set_solver.
    + set_solver.
Qed.

(** ** The word pattern *)

Lemma elem_of_insert_by_len (x y : text) l : x ∈ insert_by_len y l <-> x = y \/ x ∈ l.
Proof.
  induction l as [|z l IH]; simpl; [by rewrite list_elem_of_singleton, elem_of_nil; tauto|].
  destruct (length y <? length z); rewrite !elem_of_cons, ?IH; tauto.
Qed.

Lemma elem_of_sorted_by_len_desc (x : text) l : x ∈ sorted_by_len_desc l <-> x ∈ l.
Proof.
  induction l as [|y l IH]; simpl; [done|].
  rewrite elem_of_insert_by_len, IH, elem_of_cons. tauto.
Qed.

Lemma elem_of_keys (w : text) (d : gmap text text) : w ∈ keys d <-> is_Some (d !! w).
Proof.
  unfold keys. rewrite list_elem_of_fmap. split.
  - intros ([k v] & -> & H%elem_of_map_to_list). by exists v.
  - intros [v H]. exists (w, v). split; [done|]. by apply elem_of_map_to_list.
Qed.

Lemma word_pat_Some ws b s w :
  word_pat ws b s = Some w ->
  w ∈ ws /\ s = w ++ drop (length w) s /\ (b = true -> w <> []).
Proof.
  unfold word_pat. intros H. apply find_some in H as [Hin Hc].
  apply andb_prop in Hc as [Hp Hb]. unfold is_prefix in Hp.
  apply bool_decide_eq_true_1 in Hp. split_and!.
  - by apply list_elem_of_In.
  - rewrite <- Hp at 1. by rewrite take_drop.
  - intros -> ->. done.
Qed.

Lemma word_pat_good ws : good_matcher (word_pat ws).
Proof.
  split.
  - intros b s w (_ & Hs & _)%word_pat_Some.
    rewrite Hs, length_app. lia.
  - intros s w (_ & _ & H)%word_pat_Some. by apply H.
Qed.

(** ** Unmasking a masked part *)

Section MaskedPart.
Variable self : Scrubber.
Hypothesis Hcons : consistent self.

Local Abbreviation ws := (enc_words self).
Local Abbreviation repl := (enc_repl self).
Local Abbreviation out := (enc_out self).

Lemma enc_part_out s : enc_part self s = out false s.
Proof. done. Qed.

(** A matched word is replaced by its mask. *)
Lemma hit_replaced b s w :
  word_pat ws b s = Some w ->
  is_token (repl w) /\ reverse self !! repl w = Some w.
Proof using Hcons.
  intros (Hin & _)%word_pat_Some.
  apply elem_of_sorted_by_len_desc, elem_of_keys in Hin as [m Hm].
  unfold repl. rewrite Hm. simpl. by apply Hcons.
Qed.

Lemma out_hit b s w :
  word_pat ws b s = Some w ->
  out b s = repl w ++ out (bool_decide (w = [])) (drop (length w) s).
Proof.
  intros H. unfold out. by rewrite (scan_at_hit _ (word_pat_good ws) _ _ _ H).
Qed.

Lemma out_lit b c s :
  word_pat ws b (c :: s) = None -> out b (c :: s) = c :: out false s.
Proof.
  intros H. unfold out. by rewrite (scan_at_lit _ (word_pat_good ws) _ _ _ H).
Qed.

Lemma out_nil b : word_pat ws b [] = None -> out b [] = [].
Proof. intros H. unfold out. by rewrite (scan_at_nil _ _ H). Qed.

(** As long as the output shows no ['['], it is the input unchanged:
    every replacement is a mask, and a mask begins with ['[']. *)
Lemma out_prefix k b s :
  (forall i, i < k -> exists x, out b s !! i = Some x /\ x <> 91%N) ->
  take k (out b s) = take k s.
Proof using Hcons.
  revert b s. induction k as [|k IH]; intros b s Hk; [done|].
  destruct (word_pat ws b s) as [w|] eqn:Hm.
  - exfalso. destruct (Hk 0 ltac:(lia)) as (x & Hx & Hne).
    rewrite (out_hit _ _ _ Hm) in Hx.
    destruct (hit_replaced _ _ _ Hm) as [[r Hr]%is_token_head _].
    rewrite Hr in Hx. simpl in Hx. congruence.
  - destruct s as [|c s].
    + destruct (Hk 0 ltac:(lia)) as (x & Hx & _).
      by rewrite (out_nil _ Hm) in Hx.
    + rewrite (out_lit _ _ _ Hm). simpl. f_equal. apply IH.
      intros i Hi. destruct (Hk (S i) ltac:(lia)) as (x & Hx & Hne).
      rewrite (out_lit _ _ _ Hm) in Hx. eauto.
Qed.

(** No token appears in the output where the input had a character that
    was left in place. *)
Lemma out_lit_no_token c s :
  token_free (c :: s) -> mask_pat false (c :: out false s) = None.
Proof using Hcons.
  intros [H0 _]%token_free_cons.
  destruct (mask_pat false (c :: out false s)) as [w|] eqn:Hm; [|done].
  exfalso. pose proof (mask_pat_Some _ _ _ Hm) as (_ & _ & Hlen).
  assert (take 14 (out false s) = take 14 s) as Hpre.
  { apply out_prefix. intros i Hi.
    destruct (lookup_lt_is_Some_2 (out false s) i) as [x Hx];
      [simpl in Hlen; lia|].
    exists x. split; [done|]. intros ->.
    by apply (mask_pat_inner _ _ _ (S i) Hm); [lia|]. }
  rewrite mask_pat_take in Hm. rewrite mask_pat_take in H0.
  simpl in Hm, H0. rewrite Hpre in Hm. congruence.
Qed.

Lemma _dec_out b s : token_free s -> _dec self (out b s) = s.
Proof using Hcons.
  revert b s. apply (scan_ind (fun b s => token_free s -> _dec self (out b s) = s)).
  intros b s IH Hf.
  destruct (word_pat ws b s) as [w|] eqn:Hm.
  - rewrite (out_hit _ _ _ Hm).
    destruct (hit_replaced _ _ _ Hm) as [Ht Hr].
    pose proof (word_pat_Some _ _ _ _ Hm) as (_ & Hs & Hadv).
    pose proof (_dec_app_token self [] (repl w)
      (out (bool_decide (w = [])) (drop (length w) s)) Ht) as Hd.
    simpl in Hd. rewrite Hd, Hr. simpl.
    rewrite IH; [by rewrite <- Hs | | by apply token_free_drop].
    pose proof (proj1 (word_pat_good ws) _ _ _ Hm) as Hlen.
    clear Hs Hd. unfold weight. rewrite length_drop.
    case_bool_decide as Hnil.
    + subst w. simpl. destruct b; [by destruct Hadv | lia].
    + destruct w; [done|]. simpl in *. destruct b; lia.
  - destruct s as [|c s]; [by rewrite (out_nil _ Hm)|].
    rewrite (out_lit _ _ _ Hm).
    rewrite _dec_cons by (by apply out_lit_no_token).
    f_equal. apply IH; [unfold weight; simpl; destruct b; lia|].
    by apply token_free_cons in Hf as [_ ?].
Qed.

Lemma _dec_enc_part s : token_free s -> _dec self (enc_part self s) = s.
Proof using Hcons. apply _dec_out. Qed.

(** The round trip, for dictionaries that agree and a text whose own
    tokens are unknown to [reverse]. *)
Lemma _dec_enc_consistent t :
  (forall m, m ∈ re_findall mask_pat t -> reverse self !! m = None) ->
  _dec self (_enc self t) = t.
Proof using Hcons.
  destruct (decide (mapping self = ∅)) as [He|Hne].
  { intros H. unfold _enc. rewrite bool_decide_eq_true_2 by done.
    by apply _dec_unknown. }
  induction t as [s Hf | a m b Hf Hm IH] using token_ind; intros Hun.
  - rewrite _enc_token_free by done. by apply _dec_enc_part.
  - rewrite re_findall_mask_app in Hun by done.
    rewrite _enc_app_token, _dec_app_token by done.
    rewrite (_enc_token_free _ a), _dec_enc_part by done.
    rewrite (Hun m), IH; [done | | ].
    + intros m' Hm'. apply Hun. rewrite elem_of_app, elem_of_cons. tauto.
    + rewrite elem_of_app, elem_of_cons. tauto.
Qed.
End MaskedPart.

(** ** [build] *)

Lemma build_cons uuid4 w words st :
  build uuid4 (w :: words) st = build uuid4 words (build_step uuid4 st w).
Proof. done. Qed.

Lemma build_step_keys uuid4 st w (k : text) :
  is_Some (mapping st.1 !! k) ->
  is_Some (mapping (build_step uuid4 st w).1 !! k).
Proof.
  intros Hk. unfold build_step.
  destruct (_ && _); [|done]. simpl.
  destruct (decide (strip w = k)) as [->|Hne].
  - rewrite lookup_insert_eq. eauto.
  - by rewrite lookup_insert_ne.
Qed.

Lemma build_keys uuid4 words st (k : text) :
  is_Some (mapping st.1 !! k) ->
  is_Some (mapping (build uuid4 words st).1 !! k).
Proof.
  revert st. induction words as [|w words IH]; intros st Hk; [done|].
  rewrite build_cons. by apply IH, build_step_keys.
Qed.

Lemma build_step_has uuid4 st w :
  strip w <> [] -> is_Some (mapping (build_step uuid4 st w).1 !! strip w).
Proof.
  intros Hne. unfold build_step.
  rewrite (bool_decide_eq_true_2 _ Hne). simpl.
  case_bool_decide as Hnone; simpl.
  - rewrite lookup_insert_eq. eauto.
  - by apply not_eq_None_Some.
Qed.

(** After [build], every word of the list that is not blank is a key. *)
Lemma build_covers uuid4 words st w :
  w ∈ words -> strip w <> [] ->
  is_Some (mapping (build uuid4 words st).1 !! strip w).
Proof.
  revert st. induction words as [|w' words IH]; intros st Hin Hne.
  - by apply elem_of_nil in Hin.
  - rewrite build_cons. apply elem_of_cons in Hin as [->|Hin].
    + by apply build_keys, build_step_has.
    + by apply IH.
Qed.

(** [build] changes nothing, and draws no UUID, when every word is blank or
    already a key. *)
Lemma build_noop uuid4 words st :
  (forall w, w ∈ words -> strip w = [] \/ is_Some (mapping st.1 !! strip w)) ->
  build uuid4 words st = st.
Proof.
  induction words as [|w words IH]; intros H; [done|].
  rewrite build_cons.
  assert (build_step uuid4 st w = st) as ->.
  { unfold build_step. destruct (H w) as [He|Hs]; [apply elem_of_cons; by left| |].
    - rewrite (bool_decide_eq_false_2 (strip w <> [])); [done|]. by intros ?.
    - rewrite (bool_decide_eq_false_2 (mapping st.1 !! strip w = None));
        [by rewrite andb_false_r|]. by apply not_eq_None_Some. }
  apply IH. intros w' Hin. apply H, elem_of_cons. by right.
Qed.

(** *** Generated masks are tokens *)

Lemma hex_digit_upper d :
  (d < 16)%N -> is_hex_upper (upper (hex_digit d)) = true.
Proof.
  intros Hd.
  assert (d ∈ N.of_nat <$> seq 0 16) as Hin.
  { apply list_elem_of_fmap. exists (N.to_nat d). split; [lia|].
    apply list_elem_of_In, in_seq. lia. }
  clear Hd. revert d Hin. apply Forall_forall. simpl. repeat constructor.
Qed.

Lemma match_classes_app cs1 cs2 s1 s2 :
  length cs1 = length s1 ->
  match_classes (cs1 ++ cs2) (s1 ++ s2)
  = match_classes cs1 s1 && match_classes cs2 s2.
Proof.
  revert s1. induction cs1 as [|c cs1 IH]; intros [|x s1]; simpl; try done.
  intros [= Hl]. by rewrite IH, andb_assoc.
Qed.

Lemma match_classes_replicate (c : char_class) n s :
  length s = n -> forallb c s = true -> match_classes (replicate n c) s = true.
Proof.
  revert n. induction s as [|x s IH]; intros [|n]; simpl; try done.
  intros [= Hl] [Hx Hs]%andb_prop. by rewrite Hx, IH.
Qed.

Lemma new_mask_is_token u : is_token (new_mask u).
Proof.
  unfold is_token, mask_pat.
  assert (length (new_mask u) = 15) as Hlen by done.
  assert (match_classes MASK_CLASSES (new_mask u) = true) as ->.
  { unfold MASK_CLASSES, new_mask.
    rewrite match_classes_app by done.
    rewrite match_classes_app by done.
    apply andb_true_intro. split; [done|].
    apply andb_true_intro. split; [|done].
    apply match_classes_replicate; [done|].
    apply forallb_forall. intros x Hx.
    apply in_map_iff in Hx as (y & <- & Hy).
    apply list_elem_of_In, elem_of_take in Hy as (i & Hy & _).
    unfold uuid_hex in Hy. apply list_lookup_fmap_Some in Hy as (j & -> & _).
    apply hex_digit_upper. by apply N.mod_lt. }
  rewrite mask_classes_length. by rewrite <- Hlen at 1; rewrite firstn_all.
Qed.

(** *** [build] keeps the two dictionaries in agreement *)

Lemma build_step_counter uuid4 st w : st.2 <= (build_step uuid4 st w).2.
Proof. unfold build_step. destruct (_ && _); simpl; lia. Qed.

Lemma build_counter uuid4 words st : st.2 <= (build uuid4 words st).2.
Proof.
  revert st. induction words as [|w words IH]; intros st; [done|].
  rewrite build_cons. pose proof (build_step_counter uuid4 st w).
  pose proof (IH (build_step uuid4 st w)). lia.
Qed.

Lemma build_step_inv uuid4 n0 st w :
  n0 <= st.2 ->
  distinct_draws uuid4 n0 (build_step uuid4 st w).2 ->
  consistent st.1 /\ drawn uuid4 n0 st ->
  consistent (build_step uuid4 st w).1 /\ drawn uuid4 n0 (build_step uuid4 st w).
Proof.
  intros Hn0 Hd [Hc Hr]. unfold build_step in *.
  destruct (_ && _); [|done]. simpl in *.
  set (m := new_mask (uuid4 st.2)) in *.
  assert (reverse st.1 !! m = None) as Hfresh.
  { destruct (reverse st.1 !! m) eqn:E; [|done]. exfalso.
    destruct (Hr m) as (i & [Hi1 Hi2] & Hi); [by eauto|].
    apply (Hd i st.2); auto with lia. }
  split.
  - intros w' m'. simpl. destruct (decide (strip w = w')) as [->|Hne].
    + rewrite lookup_insert_eq. intros [= <-]. split; [apply new_mask_is_token|].
      by rewrite lookup_insert_eq.
    + rewrite lookup_insert_ne by done. intros [Ht Hrev]%Hc. split; [done|].
      rewrite lookup_insert_ne; [done|]. intros <-. congruence.
  - intros m'. simpl. destruct (decide (m = m')) as [<-|Hne].
    + intros _. exists st.2. split; [lia | done].
    + rewrite lookup_insert_ne by done. intros (i & Hi & ->)%Hr.
      exists i. split; [lia | done].
Qed.

Lemma build_inv uuid4 n0 words st :
  n0 <= st.2 ->
  distinct_draws uuid4 n0 (build uuid4 words st).2 ->
  consistent st.1 /\ drawn uuid4 n0 st ->
  consistent (build uuid4 words st).1 /\ drawn uuid4 n0 (build uuid4 words st).
Proof.
  revert st. induction words as [|w words IH]; intros st Hn0 Hd Hinv; [done|].
  rewrite build_cons in *.
  pose proof (build_step_counter uuid4 st w) as Hc1.
  pose proof (build_counter uuid4 words (build_step uuid4 st w)) as Hc2.
  apply IH; [lia | done |].
  apply build_step_inv; [done | | done].
  intros i j Hi Hij Hj. apply Hd; lia.
Qed.

Lemma init_inv uuid4 n0 :
  consistent Scrubber_init /\ drawn uuid4 n0 (Scrubber_init, n0).
Proof.
  split.
  - intros w m. unfold Scrubber_init. simpl. by rewrite lookup_empty.
  - intros m. unfold Scrubber_init. simpl. rewrite lookup_empty. by intros [? ?].
Qed.

(** ** Longest match *)

Lemma insert_by_len_sorted x l :
  StronglySorted (fun a b : text => length b <= length a) l ->
  StronglySorted (fun a b : text => length b <= length a) (insert_by_len x l).
Proof.
  induction 1 as [|y l Hs IH Hall]; simpl; [by repeat constructor|].
  destruct (length x <? length y) eqn:E.
  - apply Nat.ltb_lt in E. constructor; [done|].
    apply Forall_forall. intros z [->|Hz]%elem_of_insert_by_len; [lia|].
    rewrite Forall_forall in Hall. by apply Hall.
  - apply Nat.ltb_ge in E. constructor; [by constructor|].
    constructor; [done|]. eapply Forall_impl; [done|]. simpl. lia.
Qed.

Lemma sorted_by_len_desc_sorted l :
  StronglySorted (fun a b : text => length b <= length a) (sorted_by_len_desc l).
Proof.
  induction l as [|x l IH]; simpl; [constructor | by apply insert_by_len_sorted].
Qed.

(** With the alternatives ordered longest first, the alternation matches the
    longest alternative that matches at the position. *)
Lemma word_pat_longest ws b s w w' :
  StronglySorted (fun a b : text => length b <= length a) ws ->
  word_pat ws b s = Some w ->
  w' ∈ ws -> is_prefix w' s = true -> (b = true -> w' <> []) ->
  length w' <= length w.
Proof.
  intros Hs. revert w. induction Hs as [|x ws Hs IH Hall]; intros w Hm Hin Hp Hb.
  - by apply elem_of_nil in Hin.
  - unfold word_pat in *. simpl in Hm.
    destruct (is_prefix x s && _) eqn:Hx.
    + injection Hm as <-. apply elem_of_cons in Hin as [->|Hin]; [done|].
      rewrite Forall_forall in Hall. by apply Hall.
    + apply elem_of_cons in Hin as [->|Hin]; [|by apply IH].
      rewrite Hp in Hx. simpl in Hx.
      destruct b; simpl in Hx; [|done].
      apply negb_false_iff, bool_decide_eq_true_1 in Hx. by destruct Hb.
Qed.

Lemma word_pat_is_Some ws b s w' :
  w' ∈ ws -> is_prefix w' s = true -> (b = true -> w' <> []) ->
  is_Some (word_pat ws b s).
Proof.
  intros Hin Hp Hb. unfold word_pat.
  destruct (find _ ws) eqn:E; [by eauto|]. exfalso.
  eapply find_none in E; [|by apply list_elem_of_In].
  simpl in E. rewrite Hp in E. simpl in E.
  destruct b; simpl in E; [|done].
  apply negb_false_iff, bool_decide_eq_true_1 in E. by destruct Hb.
Qed.


(** *** The order among words of one length does not matter

    A dict iterates in insertion order, which the finite map does not
    record, and the stable sort keeps that order among words of equal
    length.  Two different words of one length cannot both match at a
    position, so every such order gives the same substitution. *)

Lemma word_pat_Some_prefix ws b s w :
  word_pat ws b s = Some w -> is_prefix w s = true.
Proof.
  intros (_ & Hs & _)%word_pat_Some. unfold is_prefix.
  apply bool_decide_eq_true_2. rewrite Hs at 1. by rewrite take_app_length.
Qed.

Lemma word_pat_order_irrelevant ws1 ws2 b s :
  StronglySorted (fun a b : text => length b <= length a) ws1 ->
  StronglySorted (fun a b : text => length b <= length a) ws2 ->
  (forall w, w ∈ ws1 <-> w ∈ ws2) ->
  word_pat ws1 b s = word_pat ws2 b s.
Proof.
  intros Hs1 Hs2 Heq.
  assert (forall wsa wsb w,
    StronglySorted (fun a b : text => length b <= length a) wsb ->
    (forall w, w ∈ wsa <-> w ∈ wsb) ->
    word_pat wsa b s = Some w ->
    exists w', word_pat wsb b s = Some w' /\ length w <= length w') as Hstep.
  { intros wsa wsb w Hsb Hab Hw.
    pose proof (word_pat_Some_prefix _ _ _ _ Hw) as Hp.
    pose proof (word_pat_Some _ _ _ _ Hw) as (Hin & _ & Hb).
    destruct (word_pat_is_Some wsb b s w) as [w' Hw']; [by apply Hab | done | done |].
    exists w'. split; [done|]. eapply word_pat_longest; eauto. by apply Hab. }
  destruct (word_pat ws1 b s) as [w1|] eqn:E1.
  - destruct (Hstep ws1 ws2 w1 Hs2 Heq E1) as (w2 & E2 & Hle).
    destruct (Hstep ws2 ws1 w2 Hs1 ltac:(by intros w; rewrite Heq) E2)
      as (w1' & E1' & Hle').
    rewrite E1 in E1'. injection E1' as <-. rewrite E2. f_equal.
    apply word_pat_Some_prefix in E1, E2. unfold is_prefix in *.
    apply bool_decide_eq_true_1 in E1, E2.
    rewrite <- E1, <- E2. f_equal. lia.
  - destruct (word_pat ws2 b s) as [w2|] eqn:E2; [|done].
    destruct (Hstep ws2 ws1 w2 Hs1 ltac:(by intros w; rewrite Heq) E2)
      as (w1' & E1' & _). congruence.
Qed.

Lemma scan_ext (m1 m2 : matcher) :
  (forall b s, m1 b s = m2 b s) ->
  forall n b s, scan m1 n b s = scan m2 n b s.
Proof.
  intros Hm n. induction n as [|n IH]; intros b s; [done|].
  simpl. rewrite Hm. destruct (m2 b s); [by rewrite IH|].
  destruct s; [done|]. by rewrite IH.
Qed.

(** [enc_part] is the substitution with the keys taken in any order. *)
Lemma enc_part_key_order self (ks : list text) s :
  (forall w, w ∈ ks <-> is_Some (mapping self !! w)) ->
  re_sub (word_pat (sorted_by_len_desc ks)) (enc_repl self) s
  = enc_part self s.
Proof.
  intros Hks. unfold enc_part, enc_words, re_sub, finditer. f_equal.
  apply scan_ext. intros b s'.
  apply word_pat_order_irrelevant; try apply sorted_by_len_desc_sorted.
  intros w. by rewrite !elem_of_sorted_by_len_desc, Hks, elem_of_keys.
Qed.

(** ** Parsed objects and [dict.update] *)

Lemma obj_lookup_Some k ms v : obj_lookup k ms = Some v -> (k, v) ∈ ms.
Proof.
  unfold obj_lookup. destruct (find _ _) as [[k' v']|] eqn:E; [|done].
  intros [= <-]. apply find_some in E as [Hin Hk].
  apply bool_decide_eq_true_1 in Hk. simpl in Hk. subst.
  by apply in_rev, list_elem_of_In in Hin.
Qed.

Lemma obj_lookup_None k ms : k ∉ ms.*1 -> obj_lookup k ms = None.
Proof.
  intros Hn. destruct (obj_lookup k ms) as [v|] eqn:E; [|done].
  apply obj_lookup_Some in E. destruct Hn.
  apply list_elem_of_fmap. by exists (k, v).
Qed.

Lemma obj_lookup_is_Some k ms : k ∈ ms.*1 -> is_Some (obj_lookup k ms).
Proof.
  intros ([k' v] & -> & Hin)%list_elem_of_fmap. unfold obj_lookup.
  destruct (find _ _) eqn:E; [by eauto|]. exfalso.
  eapply find_none in E; [|apply in_rev; rewrite rev_involutive;
                           by apply list_elem_of_In].
  simpl in E. by rewrite bool_decide_eq_true_2 in E.
Qed.

Lemma NoDup_fst_unique {A B} (l : list (A * B)) k v v' :
  NoDup l.*1 -> (k, v) ∈ l -> (k, v') ∈ l -> v = v'.
Proof.
  induction l as [|[k0 v0] l IH]; simpl; intros Hnd H1 H2.
  - by apply elem_of_nil in H1.
  - apply NoDup_cons in Hnd as [Hn Hnd].
    apply elem_of_cons in H1 as [E1|H1];
      apply elem_of_cons in H2 as [E2|H2]; simplify_eq; try done.
    + destruct Hn. apply list_elem_of_fmap. by exists (k0, v').
    + destruct Hn. apply list_elem_of_fmap. by exists (k0, v).
    + by apply IH.
Qed.

Lemma obj_lookup_NoDup k v ms :
  NoDup ms.*1 -> (k, v) ∈ ms -> obj_lookup k ms = Some v.
Proof.
  intros Hnd Hin.
  destruct (obj_lookup_is_Some k ms) as [v' Hv'].
  { apply list_elem_of_fmap. by exists (k, v). }
  rewrite Hv'. f_equal. apply obj_lookup_Some in Hv'.
  by eapply NoDup_fst_unique.
Qed.

Lemma elem_of_obj_keys k ms seen :
  k ∈ obj_keys ms seen <-> k ∈ ms.*1 /\ k ∉ seen.
Proof.
  revert seen. induction ms as [|[k' v] ms IH]; intros seen; simpl.
  - rewrite elem_of_nil. tauto.
  - case_bool_decide as Hs.
    + rewrite IH, elem_of_cons. split; [tauto|].
      intros [[->|?] ?]; tauto.
    + rewrite !elem_of_cons, IH, elem_of_cons.
      destruct (decide (k = k')) as [->|?]; tauto.
Qed.

Lemma NoDup_obj_keys ms seen : NoDup (obj_keys ms seen).
Proof.
  revert seen. induction ms as [|[k v] ms IH]; intros seen; simpl; [constructor|].
  case_bool_decide; [done|]. constructor; [|done].
  rewrite elem_of_obj_keys, elem_of_cons. tauto.
Qed.

(** Updating with the items of keys [ks], when all of them hold strings. *)
Lemma update_items_keys d ms ks :
  NoDup ks ->
  (forall k, k ∈ ks -> is_Some (str_entry k ms)) ->
  exists d',
    update_items d (map (fun k => (k, obj_get k ms JNull)) ks) = Updated d'
    /\ forall k, d' !! k = if decide (k ∈ ks) then str_entry k ms else d !! k.
Proof.
  intros Hnd. revert d. induction Hnd as [|k0 ks Hnotin Hnd IH]; intros d Hstr.
  - exists d. split; [done|]. intros k. by rewrite decide_False by apply not_elem_of_nil.
  - destruct (Hstr k0) as [v Hv]; [by left|].
    assert (obj_get k0 ms JNull = JStr v) as Hget.
    { unfold str_entry in Hv. unfold obj_get.
      destruct (obj_lookup k0 ms) as [[]|]; simplify_eq/=; done. }
    destruct (IH (<[k0 := v]> d)) as (d' & Hd' & Hl).
    { intros k Hk. apply Hstr. by right. }
    exists d'. simpl. rewrite Hget. split; [done|].
    intros k. rewrite Hl.
    destruct (decide (k = k0)) as [->|Hne].
    + rewrite decide_False by done. rewrite (decide_True _ _ (list_elem_of_here _ _)).
      by rewrite lookup_insert_eq.
    + rewrite lookup_insert_ne by done.
      destruct (decide (k ∈ ks)) as [Hin|Hnin].
      * by rewrite decide_True by (by right).
      * rewrite decide_False; [done|]. rewrite elem_of_cons. tauto.
Qed.

Lemma is_str_dict_entry ms k :
  is_str_dict (JObj ms) = true -> k ∈ ms.*1 -> is_Some (str_entry k ms).
Proof.
  simpl. intros Hall Hin. destruct (obj_lookup_is_Some _ _ Hin) as [v Hv].
  unfold str_entry. rewrite Hv.
  apply obj_lookup_Some in Hv. rewrite forallb_forall in Hall.
  specialize (Hall (k, v) ltac:(by apply list_elem_of_In)). simpl in Hall.
  destruct v; done.
Qed.

(** Updating with an object of strings is the union in which the object
    wins. *)
Lemma dict_update_str_dict d ms :
  is_str_dict (JObj ms) = true ->
  exists d',
    dict_update d (JObj ms) = Updated d'
    /\ forall k, d' !! k = match str_entry k ms with
                           | Some v => Some v
                           | None => d !! k
                           end.
Proof.
  intros Hstr. simpl dict_update. unfold obj_items.
  destruct (update_items_keys d ms (obj_keys ms [])) as (d' & Hd' & Hl).
  - apply NoDup_obj_keys.
  - intros k [Hk _]%elem_of_obj_keys. by apply is_str_dict_entry.
  - exists d'. split; [done|]. intros k. rewrite Hl.
    destruct (decide (k ∈ obj_keys ms [])) as [Hin|Hnin].
    + apply elem_of_obj_keys in Hin as [Hin _].
      by destruct (is_str_dict_entry ms k Hstr Hin) as [v ->].
    + unfold str_entry. rewrite obj_lookup_None; [done|].
      intros Hin. apply Hnin, elem_of_obj_keys. split; [done | apply not_elem_of_nil].
Qed.

(** [dict.update] never removes a key. *)
Lemma update_items_keeps d items d' (k : text) :
  update_items d items = Updated d' -> is_Some (d !! k) -> is_Some (d' !! k).
Proof.
  revert d. induction items as [|[k0 v] items IH]; intros d; simpl.
  - by intros [= <-].
  - destruct v; try done. intros H Hk. apply (IH _ H).
    destruct (decide (k0 = k)) as [->|?];
      [rewrite lookup_insert_eq; eauto | by rewrite lookup_insert_ne].
Qed.

Lemma update_pairs_keeps d items d' (k : text) :
  update_pairs d items = Updated d' -> is_Some (d !! k) -> is_Some (d' !! k).
Proof.
  revert d. induction items as [|x items IH]; intros d; simpl.
  - by intros [= <-].
  - destruct (as_pair x) as [k0 v| |]; try done. intros H Hk. apply (IH _ H).
    destruct (decide (k0 = k)) as [->|?];
      [rewrite lookup_insert_eq; eauto | by rewrite lookup_insert_ne].
Qed.

Lemma dict_update_keeps d j d' (k : text) :
  dict_update d j = Updated d' -> is_Some (d !! k) -> is_Some (d' !! k).
Proof.
  destruct j as [| | |s|items|ms]; simpl; try done.
  - destruct s; [by intros [= <-] | done].
  - apply update_pairs_keeps.
  - apply update_items_keeps.
Qed.

(** The members that [save] writes. *)
Lemma str_members_NoDup (d : gmap text text) : NoDup (str_members d).*1.
Proof.
  unfold str_members. rewrite <- list_fmap_compose.
  apply (NoDup_fst_map_to_list d).
Qed.

Lemma str_members_is_str_dict (d : gmap text text) :
  is_str_dict (JObj (str_members d)) = true.
Proof.
  simpl. apply forallb_forall. intros [k v] Hin.
  apply list_elem_of_In, list_elem_of_fmap in Hin as ([k' v'] & [= -> ->] & _). done.
Qed.

Lemma str_entry_str_members (d : gmap text text) k :
  str_entry k (str_members d) = d !! k.
Proof.
  unfold str_entry. destruct (d !! k) as [v|] eqn:E.
  - rewrite (obj_lookup_NoDup k (JStr v)); [done | apply str_members_NoDup|].
    apply list_elem_of_fmap. exists (k, v). split; [done|].
    by apply elem_of_map_to_list.
  - rewrite obj_lookup_None; [done|].
    unfold str_members. rewrite <- list_fmap_compose.
    intros ([k' v'] & Hk & Hin%elem_of_map_to_list)%list_elem_of_fmap.
    simpl in Hk. subst. congruence.
Qed.

(** ** [load] *)

Lemma json_load_FJson E path fs j :
  fs !! path = Some (FJson j) -> json_load E path fs = Ok j.
Proof. intros H. unfold json_load. by rewrite H. Qed.

(** A snapshot whose [mapping] and [reverse] members are objects of strings
    (or are absent) loads, and the result is the union in which the
    snapshot wins. *)
Lemma load_str_dicts E path self fs d :
  fs !! path = Some (FJson (JObj d)) ->
  is_str_dict (obj_get (lit "mapping") d (JObj [])) = true ->
  is_str_dict (obj_get (lit "reverse") d
                 (obj_get (lit "reverse_mapping") d (JObj []))) = true ->
  exists self',
    load E path self fs = Loaded self'
    /\ (forall k, mapping self' !! k
                  = match str_entry k (snapshot_mapping d) with
                    | Some v => Some v
                    | None => mapping self !! k
                    end)
    /\ (forall k, reverse self' !! k
                  = match str_entry k (snapshot_reverse d) with
                    | Some v => Some v
                    | None => reverse self !! k
                    end)
    /\ json_paths self' = json_paths self.
Proof.
  intros Hfs Hm Hr. unfold load. rewrite (json_load_FJson _ _ _ _ Hfs).
  unfold snapshot_mapping, snapshot_reverse.
  destruct (obj_get (lit "mapping") d (JObj [])) as [| | | | |mm]; try done.
  destruct (obj_get (lit "reverse") d _) as [| | | | |rm]; try done.
  destruct (dict_update_str_dict (mapping self) mm Hm) as (m' & -> & Hlm).
  simpl reverse.
  destruct (dict_update_str_dict (reverse self) rm Hr) as (r' & -> & Hlr).
  eexists. split; [done|]. simpl. done.
Qed.

Lemma valid_snapshot_str_dicts d :
  valid_snapshot (JObj d) = true ->
  is_str_dict (obj_get (lit "mapping") d (JObj [])) = true
  /\ is_str_dict (obj_get (lit "reverse") d
                    (obj_get (lit "reverse_mapping") d (JObj []))) = true.
Proof.
  unfold valid_snapshot, obj_get. intros [Hm Hr]%andb_prop.
  destruct (obj_lookup (lit "mapping") d); [|done].
  destruct (obj_lookup (lit "reverse") d); [done|].
  destruct (obj_lookup (lit "reverse_mapping") d); done.
Qed.

(** A successful [load] never removes a key. *)
Lemma load_keeps E path self fs self' :
  load E path self fs = Loaded self' ->
  (forall k, is_Some (mapping self !! k) -> is_Some (mapping self' !! k))
  /\ (forall k, is_Some (reverse self !! k) -> is_Some (reverse self' !! k)).
Proof.
  unfold load. destruct (json_load E path fs) as [j|]; [|done].
  destruct j as [| | | | |d]; try done.
  destruct (dict_update (mapping self) _) as [m| |] eqn:Hm; try done.
  simpl reverse.
  destruct (dict_update (reverse self) _) as [r| |] eqn:Hr; try done.
  intros [= <-]. simpl. split; intros k; by eapply dict_update_keeps.
Qed.

(** ** [process] and the loop of [batch] *)


(** What [process] returns when it succeeds. *)
Lemma process_ok E src mode self fs out mp :
  (process E src mode self fs).1.1 = Ok (out, mp) ->
  out = dst_path E src mode
  /\ mp = if is_enc mode then Some (mapping_path E out) else None.
Proof.
  unfold process. destruct (fs !! src); [|done].
  match goal with |- context [match ?h with Ok _ => _ | Raise _ => _ end] =>
    destruct h end; [|done].
  destruct (is_enc mode); simpl; by intros [= <- <-].
Qed.

Lemma batch_loop_cons E mode cb total i fp rest w results :
  quiet cb ->
  batch_loop E mode cb total i (fp :: rest) w results
  = batch_loop E mode cb total (S i) rest (after_file E mode cb total i fp w)
      (results ++ [entry fp (process E fp mode (scrub w) (fs w)).1.1]).
Proof.
  intros Hq. simpl. unfold after_file, entry, tag_of.
  destruct (process E fp mode (scrub w) (fs w)) as [[[[out mp]|e] self'] fs'];
    simpl; by rewrite Hq.
Qed.

Lemma batch_loop_acc E mode cb total i fps w results :
  quiet cb ->
  batch_loop E mode cb total i fps w results
  = (Ok (results ++ results_of (batch_loop E mode cb total i fps w []).1),
     (batch_loop E mode cb total i fps w []).2).
Proof.
  intros Hq. revert i w results. induction fps as [|fp rest IH]; intros i w results.
  - simpl. by rewrite app_nil_r.
  - rewrite !batch_loop_cons by done. rewrite IH. rewrite (IH _ _ ([] ++ _)).
    simpl. by rewrite <- app_assoc.
Qed.

(** With a callback that never raises, [batch_loop] returns a list. *)
Lemma batch_loop_ok E mode cb total i fps w :
  quiet cb ->
  (batch_loop E mode cb total i fps w []).1
  = Ok (results_of (batch_loop E mode cb total i fps w []).1).
Proof. intros Hq. rewrite batch_loop_acc at 1 by done. done. Qed.


(** One entry per file, in the order of the files. *)
Lemma batch_loop_inputs E mode cb total i fps w :
  quiet cb ->
  map input (results_of (batch_loop E mode cb total i fps w []).1) = fps.
Proof.
  intros Hq. revert i w. induction fps as [|fp rest IH]; intros i w; [done|].
  rewrite batch_loop_cons, batch_loop_acc by done. simpl. rewrite IH. f_equal.
  by destruct (process E fp mode (scrub w) (fs w)) as [[[[out mp]|e] self'] fs'].
Qed.

Lemma entry_well_shaped E mode fp self fs :
  well_shaped E mode (entry fp (process E fp mode self fs).1.1).
Proof.
  destruct (process E fp mode self fs).1.1 as [[out mp]|e] eqn:Hp; simpl; [|done].
  by apply process_ok in Hp.
Qed.

Lemma batch_loop_well_shaped E mode cb total i fps w :
  quiet cb ->
  Forall (well_shaped E mode)
    (results_of (batch_loop E mode cb total i fps w []).1).
Proof.
  intros Hq. revert i w. induction fps as [|fp rest IH]; intros i w; [constructor|].
  rewrite batch_loop_cons, batch_loop_acc by done. simpl. constructor; [|apply IH].
  apply entry_well_shaped.
Qed.

Lemma batch_unfold E uuid4 fps words mode cb w :
  batch E uuid4 fps words mode cb w
  = batch_loop E mode cb (length fps) 0 fps (batch_start uuid4 words mode w) [].
Proof. done. Qed.

Lemma quiet_None : quiet None.
Proof. by intros ev. Qed.

(** In mask mode, when [process] returns, the snapshot of the engine is in
    the files at the path it returns. *)
Lemma process_persists E src mode self fs out mp :
  (process E src mode self fs).1.1 = Ok (out, Some mp) ->
  (process E src mode self fs).2 !! mp = Some (FJson (snapshot self)).
Proof.
  unfold process. destruct (fs !! src); [|done].
  match goal with |- context [match ?h with Ok _ => _ | Raise _ => _ end] =>
    destruct h end; [|done].
  destruct (is_enc mode); simpl; [|done].
  intros [= <- <-]. apply lookup_insert_eq.
Qed.

Lemma handlers_write_dst E src dst fn (fs fs' : files) :
  (_handle_docx E src dst fn fs = Ok fs'
   \/ _handle_pptx E src dst fn fs = Ok fs'
   \/ _handle_xlsx E src dst fn fs = Ok fs'
   \/ _handle_txt E src dst fn fs = Ok fs') ->
  exists f', fs' = <[dst := f']> fs.
Proof.
  unfold _handle_docx, _handle_pptx, _handle_xlsx, _handle_txt, open_with.
  intros [H|[H|[H|H]]]; revert H;
    try (destruct (negb _); [done|]);
    destruct (fs !! src) as [[]|]; simpl; intros [= <-]; eauto.
Qed.

(** The three ways in which [process] ends. *)
Lemma process_inv E src mode self (fs : files) :
  let dst := dst_path E src mode in
  let mp := mapping_path E dst in
  (exists e, process E src mode self fs = (Raise e, self, fs))
  \/ (exists f', is_enc mode = false
        /\ process E src mode self fs = (Ok (dst, None), self, <[dst := f']> fs))
  \/ (exists f', is_enc mode = true
        /\ process E src mode self fs
           = (Ok (dst, Some mp),
              {| mapping := mapping self; reverse := reverse self;
                 json_paths := json_paths self ++ [mp] |},
              <[mp := FJson (snapshot self)]> (<[dst := f']> fs))).
Proof.
  intros dst mp. unfold process. destruct (fs !! src) as [f|]; [|left; eauto].
  fold dst.
  match goal with |- context [match ?h with Ok _ => _ | Raise _ => _ end] =>
    destruct h as [fs'|e] eqn:Hh end; [|left; eauto].
  assert (exists f', fs' = <[dst := f']> fs) as [f' ->].
  { apply (handlers_write_dst E src dst
             (if is_enc mode then _enc self else _dec self)).
    revert Hh.
    case_bool_decide; [by auto|]. case_bool_decide; [by auto|].
    case_bool_decide; [by auto|]. case_bool_decide; [by auto|].
    by case_bool_decide. }
  right. destruct (is_enc mode); [right | left]; eauto.
Qed.

Lemma process_keeps_dicts E src mode self (fs : files) :
  mapping (process E src mode self fs).1.2 = mapping self
  /\ reverse (process E src mode self fs).1.2 = reverse self.
Proof.
  destruct (process_inv E src mode self fs)
    as [[e ->]|[(f' & _ & ->)|(f' & _ & ->)]]; done.
Qed.

Lemma process_json_paths E src mode self (fs : files) :
  json_paths (process E src mode self fs).1.2
  = json_paths self
    ++ omap snapshot_path [entry src (process E src mode self fs).1.1].
Proof.
  destruct (process_inv E src mode self fs)
    as [[e ->]|[(f' & _ & ->)|(f' & _ & ->)]]; simpl; by rewrite ?app_nil_r.
Qed.

(** One iteration of the loop, whatever the callback does: the loop either
    ends with the exception of the callback or goes on with the entry of
    the file, followed by a failure entry when the callback raised on the
    success. *)
Lemma batch_loop_step E mode cb total i fp rest w results :
  let p := process E fp mode (scrub w) (fs w) in
  exists log extra,
    let w1 := {| scrub := p.1.2; fs := p.2; uuid_calls := uuid_calls w;
                 progress := log |} in
    omap snapshot_path extra = []
    /\ ((exists e, batch_loop E mode cb total i (fp :: rest) w results
                   = (Raise e, w1))
        \/ batch_loop E mode cb total i (fp :: rest) w results
           = batch_loop E mode cb total (S i) rest w1
               (results ++ entry fp p.1.1 :: extra)).
Proof.
  simpl.
  destruct (process E fp mode (scrub w) (fs w)) as [[[[out mp]|e] self'] fs'];
    simpl.
  - destruct (call cb (S i, total, basename E fp, Done)) as [e|].
    + destruct (call cb (S i, total, basename E fp, Failed)) as [e'|].
      * eexists _, []. split; [done|]. left. eauto.
      * eexists _, [(fp, None, Some e, None)]. split; [done|]. right.
        by rewrite <- app_assoc.
    + eexists _, []. split; [done|]. by right.
  - destruct (call cb (S i, total, basename E fp, Failed)) as [e'|].
    + eexists _, []. split; [done|]. left. eauto.
    + eexists _, []. split; [done|]. by right.
Qed.

Lemma batch_loop_engine E mode cb total i fps w results :
  mapping (scrub (batch_loop E mode cb total i fps w results).2)
  = mapping (scrub w)
  /\ reverse (scrub (batch_loop E mode cb total i fps w results).2)
     = reverse (scrub w)
  /\ uuid_calls (batch_loop E mode cb total i fps w results).2 = uuid_calls w.
Proof.
  revert i w results. induction fps as [|fp rest IH]; intros i w results; [done|].
  destruct (process_keeps_dicts E fp mode (scrub w) (fs w)) as [Hm Hr].
  destruct (batch_loop_step E mode cb total i fp rest w results)
    as (log & extra & _ & [[e ->] | ->]); [done|].
  destruct (IH (S i) {| scrub := (process E fp mode (scrub w) (fs w)).1.2;
                        fs := (process E fp mode (scrub w) (fs w)).2;
                        uuid_calls := uuid_calls w; progress := log |}
              (results ++ entry fp (process E fp mode (scrub w) (fs w)).1.1
                 :: extra)) as (-> & -> & ->).
  done.
Qed.

(** [process] creates and overwrites files; it removes none, and it only
    appends to [json_paths]. *)
Lemma process_keeps_files E src mode self (fs : files) (p : text) :
  is_Some (fs !! p) -> is_Some ((process E src mode self fs).2 !! p).
Proof.
  intros Hp.
  destruct (process_inv E src mode self fs)
    as [[e ->]|[(f' & _ & ->)|(f' & _ & ->)]]; simpl; unfold files in *.
  - done.
  - destruct (decide (dst_path E src mode = p)) as [->|Hn].
    + rewrite lookup_insert_eq. eauto.
    + by rewrite lookup_insert_ne.
  - destruct (decide (mapping_path E (dst_path E src mode) = p)) as [->|Hm].
    + rewrite lookup_insert_eq. eauto.
    + rewrite lookup_insert_ne by done.
      destruct (decide (dst_path E src mode = p)) as [->|Hn].
      * rewrite lookup_insert_eq. eauto.
      * by rewrite lookup_insert_ne.
Qed.

Lemma process_keeps_paths E src mode self (fs : files) (p : text) :
  p ∈ json_paths self -> p ∈ json_paths (process E src mode self fs).1.2.
Proof.
  intros Hp. rewrite process_json_paths. apply elem_of_app. by left.
Qed.

Lemma snapshot_dicts (a b : Scrubber) :
  mapping a = mapping b -> reverse a = reverse b -> snapshot a = snapshot b.
Proof. unfold snapshot. by intros -> ->. Qed.

Lemma batch_loop_keeps_files E mode cb total i fps w results (p : text) :
  is_Some (fs w !! p) ->
  is_Some (fs (batch_loop E mode cb total i fps w results).2 !! p).
Proof.
  revert i w results. induction fps as [|fp rest IH]; intros i w results Hp;
    [done|].
  pose proof (process_keeps_files E fp mode (scrub w) (fs w) p Hp) as Hp'.
  destruct (batch_loop_step E mode cb total i fp rest w results)
    as (log & extra & _ & [[e ->] | ->]); [done|].
  by apply IH.
Qed.

Lemma batch_loop_keeps_paths E mode cb total i fps w results (p : text) :
  p ∈ json_paths (scrub w) ->
  p ∈ json_paths (scrub (batch_loop E mode cb total i fps w results).2).
Proof.
  revert i w results. induction fps as [|fp rest IH]; intros i w results Hp;
    [done|].
  pose proof (process_keeps_paths E fp mode (scrub w) (fs w) p Hp) as Hp'.
  destruct (batch_loop_step E mode cb total i fp rest w results)
    as (log & extra & _ & [[e ->] | ->]); [done|].
  by apply IH.
Qed.

(** A snapshot of the engine that is in the files stays there through the
    loop, as long as no document is written to its path: a later [save] to
    the same path writes the same snapshot, the dictionaries being fixed. *)
Lemma batch_loop_keeps_snapshot E mode cb total i fps w (mp : text) :
  quiet cb ->
  fs w !! mp = Some (FJson (snapshot (scrub w))) ->
  (forall r, r ∈ results_of (batch_loop E mode cb total i fps w []).1 ->
             output r <> Some mp) ->
  fs (batch_loop E mode cb total i fps w []).2 !! mp
  = Some (FJson (snapshot (scrub w))).
Proof.
  intros Hq. revert i w. induction fps as [|fp rest IH]; intros i w Hmp Hout;
    [done|].
  rewrite batch_loop_cons, batch_loop_acc in Hout |- * by done.
  cbn [fst snd results_of] in Hout |- *.
  assert (fs (after_file E mode cb total i fp w) !! mp
          = Some (FJson (snapshot (scrub w)))
          /\ snapshot (scrub (after_file E mode cb total i fp w))
             = snapshot (scrub w)) as [Hmp' Hs].
  { assert (output (entry fp (process E fp mode (scrub w) (fs w)).1.1)
            <> Some mp) as Hne by (apply Hout; set_solver).
    unfold after_file. revert Hne.
    destruct (process_inv E fp mode (scrub w) (fs w))
      as [[e ->]|[(f' & _ & ->)|(f' & _ & ->)]]; simpl; unfold files in *;
      intros Hne; [done | |];
      (assert (dst_path E fp mode <> mp) as Hdst
         by (intros Heq; apply Hne; by rewrite Heq)).
    - split; [|done]. by rewrite lookup_insert_ne.
    - split; [|done].
      destruct (decide (mapping_path E (dst_path E fp mode) = mp)) as [->|Hd].
      + by rewrite lookup_insert_eq.
      + by rewrite !lookup_insert_ne. }
  rewrite <- Hs. apply IH; [by rewrite Hs|].
  intros r Hr. apply Hout. set_solver.
Qed.

Lemma persisted_weaken (w' : world) (l l' : list outcome) (r : outcome) :
  (forall x, x ∈ l -> x ∈ l') -> persisted w' l r -> persisted w' l' r.
Proof.
  intros Hsub Hp out Hout. destruct (Hp out Hout) as [Hfile Hsnap].
  split; [done|]. intros mp Hmp. destruct (Hsnap mp Hmp) as [Hin Hkept].
  split; [done|]. intros Hno. apply Hkept. intros r' Hr'. by apply Hno, Hsub.
Qed.

Lemma batch_loop_persisted E mode cb total i fps w :
  quiet cb ->
  Forall (persisted (batch_loop E mode cb total i fps w []).2
            (results_of (batch_loop E mode cb total i fps w []).1))
    (results_of (batch_loop E mode cb total i fps w []).1).
Proof.
  intros Hq. revert i w. induction fps as [|fp rest IH]; intros i w;
    [constructor|].
  rewrite batch_loop_cons, batch_loop_acc by done. cbn [fst snd results_of].
  set (w1 := after_file E mode cb total i fp w).
  set (tail := results_of (batch_loop E mode cb total (S i) rest w1 []).1).
  set (w' := (batch_loop E mode cb total (S i) rest w1 []).2).
  simpl app. constructor.
  - intros out Hout.
    assert (is_Some (fs w1 !! out)
            /\ forall mp,
                 snapshot_path (entry fp (process E fp mode (scrub w) (fs w)).1.1)
                 = Some mp ->
                 mp ∈ json_paths (scrub w1)
                 /\ fs w1 !! mp = Some (FJson (snapshot (scrub w1))))
      as [Hfile Hsnap].
    { unfold w1, after_file. revert Hout.
      destruct (process_inv E fp mode (scrub w) (fs w))
        as [[e ->]|[(f' & _ & ->)|(f' & _ & ->)]]; simpl; unfold files in *;
        [done | |]; intros [= <-].
      - split; [|done]. rewrite lookup_insert_eq. eauto.
      - split.
        + destruct (decide (mapping_path E (dst_path E fp mode)
                            = dst_path E fp mode)) as [Heq|Hne].
          * rewrite Heq at 1. rewrite lookup_insert_eq. eauto.
          * rewrite lookup_insert_ne, lookup_insert_eq by done. eauto.
        + intros mp [= <-]. split; [set_solver|]. by rewrite lookup_insert_eq. }
    split; [by apply batch_loop_keeps_files|].
    intros mp Hmp. destruct (Hsnap mp Hmp) as [Hin Hmp1].
    split; [by apply batch_loop_keeps_paths|].
    intros Hno.
    destruct (batch_loop_engine E mode cb total (S i) rest w1 [])
      as (Hm & Hr & _).
    rewrite (snapshot_dicts (scrub w') (scrub w1)) by done.
    apply batch_loop_keeps_snapshot; [done | done |].
    intros r Hr'. apply Hno. by right.
  - eapply Forall_impl; [apply IH|]. intros r. apply persisted_weaken.
    intros x Hx. by right.
Qed.

(** * The claims *)

(** C2. [_enc] leaves every well-formed token of its input where it is,
    unchanged: around a token the result is the masked text before it, the
    token itself, and the masked text after it.  Nothing of the token is
    matched against the words, whatever its hexadecimal digits spell. *)
Theorem mask_keeps_tokens (self : Scrubber) (pre tok post : text) :
  is_token tok ->
  _enc self (pre ++ tok ++ post) = _enc self pre ++ tok ++ _enc self post.
Proof. apply _enc_app_token. Qed.

(** With ["A"] and ["AB"] mapped, the token [[MASK_000000AB]] survives in a
    text that also holds the word ["AB"]. *)
Lemma mask_keeps_tokens_witness :
  is_token TOKEN_AB
  /\ _enc engine_A_AB (lit "xAB" ++ TOKEN_AB ++ lit "AB")
     = _enc engine_A_AB (lit "xAB") ++ TOKEN_AB ++ _enc engine_A_AB (lit "AB").
Proof.
  split; [reflexivity|].
  apply (mask_keeps_tokens engine_A_AB (lit "xAB") TOKEN_AB (lit "AB")).
  reflexivity.
Defined.

(** C4. [_dec] replaces a token that is a key of [reverse] by its word,
    leaves a token that is not a key as it is, and changes nothing else; it
    is a total function, so it has a result on every input. *)
Theorem unmask_tokens (self : Scrubber) :
  (forall pre tok post w,
      is_token tok -> reverse self !! tok = Some w ->
      _dec self (pre ++ tok ++ post) = _dec self pre ++ w ++ _dec self post)
  /\ (forall pre tok post,
      is_token tok -> reverse self !! tok = None ->
      _dec self (pre ++ tok ++ post) = _dec self pre ++ tok ++ _dec self post)
  /\ (forall s, token_free s -> _dec self s = s)
  /\ (forall s,
      (forall tok, tok ∈ re_findall mask_pat s -> reverse self !! tok = None) ->
      _dec self s = s).
Proof.
  split_and!.
  - intros pre tok post w Ht Hw. by rewrite _dec_app_token, Hw.
  - intros pre tok post Ht Hw. by rewrite _dec_app_token, Hw.
  - apply _dec_token_free.
  - apply _dec_unknown.
Qed.

Lemma unmask_tokens_witness :
  _dec engine_a (lit "x" ++ TOKEN_0 ++ lit "y")
  = _dec engine_a (lit "x") ++ lit "a" ++ _dec engine_a (lit "y")
  /\ _dec engine_a (lit "x" ++ TOKEN_F ++ lit "y")
     = _dec engine_a (lit "x") ++ TOKEN_F ++ _dec engine_a (lit "y")
  /\ _dec engine_a (lit "[MASK_0000]") = lit "[MASK_0000]"
  /\ _dec engine_a (lit "x[MASK_FFFFFFFF]") = lit "x[MASK_FFFFFFFF]".
Proof.
  destruct (unmask_tokens engine_a) as (Hknown & Hunknown & Hfree & Hall).
  split_and!.
  - apply Hknown; reflexivity.
  - apply Hunknown; reflexivity.
  - apply Hfree. intros i. do 12 (destruct i as [|i]; [reflexivity|]). reflexivity.
  - apply Hall. intros tok Hin. vm_compute in Hin.
    apply list_elem_of_singleton in Hin. subst tok. reflexivity.
Defined.

(** C5. A second [build] with the same words changes nothing and draws no
    UUID; and [build] never changes the mask of a word that is already a
    key. *)
Theorem build_idempotent (uuid4 : nat -> N) (words : list text)
  (st : Scrubber * nat) :
  build uuid4 words (build uuid4 words st) = build uuid4 words st
  /\ (forall w m, mapping st.1 !! w = Some m ->
                  mapping (build uuid4 words st).1 !! w = Some m).
Proof.
  split.
  - apply build_noop. intros w Hin.
    destruct (decide (strip w = [])) as [|Hne]; [by left|right].
    by apply build_covers.
  - revert st. induction words as [|w0 words IH]; intros st w m Hm; [done|].
    rewrite build_cons. apply IH. unfold build_step.
    destruct (bool_decide (strip w0 <> [])); [|done]. simpl.
    case_bool_decide as Hnone; [|done]. simpl.
    rewrite lookup_insert_ne; [done|]. intros <-. congruence.
Qed.

Lemma build_idempotent_witness :
  mapping (build uuid_constant [lit "A"; lit "c"] (engine_A_AB, 2)).1 !! lit "A"
  = Some (lit "[MASK_00000000]").
Proof.
  apply (build_idempotent uuid_constant [lit "A"; lit "c"] (engine_A_AB, 2)).
  reflexivity.
Defined.



(** C1 (as amended). For the engine built from any word list, when the
    masks drawn are pairwise different and the text holds no token that is
    already a key of [reverse], unmasking the masked text gives the text
    back. *)
Theorem roundtrip_built (uuid4 : nat -> N) (n0 : nat) (words : list text)
  (t : text) :
  distinct_draws uuid4 n0 (build uuid4 words (Scrubber_init, n0)).2 ->
  (forall m, m ∈ re_findall mask_pat t ->
             reverse (build uuid4 words (Scrubber_init, n0)).1 !! m = None) ->
  _dec (build uuid4 words (Scrubber_init, n0)).1
       (_enc (build uuid4 words (Scrubber_init, n0)).1 t) = t.
Proof.
  intros Hd Hun. apply _dec_enc_consistent; [|done].
  by apply (build_inv uuid4 n0 words (Scrubber_init, n0));
    [done | done | apply init_inv].
Qed.

Lemma roundtrip_built_witness :
  _dec engine_A_AB (_enc engine_A_AB (lit "AB and A, not [MASK_FFFFFFFF]"))
  = lit "AB and A, not [MASK_FFFFFFFF]".
Proof.
  apply (roundtrip_built uuid_counting 0 [lit "A"; lit "AB"]).
  - intros i j _ Hij Hj. change (j < 2) in Hj.
    assert (i = 0 /\ j = 1) as [-> ->] by lia. by vm_compute.
  - intros m Hin. vm_compute in Hin.
    apply list_elem_of_singleton in Hin. subst m. reflexivity.
Defined.

(** C1 as stated fails.  No word here is a token; yet a text that already
    holds the mask of a word comes back as ["aa"], and with two words that
    drew the same mask the text ["a"] comes back as ["b"]. *)
Lemma roundtrip_counterexample :
  (mask_pat false (lit "a") = None
   /\ _dec engine_a (_enc engine_a (lit "a[MASK_00000000]"))
      <> lit "a[MASK_00000000]")
  /\ (mask_pat false (lit "a") = None /\ mask_pat false (lit "b") = None
      /\ _dec engine_collision (_enc engine_collision (lit "a")) <> lit "a").
Proof. split_and!; by vm_compute. Qed.

(** C6. Loading the snapshot that [save] wrote into a fresh engine gives
    the two dictionaries of the engine that was saved. *)
Theorem snapshot_roundtrip (E : env) (out_path : text) (self : Scrubber)
  (fs : files) :
  load E (save E out_path self fs).1.1 Scrubber_init (save E out_path self fs).2
  = Loaded {| mapping := mapping self; reverse := reverse self;
              json_paths := [] |}.
Proof.
  unfold save. cbn [fst snd].
  set (mp := mapping_path E out_path).
  destruct (load_str_dicts E mp Scrubber_init
              (<[mp := FJson (snapshot self)]> fs)
              [(lit "mapping", JObj (str_members (mapping self)));
               (lit "reverse", JObj (str_members (reverse self)))])
    as (self' & -> & Hm & Hr & Hp).
  - apply lookup_insert_eq.
  - apply (str_members_is_str_dict (mapping self)).
  - apply (str_members_is_str_dict (reverse self)).
  - f_equal. destruct self' as [m r p]. simpl in *. f_equal; [| |done].
    + apply map_eq. intros k. rewrite Hm.
      change (snapshot_mapping _) with (str_members (mapping self)).
      rewrite str_entry_str_members, lookup_empty. by destruct (_ !! k).
    + apply map_eq. intros k. rewrite Hr.
      change (snapshot_reverse _) with (str_members (reverse self)).
      rewrite str_entry_str_members, lookup_empty. by destruct (_ !! k).
Qed.

(** C8 (as amended). [load] raises when the file is missing, is not JSON,
    or holds a JSON value that is not an object.  A valid snapshot always
    loads, and the entries it gives are merged into the dictionaries: the
    snapshot's value wins for a key it holds, every other entry stays.  No
    successful [load] removes a key. *)
Theorem load_merges (E : env) (path : text) (self : Scrubber) (fs : files) :
  (fs !! path = None -> load E path self fs = LoadRaised (FileNotFoundError path) self)
  /\ (forall c, fs !! path = Some (FText c) -> json_loads E c = None ->
                load E path self fs = LoadRaised JSONDecodeError self)
  /\ (forall j, fs !! path = Some (FJson j) -> (forall d, j <> JObj d) ->
                load E path self fs = LoadRaised AttributeError self)
  /\ (forall d, fs !! path = Some (FJson (JObj d)) ->
                valid_snapshot (JObj d) = true ->
        exists self',
          load E path self fs = Loaded self'
          /\ (forall k, mapping self' !! k
                        = match str_entry k (snapshot_mapping d) with
                          | Some v => Some v
                          | None => mapping self !! k
                          end)
          /\ (forall k, reverse self' !! k
                        = match str_entry k (snapshot_reverse d) with
                          | Some v => Some v
                          | None => reverse self !! k
                          end)
          /\ json_paths self' = json_paths self)
  /\ (forall self', load E path self fs = Loaded self' ->
        (forall k, is_Some (mapping self !! k) -> is_Some (mapping self' !! k))
        /\ (forall k, is_Some (reverse self !! k) -> is_Some (reverse self' !! k))).
Proof.
  split_and!.
  - intros H. unfold load, json_load. by rewrite H.
  - intros c H Hc. unfold load, json_load. by rewrite H, Hc.
  - intros j H Hj. unfold load, json_load. rewrite H.
    destruct j; try done. by destruct (Hj members).
  - intros d H [Hm Hr]%valid_snapshot_str_dicts. by apply load_str_dicts.
  - apply load_keeps.
Qed.

Lemma load_merges_witness :
  exists self',
    load posix (lit "m.json") engine_a files_bob = Loaded self'
    /\ mapping self' !! lit "bob" = Some TOKEN_F
    /\ mapping self' !! lit "a" = Some TOKEN_0.
Proof.
  destruct (load_merges posix (lit "m.json") engine_a files_bob)
    as (_ & _ & _ & Hvalid & _).
  destruct (Hvalid [(lit "mapping", JObj [(lit "bob", JStr TOKEN_F)]);
                    (lit "reverse", JObj [(TOKEN_F, JStr (lit "bob"))])])
    as (self' & Hl & Hm & _); [reflexivity | reflexivity |].
  exists self'. split; [exact Hl|].
  split; rewrite Hm; reflexivity.
Defined.

(** C8 as stated fails: a JSON object that is no serialized mapping is
    loaded without an error, as an update with nothing. *)
Lemma load_counterexample :
  valid_snapshot foreign_json = false
  /\ load posix (lit "m.json") engine_a files_foreign = Loaded engine_a.
Proof. split; by vm_compute. Qed.






(** C10. With a callback that returns (or none), the result list of [batch]
    has one entry per input file, in the order of the files; a success is
    [(input, output, None, snapshot)], where the snapshot path is the one
    [save] derived from the output path in mask mode and [None] otherwise,
    and a failure is [(input, None, error, None)].  The paths of a success
    are those of files that were written: after [batch] the output path
    holds a file, the snapshot path is recorded in [json_paths], and it
    holds the snapshot of the engine (unless a document of the same batch
    was written to that very path afterwards). *)
Theorem batch_outcomes (E : env) (uuid4 : nat -> N) (fps words : list text)
  (mode : text) (cb : option callback) (w : world) :
  quiet cb ->
  exists results,
    (batch E uuid4 fps words mode cb w).1 = Ok results
    /\ map input results = fps
    /\ Forall (well_shaped E mode) results
    /\ Forall (persisted (batch E uuid4 fps words mode cb w).2 results) results.
Proof.
  intros Hq. rewrite batch_unfold. eexists. split_and!.
  - by apply batch_loop_ok.
  - by apply batch_loop_inputs.
  - by apply batch_loop_well_shaped.
  - by apply batch_loop_persisted.
Qed.

Lemma batch_outcomes_witness :
  let w' := (batch posix uuid_counting [lit "a.txt"; lit "b.docx"; lit "c.txt"]
               [lit "bob"] ENC None world_batch).2 in
  let out := dst_path posix (lit "a.txt") ENC in
  exists results,
    (batch posix uuid_counting [lit "a.txt"; lit "b.docx"; lit "c.txt"]
       [lit "bob"] ENC None world_batch).1 = Ok results
    /\ map input results = [lit "a.txt"; lit "b.docx"; lit "c.txt"]
    /\ Forall (well_shaped posix ENC) results
    /\ results !! 0 = Some (lit "a.txt", Some out, None,
                            Some (mapping_path posix out))
    /\ is_Some (fs w' !! out)
    /\ mapping_path posix out ∈ json_paths (scrub w')
    /\ fs w' !! mapping_path posix out = Some (FJson (snapshot (scrub w'))).
Proof.
  intros w' out.
  destruct (batch_outcomes posix uuid_counting
              [lit "a.txt"; lit "b.docx"; lit "c.txt"] [lit "bob"] ENC None
              world_batch) as (results & Hres & Hin & Hshape & Hp);
    [by intros ev|].
  assert (results
          = [(lit "a.txt", Some out, None, Some (mapping_path posix out));
             (lit "b.docx", None, Some (BadDocument (lit "b.docx")), None);
             (lit "c.txt", Some (dst_path posix (lit "c.txt") ENC), None,
              Some (mapping_path posix (dst_path posix (lit "c.txt") ENC)))])
    as Hlist.
  { assert (Ok results = Ok (results_of (batch posix uuid_counting
              [lit "a.txt"; lit "b.docx"; lit "c.txt"] [lit "bob"] ENC None
              world_batch).1)) as Heq by (by rewrite Hres).
    injection Heq as ->. by vm_compute. }
  exists results. split_and!; [done | done | done | by rewrite Hlist | | |];
    rewrite Hlist in Hp; apply Forall_inv in Hp;
    destruct (Hp out eq_refl) as [Hfile Hsnap];
    destruct (Hsnap (mapping_path posix out) eq_refl) as [Hpath Hkept];
    [done | done |].
  apply Hkept. intros r' Hr'. apply list_elem_of_In in Hr'.
  destruct Hr' as [<-|[<-|[<-|[]]]]; by vm_compute.
Defined.

(** C9 (as amended). [batch] itself makes no check of the word list: in mask
    mode with no words it extends nothing and runs its loop over every file,
    with one entry per file.  The check is made by its caller [App._run],
    which warns and returns without calling [batch]. *)
Theorem empty_words_gate (E : env) (uuid4 : nat -> N) (ui : dialogs)
  (fps : list text) (w : world) :
  batch E uuid4 fps [] ENC None w
  = batch_loop E ENC None (length fps) 0 fps w []
  /\ map input (results_of (batch E uuid4 fps [] ENC None w).1) = fps
  /\ _run E uuid4 ui fps [] ENC w
     = Warned (match fps with [] => NoFiles | _ :: _ => NoWords end).
Proof.
  split_and!.
  - rewrite batch_unfold. by destruct w.
  - rewrite batch_unfold. apply batch_loop_inputs, quiet_None.
  - unfold _run. by destruct fps.
Qed.

(** C9 as stated fails: called in mask mode with no words, [batch]
    processes the file and reports a success for it. *)
Lemma empty_words_counterexample :
  (batch posix uuid_counting [lit "a.txt"] [] ENC None world_batch).1
  = Ok [(lit "a.txt",
         Some (lit "./a" ++ SUFFIX_ENC ++ lit ".txt"),
         None,
         Some (lit "./a" ++ SUFFIX_ENC ++ MAPPING_SUFFIX))]
  /\ fs (batch posix uuid_counting [lit "a.txt"] [] ENC None world_batch).2
     !! (lit "./a" ++ SUFFIX_ENC ++ lit ".txt")
     = Some (FText (lit "hello bob")).
Proof. split; by vm_compute. Qed.

(** The hypothesis on the callback is needed: the first call stands inside
    the [try], so a callback that raises there sends the file through the
    [except] clause as well, and the file gets a second entry. *)
Example raising_callback_example :
  (batch posix uuid_counting [lit "a.txt"] [] ENC (Some cb_raises_on_done)
     world_batch).1
  = Ok [(lit "a.txt", Some (lit "./a" ++ SUFFIX_ENC ++ lit ".txt"), None,
         Some (lit "./a" ++ SUFFIX_ENC ++ MAPPING_SUFFIX));
        (lit "a.txt", None, Some TypeError, None)].
Proof. by vm_compute. Qed.

(** * Further properties of the engine *)

(** ** [build] *)

(** X1. After [build], every word of the list that is not blank is a key, under
    its stripped form. *)
Theorem build_stores_words (uuid4 : nat -> N) (words : list text)
  (st : Scrubber * nat) (w : text) :
  w ∈ words -> strip w <> [] ->
  is_Some (mapping (build uuid4 words st).1 !! strip w).
Proof. apply build_covers. Qed.

Lemma build_stores_words_witness :
  is_Some (mapping (build uuid_counting [lit "  bob "; lit " "] (Scrubber_init, 0)).1
             !! strip (lit "  bob ")).
Proof.
  apply (build_stores_words uuid_counting [lit "  bob "; lit " "]
           (Scrubber_init, 0) (lit "  bob ")).
  - apply list_elem_of_here.
  - by vm_compute.
Defined.

(** X2. An entry of [mapping] after [build] is an entry from before, or it maps
    the stripped, non-blank form of a word of the list to a well-formed
    token made from one of the UUIDs drawn by this call. *)
Theorem build_new_entries (uuid4 : nat -> N) (words : list text)
  (st : Scrubber * nat) (k m : text) :
  mapping (build uuid4 words st).1 !! k = Some m ->
  mapping st.1 !! k = Some m
  \/ (k <> [] /\ (exists w, w ∈ words /\ k = strip w) /\ is_token m
      /\ exists i, st.2 <= i < (build uuid4 words st).2
                   /\ m = new_mask (uuid4 i)).
Proof.
  revert st. induction words as [|w0 words IH]; intros st; [by left|].
  rewrite build_cons. intros [Hold|(Hk & (w & Hw & ->) & Ht & i & Hi & ->)]%IH.
  - unfold build_step in Hold.
    pose proof (build_counter uuid4 words (build_step uuid4 st w0)) as Hc.
    unfold build_step in Hc |- *.
    case_bool_decide as Hne; simpl in *; [|by left].
    case_bool_decide as Hnone; simpl in *; [|by left].
    destruct (decide (strip w0 = k)) as [<-|Hkk].
    + rewrite lookup_insert_eq in Hold. injection Hold as <-. right.
      split_and!; [done | | apply new_mask_is_token |].
      * exists w0. split; [by left | done].
      * exists st.2. split; [lia | done].
    + rewrite lookup_insert_ne in Hold by done. by left.
  - right. pose proof (build_step_counter uuid4 st w0).
    split_and!; [done | | done |].
    + exists w. split; [by right | done].
    + exists i. split; [lia | done].
Qed.

Lemma build_new_entries_witness :
  mapping Scrubber_init !! lit "bob" = Some (lit "[MASK_00000000]")
  \/ (lit "bob" <> [] /\
      (exists w, w ∈ [lit "  bob "; lit " "] /\ lit "bob" = strip w)
      /\ is_token (lit "[MASK_00000000]")
      /\ exists i,
          0 <= i < (build uuid_counting [lit "  bob "; lit " "] (Scrubber_init, 0)).2
          /\ lit "[MASK_00000000]" = new_mask (uuid_counting i)).
Proof.
  apply (build_new_entries uuid_counting [lit "  bob "; lit " "]
           (Scrubber_init, 0)).
  reflexivity.
Defined.

(** X3. [build] draws one UUID for each key it adds, and none otherwise. *)
Theorem build_counts_draws (uuid4 : nat -> N) (words : list text)
  (st : Scrubber * nat) :
  size (mapping (build uuid4 words st).1) + st.2
  = size (mapping st.1) + (build uuid4 words st).2.
Proof.
  revert st. induction words as [|w0 words IH]; intros st; [done|].
  rewrite build_cons. pose proof (IH (build_step uuid4 st w0)) as Hrec.
  revert Hrec. generalize (build uuid4 words (build_step uuid4 st w0)).
  intros final. unfold build_step.
  case_bool_decide as Hne; simpl; [|done].
  case_bool_decide as Hnone; simpl; [|done].
  rewrite map_size_insert_None by done. lia.
Qed.

(** X4. The two dictionaries of an engine built from a fresh one are inverse to
    each other when the masks drawn are pairwise different. *)
Theorem build_bijection (uuid4 : nat -> N) (n0 : nat) (words : list text)
  (w m : text) :
  distinct_draws uuid4 n0 (build uuid4 words (Scrubber_init, n0)).2 ->
  mapping (build uuid4 words (Scrubber_init, n0)).1 !! w = Some m
  <-> reverse (build uuid4 words (Scrubber_init, n0)).1 !! m = Some w.
Proof.
  intros Hd. split.
  - intros Hm.
    destruct (build_inv uuid4 n0 words (Scrubber_init, n0)) as [Hc _];
      [done | done | apply init_inv|].
    by apply Hc.
  - clear Hd. revert w m.
    assert (forall st,
      (forall w m, reverse st.1 !! m = Some w -> mapping st.1 !! w = Some m) ->
      forall w m, reverse (build uuid4 words st).1 !! m = Some w ->
                  mapping (build uuid4 words st).1 !! w = Some m) as Hgen.
    { induction words as [|w0 words IH]; intros st Hst; [done|].
      rewrite build_cons. apply IH. intros w m. unfold build_step.
      case_bool_decide as Hne; simpl; [|apply Hst].
      case_bool_decide as Hnone; simpl; [|apply Hst].
      destruct (decide (new_mask (uuid4 st.2) = m)) as [<-|Hmm].
      - rewrite lookup_insert_eq. intros [= <-]. by rewrite lookup_insert_eq.
      - rewrite lookup_insert_ne by done. intros Hr%Hst.
        rewrite lookup_insert_ne; [done|]. intros <-. congruence. }
    apply Hgen. intros w m. simpl. by rewrite lookup_empty.
Qed.

Lemma build_bijection_witness :
  mapping engine_A_AB !! lit "AB" = Some (lit "[MASK_00000001]")
  <-> reverse engine_A_AB !! lit "[MASK_00000001]" = Some (lit "AB").
Proof.
  apply (build_bijection uuid_counting 0 [lit "A"; lit "AB"]).
  intros i j _ Hij Hj. change (j < 2) in Hj.
  assert (i = 0 /\ j = 1) as [-> ->] by lia. by vm_compute.
Defined.

(** ** [_enc] and [_dec] *)

Lemma occurs_drop (w t : text) :
  occurs w t <-> exists i, is_prefix w (drop i t) = true.
Proof.
  split.
  - intros (pre & post & ->). exists (length pre).
    rewrite drop_app_length. unfold is_prefix.
    by rewrite bool_decide_eq_true_2 by apply take_app_length.
  - intros (i & Hp). unfold is_prefix in Hp. apply bool_decide_eq_true_1 in Hp.
    exists (take i t), (drop (length w) (drop i t)).
    by rewrite <- Hp at 1; rewrite !take_drop.
Qed.

Lemma occurs_trans (w p t : text) : occurs w p -> occurs p t -> occurs w t.
Proof.
  intros (a & b & ->) (c & d & ->). exists (c ++ a), (b ++ d).
  by rewrite <- !app_assoc.
Qed.

Lemma re_split_mask_app pre t post :
  is_token t ->
  re_split mask_pat (pre ++ t ++ post)
  = re_split mask_pat pre ++ re_split mask_pat post.
Proof.
  intros Ht. unfold re_split. by rewrite finditer_mask_app, split_segs_app.
Qed.

Lemma re_split_mask_free s : token_free s -> re_split mask_pat s = [s].
Proof.
  intros Hf. unfold re_split.
  by rewrite finditer_mask_token_free, split_segs_lits.
Qed.

Lemma token_free_app_l a b : token_free (a ++ b) -> token_free a.
Proof.
  intros H i. destruct (mask_pat false (drop i a)) as [w|] eqn:E; [|done].
  destruct (decide (i <= length a)) as [Hi|Hi].
  - specialize (H i). rewrite drop_app_le in H by done.
    by rewrite (mask_pat_app _ _ _ _ E) in H.
  - rewrite drop_ge in E by lia. done.
Qed.

(** Every part is a substring of the text. *)
Lemma re_split_mask_occurs t p : p ∈ re_split mask_pat t -> occurs p t.
Proof.
  induction t as [s Hf | a m b Hf Hm IH] using token_ind.
  - rewrite re_split_mask_free by done. intros ->%list_elem_of_singleton.
    exists [], []. by rewrite app_nil_r.
  - rewrite re_split_mask_app, (re_split_mask_free a) by done.
    intros [->%list_elem_of_singleton|Hin]%elem_of_app.
    + by exists [], (m ++ b).
    + destruct (IH Hin) as (pre & post & ->).
      exists (a ++ m ++ pre), post. by rewrite <- !app_assoc.
Qed.

Section CleanParts.
Variable self : Scrubber.

Local Abbreviation ws := (enc_words self).

Lemma elem_of_enc_words w : w ∈ ws <-> is_Some (mapping self !! w).
Proof. unfold enc_words. by rewrite elem_of_sorted_by_len_desc, elem_of_keys. Qed.

(** No mapped word begins at position [i] of [t]. *)
Lemma no_key_at (t : text) i :
  (forall w, is_Some (mapping self !! w) -> ~ occurs w t) ->
  word_pat ws false (drop i t) = None.
Proof.
  intros Hno. destruct (word_pat ws false (drop i t)) as [w|] eqn:E; [|done].
  exfalso. apply (Hno w).
  - apply elem_of_enc_words. by apply word_pat_Some in E as [? _].
  - apply occurs_drop. exists i. by eapply word_pat_Some_prefix.
Qed.

(** Where the pattern matches nowhere, the substitution changes nothing. *)
Lemma enc_part_no_match a :
  (forall i, word_pat ws false (drop i a) = None) -> enc_part self a = a.
Proof.
  intros Hno. unfold enc_part, re_sub. rewrite finditer_scan_at.
  induction a as [|c a IH].
  - rewrite scan_at_nil; [done | apply (Hno 0)].
  - rewrite (scan_at_lit _ (word_pat_good ws)) by apply (Hno 0).
    simpl. f_equal. apply IH. intros i. apply (Hno (S i)).
Qed.

Lemma _enc_clean t : parts_clean self t -> _enc self t = t.
Proof.
  destruct (decide (mapping self = ∅)) as [He|Hne].
  { intros _. unfold _enc. by rewrite bool_decide_eq_true_2. }
  induction t as [s Hf | a m b Hf Hm IH] using token_ind; intros Hc.
  - rewrite _enc_token_free by done. apply enc_part_no_match. intros i.
    apply no_key_at. intros w Hw. apply Hc; [|done].
    rewrite re_split_mask_free by done. apply list_elem_of_here.
  - rewrite _enc_app_token, (_enc_token_free _ a) by done.
    rewrite enc_part_no_match, IH; [done | |].
    + intros p w Hp. apply Hc. rewrite re_split_mask_app by done.
      apply elem_of_app. by right.
    + intros i. apply no_key_at. intros w Hw. apply Hc; [|done].
      rewrite re_split_mask_app, (re_split_mask_free a) by done.
      apply elem_of_app. left. apply list_elem_of_here.
Qed.

Hypothesis Hmasks : masks_well_formed self.
Hypothesis Hnil : mapping self !! [] = None.

Lemma word_pat_flag_None b s :
  word_pat ws b s = None -> word_pat ws false s = None.
Proof using Hnil.
  intros Hb. destruct (word_pat ws false s) as [w|] eqn:E; [|done]. exfalso.
  pose proof (word_pat_Some_prefix _ _ _ _ E) as Hp.
  apply word_pat_Some in E as (Hin & _ & _).
  destruct (word_pat_is_Some ws b s w Hin Hp) as [w' Hw'].
  - intros _ ->. apply elem_of_enc_words in Hin.
    rewrite Hnil in Hin. by destruct Hin.
  - congruence.
Qed.

(** The parts of what the substitution yields, with the characters [l] that
    it has already left in place before the position: none of them holds a
    mapped word. *)
Lemma enc_out_clean b s l :
  token_free (l ++ s) ->
  (forall i, i < length l -> word_pat ws false (drop i (l ++ s)) = None) ->
  parts_clean self (l ++ enc_out self b s).
Proof using Hmasks Hnil.
  revert l. revert b s.
  apply (scan_ind (fun b s => forall l, token_free (l ++ s) ->
    (forall i, i < length l -> word_pat ws false (drop i (l ++ s)) = None) ->
    parts_clean self (l ++ enc_out self b s))).
  intros b s IH l Hf Hl.
  assert (forall x, (forall i, i < length l ->
            word_pat ws false (drop i (l ++ x)) = None) ->
          forall p w, p = l -> is_Some (mapping self !! w) -> ~ occurs w p)
    as Hlclean.
  { intros x Hx p w -> Hw (i & Hp)%occurs_drop.
    destruct (decide (i < length l)) as [Hi|Hi].
    - destruct (word_pat_is_Some ws false (drop i (l ++ x)) w) as [w' Hw'];
        [by apply elem_of_enc_words | | done | by rewrite Hx in Hw'].
      rewrite drop_app_le by lia. unfold is_prefix in *.
      apply bool_decide_eq_true_1 in Hp. apply bool_decide_eq_true_2.
      rewrite <- Hp at 2. rewrite take_app_le; [done|].
      rewrite <- Hp at 1. rewrite length_take. lia.
    - rewrite drop_ge in Hp by lia. unfold is_prefix in Hp.
      apply bool_decide_eq_true_1 in Hp. rewrite take_nil in Hp. subst w.
      rewrite Hnil in Hw. by destruct Hw. }
  unfold enc_out.
  destruct (word_pat ws b s) as [w|] eqn:Hm.
  - rewrite (scan_at_hit _ (word_pat_good ws) _ _ _ Hm). simpl.
    pose proof (word_pat_Some _ _ _ _ Hm) as (Hin & Hs & Hadv).
    apply elem_of_enc_words in Hin as [m Hmw].
    assert (is_token (enc_repl self w)) as Ht.
    { unfold enc_repl. rewrite Hmw. by eapply Hmasks. }
    intros p w' Hp. rewrite re_split_mask_app in Hp by done.
    rewrite (re_split_mask_free l) in Hp by (by eapply token_free_app_l).
    apply elem_of_app in Hp as [->%list_elem_of_singleton|Hp].
    + by eapply Hlclean.
    + apply (IH (bool_decide (w = [])) (drop (length w) s)) with (l := []);
        [ | | intros i Hi; simpl in Hi; lia | done].
      * pose proof (proj1 (word_pat_good ws) _ _ _ Hm) as Hlen.
        unfold weight. rewrite length_drop. case_bool_decide as Hw.
        -- subst w. simpl. destruct b; [by destruct Hadv | lia].
        -- destruct w; [done|]. simpl in *. destruct b; lia.
      * simpl. replace (drop (length w) s)
          with (drop (length l + length w) (l ++ s)).
        -- by apply token_free_drop.
        -- rewrite <- drop_drop, drop_app_length. done.
  - destruct s as [|c s].
    + rewrite (scan_at_nil _ _ Hm). simpl. rewrite app_nil_r in *.
      intros p w Hp. rewrite re_split_mask_free in Hp by done.
      apply list_elem_of_singleton in Hp. by eapply (Hlclean []); rewrite ?app_nil_r.
    + rewrite (scan_at_lit _ (word_pat_good ws) _ _ _ Hm). simpl.
      replace (l ++ c :: sub_segs (enc_repl self) (scan_at (word_pat ws) false s))
        with ((l ++ [c]) ++ enc_out self false s)
        by (by rewrite <- app_assoc).
      apply IH.
      * unfold weight. simpl. destruct b; lia.
      * by rewrite <- app_assoc.
      * intros i Hi. rewrite <- app_assoc. simpl.
        rewrite length_app in Hi. simpl in Hi.
        destruct (decide (i < length l)) as [Hlt|Hge]; [by apply Hl|].
        assert (i = length l) as -> by lia.
        rewrite drop_app_length. by eapply word_pat_flag_None.
Qed.

Lemma _enc_output_clean t : parts_clean self (_enc self t).
Proof using Hmasks Hnil.
  destruct (decide (mapping self = ∅)) as [He|Hne].
  { intros p w _ Hw. rewrite He, lookup_empty in Hw. by destruct Hw. }
  induction t as [s Hf | a m b Hf Hm IH] using token_ind.
  - rewrite _enc_token_free by done.
    apply (enc_out_clean false s []); [done|]. intros i Hi. simpl in Hi. lia.
  - rewrite _enc_app_token, (_enc_token_free _ a) by done.
    intros p w Hp. rewrite re_split_mask_app in Hp by done.
    apply elem_of_app in Hp as [Hp|Hp]; [|by apply IH].
    revert p w Hp. apply (enc_out_clean false a []); [done|].
    intros i Hi. simpl in Hi. lia.
Qed.
End CleanParts.

(** X5. After [_enc], no mapped word is left outside the tokens: the parts
    into which the mask pattern splits the result hold no occurrence of a
    key.  The masks must be well-formed tokens and no key may be empty, as
    is the case for every engine that [build] has filled. *)
Theorem mask_leaves_no_word (self : Scrubber) (t : text) :
  masks_well_formed self -> mapping self !! [] = None ->
  parts_clean self (_enc self t).
Proof. intros Hm Hn. by apply _enc_output_clean. Qed.

Lemma masks_well_formed_decide (self : Scrubber) :
  map_Forall (fun _ m => is_token m) (mapping self) -> masks_well_formed self.
Proof. intros H w m Hw. by apply (H w m). Qed.

Lemma mask_leaves_no_word_witness : parts_clean engine_A_AB (_enc engine_A_AB TEXT_MIXED).
Proof.
  apply (mask_leaves_no_word engine_A_AB TEXT_MIXED).
  - apply masks_well_formed_decide. apply (bool_decide_unpack _). by vm_compute.
  - reflexivity.
Defined.

(** X6. Masking a masked text changes nothing more. *)
Theorem mask_idempotent (self : Scrubber) (t : text) :
  masks_well_formed self -> mapping self !! [] = None ->
  _enc self (_enc self t) = _enc self t.
Proof. intros Hm Hn. by apply _enc_clean, _enc_output_clean. Qed.

Lemma mask_idempotent_witness :
  _enc engine_A_AB (_enc engine_A_AB TEXT_MIXED) = _enc engine_A_AB TEXT_MIXED.
Proof.
  apply (mask_idempotent engine_A_AB TEXT_MIXED).
  - apply masks_well_formed_decide. apply (bool_decide_unpack _). by vm_compute.
  - reflexivity.
Defined.

(** X7. A text in which no mapped word occurs outside its tokens is
    returned as it is, tokens included: what a token spells does not count,
    whatever the engine. *)
Theorem mask_without_words (self : Scrubber) (t : text) :
  parts_clean self t -> _enc self t = t.
Proof. apply _enc_clean. Qed.

Lemma occursb_spec (w t : text) : occurs w t -> occursb w t = true.
Proof.
  intros (pre & post & ->). unfold occursb. apply existsb_exists.
  exists (length pre). split.
  - apply in_seq. rewrite !length_app. lia.
  - rewrite drop_app_length. unfold is_prefix.
    by rewrite bool_decide_eq_true_2 by apply take_app_length.
Qed.

Lemma no_occurrence_decide (self : Scrubber) (t : text) :
  forallb (fun w => negb (occursb w t)) (keys (mapping self)) = true ->
  forall w, is_Some (mapping self !! w) -> ~ occurs w t.
Proof.
  intros H w Hw Hocc. rewrite forallb_forall in H.
  specialize (H w). rewrite (occursb_spec _ _ Hocc) in H.
  assert (negb true = true) as Hf; [|done].
  by apply H, list_elem_of_In, elem_of_keys.
Qed.

Lemma parts_clean_decide (self : Scrubber) (t : text) :
  forallb (fun p => forallb (fun w => negb (occursb w p)) (keys (mapping self)))
    (re_split mask_pat t) = true ->
  parts_clean self t.
Proof.
  intros H p w Hp Hw. rewrite forallb_forall in H.
  apply (no_occurrence_decide self p); [|done].
  by apply H, list_elem_of_In.
Qed.

Lemma mask_without_words_witness : _enc engine_A_AB TEXT_PLAIN = TEXT_PLAIN.
Proof.
  apply (mask_without_words engine_A_AB TEXT_PLAIN).
  apply parts_clean_decide. by vm_compute.
Defined.

(** X8. Unmasking a masked text gives what unmasking the text itself gives:
    [_dec] undoes every substitution of [_enc], whatever tokens the text
    held before. *)
Theorem unmask_after_mask (self : Scrubber) (t : text) :
  consistent self -> _dec self (_enc self t) = _dec self t.
Proof.
  intros Hc. destruct (decide (mapping self = ∅)) as [He|Hne].
  { unfold _enc. by rewrite bool_decide_eq_true_2. }
  induction t as [s Hf | a m b Hf Hm IH] using token_ind.
  - rewrite _enc_token_free by done.
    by rewrite _dec_enc_part, _dec_token_free.
  - rewrite _enc_app_token, !_dec_app_token by done.
    rewrite (_enc_token_free _ a), _dec_enc_part by done.
    by rewrite IH, (_dec_token_free _ a).
Qed.

Lemma consistent_decide (self : Scrubber) :
  map_Forall (fun w m => is_token m /\ reverse self !! m = Some w)
    (mapping self) ->
  consistent self.
Proof. intros H w m Hw. by apply (H w m). Qed.

Lemma unmask_after_mask_witness :
  _dec engine_A_AB (_enc engine_A_AB (lit "AB or [MASK_00000000]"))
  = _dec engine_A_AB (lit "AB or [MASK_00000000]").
Proof.
  apply (unmask_after_mask engine_A_AB).
  apply consistent_decide. apply (bool_decide_unpack _). by vm_compute.
Defined.

(** * Further properties of the snapshots *)

Lemma obj_get_two (k1 k2 : text) (v1 v2 dflt : json) :
  k1 <> k2 ->
  obj_get k1 [(k1, v1); (k2, v2)] dflt = v1
  /\ obj_get k2 [(k1, v1); (k2, v2)] dflt = v2.
Proof.
  intros Hne. unfold obj_get, obj_lookup. simpl.
  rewrite (bool_decide_eq_false_2 (k2 = k1)) by done.
  by rewrite !bool_decide_eq_true_2.
Qed.

(** Loading the snapshot of an engine [s0] into an engine [self]: the union
    of the dictionaries, in which the entries of [s0] win. *)
Lemma load_snapshot_of E path (s0 self : Scrubber) fs :
  fs !! path = Some (FJson (snapshot s0)) ->
  load E path self fs
  = Loaded {| mapping := mapping s0 ∪ mapping self;
              reverse := reverse s0 ∪ reverse self;
              json_paths := json_paths self |}.
Proof.
  intros Hfs.
  destruct (load_str_dicts E path self fs
              [(lit "mapping", JObj (str_members (mapping s0)));
               (lit "reverse", JObj (str_members (reverse s0)))])
    as (self' & -> & Hm & Hr & Hp).
  - done.
  - apply (str_members_is_str_dict (mapping s0)).
  - apply (str_members_is_str_dict (reverse s0)).
  - f_equal. destruct self' as [m r p]. simpl in *. f_equal; [| |done].
    + apply map_eq. intros k. rewrite Hm, lookup_union.
      change (snapshot_mapping _) with (str_members (mapping s0)).
      rewrite str_entry_str_members.
      destruct (mapping s0 !! k), (mapping self !! k); done.
    + apply map_eq. intros k. rewrite Hr, lookup_union.
      change (snapshot_reverse _) with (str_members (reverse s0)).
      rewrite str_entry_str_members.
      destruct (reverse s0 !! k), (reverse self !! k); done.
Qed.

(** X9. The snapshot that [save] writes for a document is the one that
    [auto_load] finds for that document, and loading it merges the saved
    dictionaries into the engine, the saved entries winning. *)
Theorem save_then_auto_load (E : env) (doc_path : text)
  (self other : Scrubber) (fs : files) :
  auto_load E doc_path other (save E doc_path self fs).2
  = (Some (Loaded {| mapping := mapping self ∪ mapping other;
                     reverse := reverse self ∪ reverse other;
                     json_paths := json_paths other |}),
     (save E doc_path self fs).1.1).
Proof.
  unfold auto_load, save. cbn [fst snd]. unfold files in *.
  rewrite lookup_insert_eq. f_equal. f_equal.
  apply load_snapshot_of. apply lookup_insert_eq.
Qed.

(** X10. Loading the snapshot that the engine has just saved changes nothing. *)
Theorem load_own_snapshot (E : env) (out_path : text) (self : Scrubber)
  (fs : files) :
  load E (save E out_path self fs).1.1 (save E out_path self fs).1.2
       (save E out_path self fs).2
  = Loaded (save E out_path self fs).1.2.
Proof.
  unfold save. cbn [fst snd].
  rewrite (load_snapshot_of _ _ self) by apply lookup_insert_eq.
  simpl. by rewrite !map_union_idemp.
Qed.

(** X11. Loading a valid snapshot a second time changes nothing. *)
Theorem load_twice (E : env) (path : text) (self self1 : Scrubber)
  (fs : files) (d : list (text * json)) :
  fs !! path = Some (FJson (JObj d)) ->
  valid_snapshot (JObj d) = true ->
  load E path self fs = Loaded self1 ->
  load E path self1 fs = Loaded self1.
Proof.
  intros Hfs [Hvm Hvr]%valid_snapshot_str_dicts Hl.
  destruct (load_str_dicts E path self fs d Hfs Hvm Hvr)
    as (s1 & Hl1 & Hm1 & Hr1 & Hp1).
  rewrite Hl in Hl1. injection Hl1 as <-.
  destruct (load_str_dicts E path self1 fs d Hfs Hvm Hvr)
    as (s2 & -> & Hm2 & Hr2 & Hp2).
  f_equal. destruct self1 as [m1 r1 p1], s2 as [m2 r2 p2]. simpl in *.
  f_equal; [| |done].
  - apply map_eq. intros k. rewrite Hm2, Hm1. by destruct (str_entry k _).
  - apply map_eq. intros k. rewrite Hr2, Hr1. by destruct (str_entry k _).
Qed.

Lemma load_twice_witness :
  exists self1,
    load posix (lit "m.json") engine_a files_bob = Loaded self1
    /\ load posix (lit "m.json") self1 files_bob = Loaded self1.
Proof.
  eexists. split; [reflexivity|].
  eapply (load_twice posix (lit "m.json") engine_a); reflexivity.
Defined.

(** X12. The reverse map of a snapshot may stand under the legacy name
    [reverse_mapping]; when both names are present, [reverse] is the one
    that is read. *)
Theorem load_legacy_reverse (E : env) (path : text) (self : Scrubber)
  (fs : files) (d : list (text * json)) (rm : list (text * json)) :
  fs !! path = Some (FJson (JObj d)) ->
  is_str_dict (obj_get (lit "mapping") d (JObj [])) = true ->
  is_str_dict (JObj rm) = true ->
  obj_lookup (lit "reverse") d = Some (JObj rm)
  \/ (obj_lookup (lit "reverse") d = None
      /\ obj_lookup (lit "reverse_mapping") d = Some (JObj rm)) ->
  exists self',
    load E path self fs = Loaded self'
    /\ forall k, reverse self' !! k = match str_entry k rm with
                                      | Some v => Some v
                                      | None => reverse self !! k
                                      end.
Proof.
  intros Hfs Hm Hrm Hcase.
  assert (obj_get (lit "reverse") d (obj_get (lit "reverse_mapping") d (JObj []))
          = JObj rm) as Hget.
  { unfold obj_get. destruct Hcase as [->|[-> ->]]; done. }
  destruct (load_str_dicts E path self fs d Hfs Hm) as (self' & Hl & _ & Hr & _).
  - by rewrite Hget.
  - exists self'. split; [done|]. intros k. rewrite Hr.
    unfold snapshot_reverse. by rewrite Hget.
Qed.

(** X13. [load] is not atomic: when the [mapping] member is an object of strings
    and the [reverse] member is a value that cannot be iterated, the
    exception is raised after [mapping] has been merged, and [reverse] is
    left as it was. *)
Theorem load_partial_update (E : env) (path : text) (self : Scrubber)
  (fs : files) (d : list (text * json)) (mm : list (text * json)) (r : json) :
  fs !! path = Some (FJson (JObj d)) ->
  obj_lookup (lit "mapping") d = Some (JObj mm) ->
  is_str_dict (JObj mm) = true ->
  obj_lookup (lit "reverse") d = Some r ->
  (r = JNull \/ (exists b, r = JBool b) \/ (exists n, r = JNum n)) ->
  exists self',
    load E path self fs = LoadRaised TypeError self'
    /\ (forall k, mapping self' !! k = match str_entry k mm with
                                       | Some v => Some v
                                       | None => mapping self !! k
                                       end)
    /\ reverse self' = reverse self
    /\ json_paths self' = json_paths self.
Proof.
  intros Hfs Hmm Hstr Hr Hkind. unfold load.
  rewrite (json_load_FJson _ _ _ _ Hfs). unfold obj_get. rewrite Hmm, Hr. simpl default.
  destruct (dict_update_str_dict (mapping self) mm Hstr) as (m' & -> & Hl).
  simpl reverse.
  destruct Hkind as [->|[[b ->]|[n ->]]]; simpl; eexists; split_and!; done.
Qed.

Lemma load_legacy_reverse_witness :
  exists self',
    load posix (lit "m.json") engine_a files_legacy = Loaded self'
    /\ reverse self' !! TOKEN_F = Some (lit "bob")
    /\ reverse self' !! TOKEN_0 = Some (lit "a").
Proof.
  destruct (load_legacy_reverse posix (lit "m.json") engine_a files_legacy
              [(lit "mapping", JObj [(lit "bob", JStr TOKEN_F)]);
               (lit "reverse_mapping", JObj [(TOKEN_F, JStr (lit "bob"))])]
              [(TOKEN_F, JStr (lit "bob"))])
    as (self' & Hl & Hr); [reflexivity | reflexivity | reflexivity | |].
  - right. split; reflexivity.
  - exists self'. split; [exact Hl|]. split; rewrite Hr; reflexivity.
Defined.

Lemma load_partial_update_witness :
  exists self',
    load posix (lit "m.json") engine_a files_half = LoadRaised TypeError self'
    /\ mapping self' !! lit "bob" = Some TOKEN_F
    /\ reverse self' !! TOKEN_F = None.
Proof.
  destruct (load_partial_update posix (lit "m.json") engine_a files_half
              [(lit "mapping", JObj [(lit "bob", JStr TOKEN_F)]);
               (lit "reverse", JNull)]
              [(lit "bob", JStr TOKEN_F)] JNull)
    as (self' & Hl & Hm & Hr & _);
    [reflexivity | reflexivity | reflexivity | reflexivity | by left |].
  exists self'. split; [exact Hl|]. split.
  - rewrite Hm. reflexivity.
  - rewrite Hr. reflexivity.
Defined.

(** * Further properties of [process] and the handlers *)

(** X14. [process] never changes the two dictionaries, and it appends to
    [json_paths] exactly the snapshot path that it returns: in unmask mode,
    and whenever it raises, the engine is left as it was. *)
Theorem process_engine (E : env) (src mode : text) (self : Scrubber)
  (fs : files) :
  mapping (process E src mode self fs).1.2 = mapping self
  /\ reverse (process E src mode self fs).1.2 = reverse self
  /\ json_paths (process E src mode self fs).1.2
     = json_paths self
       ++ match (process E src mode self fs).1.1 with
          | Ok (_, Some mp) => [mp]
          | _ => []
          end.
Proof.
  destruct (process_inv E src mode self fs)
    as [[e ->]|[(f' & _ & ->)|(f' & _ & ->)]]; simpl; by rewrite ?app_nil_r.
Qed.

(** X15. An existing file whose extension, in lower case, is not one of the four
    supported ones is rejected without anything being written: as a legacy
    format for [.doc], [.ppt] and [.xls], as unsupported otherwise. *)
Theorem process_rejects_format (E : env) (src mode : text) (self : Scrubber)
  (fs : files) :
  is_Some (fs !! src) -> ext_of E src ∉ SUPPORTED_EXT ->
  process E src mode self fs
  = (Raise (if bool_decide (ext_of E src ∈ LEGACY_EXT)
            then LegacyFormat (ext_of E src)
            else UnsupportedFormat (ext_of E src)), self, fs).
Proof.
  intros [f Hf] Hext. unfold process, ext_of, SUPPORTED_EXT, LEGACY_EXT in *.
  rewrite Hf.
  repeat (rewrite bool_decide_eq_false_2;
          [|intros Heq; apply Hext; rewrite Heq; set_solver]).
  by destruct (bool_decide _).
Qed.

Lemma process_rejects_format_witness :
  process posix (lit "old.DOC") ENC engine_A_AB files_legacy_doc
  = (Raise (LegacyFormat (lit ".doc")), engine_A_AB, files_legacy_doc).
Proof.
  apply (process_rejects_format posix (lit "old.DOC") ENC engine_A_AB
           files_legacy_doc).
  - eexists. reflexivity.
  - apply (bool_decide_unpack _). by vm_compute.
Defined.

Lemma _dec_nil self : _dec self [] = [].
Proof. done. Qed.

Lemma concat_imap_nil {A B} (f : nat -> A -> list B) (l : list A) :
  (forall i x, f i x = []) -> concat (imap f l) = [].
Proof.
  revert f. induction l as [|x l IH]; intros f Hf; [done|].
  simpl. rewrite Hf. apply IH. intros i y. apply Hf.
Qed.

Lemma fix_runs_concat (fn : text -> text) (runs : paragraph) :
  length (fix_runs fn runs) = length runs
  /\ (runs <> [] \/ fn [] = [] -> concat (fix_runs fn runs) = fn (concat runs)).
Proof.
  unfold fix_runs. split.
  - case_bool_decide; [done|].
    case_bool_decide; by rewrite ?length_imap, length_map.
  - intros Hne. case_bool_decide as Hsame; [done|].
    case_bool_decide as Hdiff.
    + destruct runs as [|r runs].
      * destruct Hne as [?|Hnil]; [done|]. simpl in Hsame. by rewrite Hnil in Hsame.
      * simpl. rewrite concat_imap_nil by done. by rewrite app_nil_r.
    + by destruct (decide (concat (map fn runs) = fn (concat runs))).
Qed.

(** X16. The loop body of [fix_tf] keeps the number of runs of a paragraph
    of a presentation, and the runs of the result spell the transformed
    text of the paragraph, provided there is a run to hold it (or the
    transform of the empty text is empty). *)
Theorem fix_runs_text (fn : text -> text) (runs : paragraph) :
  length (fix_runs fn runs) = length runs
  /\ (runs <> [] \/ fn [] = [] -> concat (fix_runs fn runs) = fn (concat runs)).
Proof. apply fix_runs_concat. Qed.

Lemma fix_runs_text_witness :
  concat (fix_runs (_enc engine_A_AB) [lit "A"; lit "B met"; lit " A"])
  = _enc engine_A_AB (concat [lit "A"; lit "B met"; lit " A"]).
Proof.
  apply (fix_runs_text (_enc engine_A_AB) [lit "A"; lit "B met"; lit " A"]).
  by left.
Defined.

(** X17. In a presentation, masking the runs of a paragraph with [fix_tf] and
    unmasking the result restores the text of the paragraph (not its
    division into runs), when the dictionaries agree and the paragraph holds
    no token that the engine already knows. *)
Theorem paragraph_roundtrip (self : Scrubber) (runs : paragraph) :
  consistent self -> tokens_unknown self (concat runs) ->
  concat (fix_runs (_dec self) (fix_runs (_enc self) runs)) = concat runs.
Proof.
  intros Hc Hun.
  rewrite (proj2 (fix_runs_concat (_dec self) _)) by (by right).
  destruct runs as [|r runs].
  - unfold fix_runs. simpl. case_bool_decide; [done|]. by case_bool_decide.
  - rewrite (proj2 (fix_runs_concat (_enc self) _)) by (by left).
    by apply _dec_enc_consistent.
Qed.

Lemma paragraph_roundtrip_witness :
  concat (fix_runs (_dec engine_A_AB)
            (fix_runs (_enc engine_A_AB) [lit "A"; lit "B met"; lit " A"]))
  = concat [lit "A"; lit "B met"; lit " A"].
Proof.
  apply (paragraph_roundtrip engine_A_AB [lit "A"; lit "B met"; lit " A"]).
  - apply consistent_decide. apply (bool_decide_unpack _). by vm_compute.
  - intros m Hin. vm_compute in Hin. by apply elem_of_nil in Hin.
Defined.

Lemma paragraph_text_runs (rs : list text) :
  paragraph_text (map Run rs) = concat rs.
Proof.
  unfold paragraph_text. rewrite map_map. simpl. by rewrite map_id.
Qed.

Lemma map_runs_runs (f : text -> text) (rs : list text) :
  map_runs f (map Run rs) = map Run (map f rs).
Proof. unfold map_runs. by rewrite !map_map. Qed.

Lemma first_run_runs (new : text) (rs : list text) :
  first_run new (map Run rs)
  = map Run (imap (fun i _ => match i with O => new | S _ => [] end) rs).
Proof.
  destruct rs as [|r rs]; [done|]. simpl. f_equal.
  rewrite map_runs_runs. f_equal.
  induction rs as [|r' rs IH]; [done|]. simpl. f_equal. apply IH.
Qed.

(** On a paragraph that consists of runs, [fix] is the loop body of
    [fix_tf]. *)
Lemma fix_paragraph_runs (fn : text -> text) (rs : list text) :
  fix_paragraph fn (map Run rs) = map Run (fix_runs fn rs).
Proof.
  unfold fix_paragraph, fix_runs.
  rewrite map_runs_runs, !paragraph_text_runs, first_run_runs.
  case_bool_decide; [done|]. by case_bool_decide.
Qed.

Lemma map_runs_links (f : text -> text) (p : docx_paragraph) :
  map link_of (map_runs f p) = map link_of p.
Proof.
  unfold map_runs. rewrite map_map. apply map_ext. by intros [t|t].
Qed.

Lemma first_run_links (new : text) (p : docx_paragraph) :
  map link_of (first_run new p) = map link_of p.
Proof.
  induction p as [|[t|t] p IH]; simpl; [done | | by rewrite IH].
  by rewrite map_runs_links.
Qed.

Lemma fix_paragraph_fixed (fn : text -> text) (p : docx_paragraph) :
  docx_fixed fn p (fix_paragraph fn p).
Proof.
  split.
  - unfold fix_paragraph. case_bool_decide; [done|].
    case_bool_decide; by rewrite ?first_run_links, map_runs_links.
  - intros rs -> Hne. rewrite fix_paragraph_runs, paragraph_text_runs.
    apply fix_runs_concat. by left.
Qed.

(** X18. On a document that the library opens, [_handle_docx] writes a
    document with the same paragraphs and tables, item for item, in which
    every hyperlink is as it was, and the text of every paragraph that
    consists of runs, at least one, is the transformed text: the text of a
    hyperlink is never given to the transform on its own and never
    replaced. *)
Theorem handle_docx_texts (E : env) (src dst : text) (fn : text -> text)
  (fs : files) (d : docx) :
  DOCX_OK E = true -> fs !! src = Some (FDocx d) ->
  exists d',
    _handle_docx E src dst fn fs = Ok (<[dst := FDocx d']> fs)
    /\ Forall2 (docx_fixed fn) (docx_paragraphs d) (docx_paragraphs d')
    /\ Forall2 (Forall2 (Forall2 (Forall2 (docx_fixed fn))))
         (docx_tables d) (docx_tables d').
Proof.
  intros Hok Hsrc. unfold _handle_docx, open_with. rewrite Hok, Hsrc. simpl.
  eexists. split; [done|]. simpl.
  assert (forall ps : list docx_paragraph,
    Forall2 (docx_fixed fn) ps (map (fix_paragraph fn) ps)) as Hps.
  { intros ps. apply Forall2_fmap_r, Forall_Forall2_diag, Forall_forall.
    intros p _. apply fix_paragraph_fixed. }
  split; [apply Hps|].
  apply Forall2_fmap_r, Forall_Forall2_diag, Forall_forall. intros t _.
  unfold fix_docx_table.
  apply Forall2_fmap_r, Forall_Forall2_diag, Forall_forall. intros row _.
  apply Forall2_fmap_r, Forall_Forall2_diag, Forall_forall. intros c _.
  apply Hps.
Qed.

Lemma handle_docx_texts_witness :
  exists p1 p2 p3 ts,
    _handle_docx posix (lit "n.docx") (lit "out.docx") (_enc engine_A_AB)
      files_docx
    = Ok (<[lit "out.docx" :=
              FDocx {| docx_paragraphs := [p1; p2; p3]; docx_tables := ts |}]>
            files_docx)
    /\ paragraph_text p1 = _enc engine_A_AB (lit "AB met A")
    /\ map link_of p2 = [None; Some (lit "AB")].
Proof.
  destruct (handle_docx_texts posix (lit "n.docx") (lit "out.docx")
              (_enc engine_A_AB) files_docx docx_note)
    as (d' & Hh & Hp & _); [reflexivity | reflexivity |].
  destruct d' as [ps ts]. simpl in Hp.
  apply Forall2_cons_inv_l in Hp as (p1 & ps1 & [_ H1] & Hp & ->).
  apply Forall2_cons_inv_l in Hp as (p2 & ps2 & [H2 _] & Hp & ->).
  apply Forall2_cons_inv_l in Hp as (p3 & ps3 & _ & Hp & ->).
  apply Forall2_nil_inv_l in Hp as ->.
  exists p1, p2, p3, ts. split; [exact Hh|]. split; [|exact H2].
  by apply (H1 [lit "A"; lit "B met"; lit " A"]).
Defined.

(** The text of a hyperlink stays in the masked document, and with it the
    word it holds; the masked text of the whole paragraph goes into the
    first run, before it. *)
Example hyperlink_example :
  fix_paragraph (_enc engine_A_AB)
    [Run (lit "see "); Hyperlink (lit "AB"); Run (lit " now")]
  = [Run (lit "see [MASK_00000001] now"); Hyperlink (lit "AB"); Run []].
Proof. by vm_compute. Qed.

Lemma map_fixed {A} (f : A -> A) (l : list A) :
  (forall x, x ∈ l -> f x = x) -> map f l = l.
Proof.
  induction l as [|x l IH]; intros H; [done|]. simpl.
  rewrite H by apply list_elem_of_here. f_equal. apply IH.
  intros y Hy. apply H. by right.
Qed.

(** X19. Masking every text cell of a workbook and unmasking the result gives
    the workbook back, when the engine's dictionaries agree and no cell holds
    a token that the engine already knows. *)
Theorem xlsx_roundtrip (self : Scrubber) (wb : xlsx) :
  consistent self ->
  (forall v, CStr v ∈ cells_of wb -> tokens_unknown self v) ->
  map (map (map (fix_cell (_dec self))))
      (map (map (map (fix_cell (_enc self)))) wb) = wb.
Proof.
  intros Hc Hun. unfold cells_of in Hun.
  rewrite map_map. apply map_fixed. intros ws Hws.
  rewrite map_map. apply map_fixed. intros row Hrow.
  rewrite map_map. apply map_fixed. intros c Hcell.
  destruct c as [v|]; [|done]. simpl. f_equal.
  apply _dec_enc_consistent; [done|]. apply Hun.
  apply list_elem_of_In, in_concat. exists row.
  split; [|by apply list_elem_of_In].
  apply in_concat. exists ws. split; by apply list_elem_of_In.
Qed.

Lemma xlsx_roundtrip_witness :
  map (map (map (fix_cell (_dec engine_A_AB))))
      (map (map (map (fix_cell (_enc engine_A_AB)))) xlsx_note) = xlsx_note.
Proof.
  apply (xlsx_roundtrip engine_A_AB xlsx_note).
  - apply consistent_decide. apply (bool_decide_unpack _). by vm_compute.
  - intros v Hv m Hm. vm_compute in Hv.
    apply elem_of_cons in Hv as [Hv|Hv].
    + injection Hv as ->. vm_compute in Hm. by apply elem_of_nil in Hm.
    + apply elem_of_cons in Hv as [Hv|Hv]; [discriminate|].
      by apply elem_of_nil in Hv.
Defined.

(** What [process] does with a text file. *)
Lemma process_txt E src mode self (fs : files) c :
  fs !! src = Some (FText c) -> ext_of E src = lit ".txt" ->
  process E src mode self fs
  = let dst := dst_path E src mode in
    let out := write_newlines E
                 ((if is_enc mode then _enc self else _dec self)
                    (universal_newlines c)) in
    let fs' := <[dst := FText out]> fs in
    if is_enc mode
    then (Ok (dst, Some (mapping_path E dst)),
          {| mapping := mapping self; reverse := reverse self;
             json_paths := json_paths self ++ [mapping_path E dst] |},
          <[mapping_path E dst := FJson (snapshot self)]> fs')
    else (Ok (dst, None), self, fs').
Proof.
  intros Hsrc Hext. unfold process, ext_of in *. rewrite Hsrc, Hext.
  unfold _handle_txt. rewrite Hsrc. simpl.
  by destruct (is_enc mode).
Qed.

(** What is read in text mode holds no carriage return, a text without one
    is read as it is, and it is read back as it was written, where
    [os.linesep] is one of the two line ends that reading translates. *)
Lemma universal_newlines_no_cr s :
  Forall (fun c => c <> 13%N) (universal_newlines s).
Proof.
  remember (length s) as n eqn:Hn. revert s Hn.
  induction (lt_wf n) as [n _ IH]. intros s ->.
  destruct s as [|c r]; simpl; [constructor|].
  destruct (N.eqb_spec c 13) as [->|Hc].
  - constructor; [done|]. destruct r as [|c' r']; [constructor|].
    destruct (c' =? 10)%N; (eapply IH; [|reflexivity]); simpl; lia.
  - constructor; [done|]. eapply IH; [|reflexivity]. simpl. lia.
Qed.

Lemma universal_newlines_cons c s :
  c <> 13%N -> universal_newlines (c :: s) = c :: universal_newlines s.
Proof. intros Hc. simpl. by destruct (N.eqb_spec c 13). Qed.

Lemma universal_newlines_id s :
  Forall (fun c => c <> 13%N) s -> universal_newlines s = s.
Proof.
  induction 1 as [|c r Hc _ IH]; [done|].
  by rewrite universal_newlines_cons, IH.
Qed.

Lemma write_newlines_cons E c s :
  write_newlines E (c :: s)
  = (if (c =? 10)%N then linesep E else [c]) ++ write_newlines E s.
Proof. done. Qed.

Lemma read_written E t :
  linesep E = [10%N] \/ linesep E = [13%N; 10%N] ->
  Forall (fun c => c <> 13%N) t ->
  universal_newlines (write_newlines E t) = t.
Proof.
  intros Hsep. induction 1 as [|c r Hc _ IH]; [done|].
  rewrite write_newlines_cons.
  destruct (N.eqb_spec c 10) as [->|Hn].
  - destruct Hsep as [Hs|Hs]; rewrite Hs.
    + change ([10%N] ++ ?x) with (10%N :: x).
      by rewrite universal_newlines_cons, IH.
    + change (universal_newlines ([13%N; 10%N] ++ ?x))
        with (10%N :: universal_newlines x).
      by rewrite IH.
  - change ([c] ++ ?x) with (c :: x).
    by rewrite universal_newlines_cons, IH.
Qed.

(** A token holds no carriage return. *)
Lemma is_token_no_cr m : is_token m -> Forall (fun c => c <> 13%N) m.
Proof.
  intros Hm. apply Forall_forall. intros x Hx ->.
  apply list_elem_of_lookup in Hx as [i Hi].
  assert (i < 15) as Hlt.
  { apply lookup_lt_Some in Hi. by rewrite (is_token_length _ Hm) in Hi. }
  unfold is_token, mask_pat in Hm.
  destruct (match_classes MASK_CLASSES m) eqn:Hc; [|done].
  destruct (lookup_lt_is_Some_2 MASK_CLASSES i) as [cls Hcls];
    [by rewrite mask_classes_length|].
  destruct (match_classes_lookup _ _ _ _ Hc Hcls) as (x & Hx & Hclass).
  rewrite Hi in Hx. injection Hx as <-.
  assert (forallb (fun cls : char_class => negb (cls 13%N)) MASK_CLASSES = true)
    as Hall by (by vm_compute).
  rewrite forallb_forall in Hall.
  specialize (Hall cls). rewrite Hclass in Hall.
  assert (negb true = true) as Hf; [|done].
  apply Hall, list_elem_of_In. by eapply list_elem_of_lookup_2.
Qed.

(** [_enc] brings in no character other than those of the masks. *)
Section KeptChars.
Variable self : Scrubber.
Variable P : N -> Prop.
Hypothesis Hmasks : forall w m, mapping self !! w = Some m -> Forall P m.

Lemma enc_out_Forall b s : Forall P s -> Forall P (enc_out self b s).
Proof using Hmasks.
  revert b s.
  apply (scan_ind (fun b s => Forall P s -> Forall P (enc_out self b s))).
  intros b s IH Hs.
  destruct (word_pat (enc_words self) b s) as [w|] eqn:Hm.
  - rewrite (out_hit _ _ _ _ Hm). apply Forall_app. split.
    + pose proof (word_pat_Some _ _ _ _ Hm) as (Hin & _).
      apply elem_of_sorted_by_len_desc, elem_of_keys in Hin as [m Hw].
      unfold enc_repl. rewrite Hw. simpl. by eapply Hmasks.
    + apply IH; [|by apply Forall_drop].
      pose proof (word_pat_Some _ _ _ _ Hm) as (_ & _ & Hadv).
      pose proof (proj1 (word_pat_good (enc_words self)) _ _ _ Hm) as Hlen.
      unfold weight. rewrite length_drop.
      case_bool_decide as Hnil.
      * subst w. simpl. destruct b; [by destruct Hadv | lia].
      * destruct w; [done|]. simpl in *. destruct b; lia.
  - destruct s as [|c s]; [by rewrite (out_nil _ _ Hm)|].
    rewrite (out_lit _ _ _ _ Hm).
    apply Forall_cons in Hs as [Hc Hs]. constructor; [done|].
    apply IH; [unfold weight; simpl; destruct b; lia | done].
Qed.

Lemma _enc_Forall t : Forall P t -> Forall P (_enc self t).
Proof using Hmasks.
  destruct (decide (mapping self = ∅)) as [He|Hne].
  { unfold _enc. by rewrite bool_decide_eq_true_2. }
  induction t as [s Hf | a m b Hf Hm IH] using token_ind; intros Ht.
  - rewrite _enc_token_free by done. by apply enc_out_Forall.
  - rewrite _enc_app_token by done.
    apply Forall_app in Ht as [Ha [Hm' Hb]%Forall_app].
    rewrite !Forall_app. split_and!; [|done|by apply IH].
    rewrite _enc_token_free by done. by apply enc_out_Forall.
Qed.
End KeptChars.

(** X20. Masking a text file and unmasking the file that was written gives
    a file with the text of the first, its line ends read as [\n] and
    written as [os.linesep]: the original itself where it holds no carriage
    return and [os.linesep] is [\n].  The dictionaries must agree, the text
    read must hold no token that the engine already knows, [os.linesep]
    must be [\n] or [\r\n], and the path functions must derive [.txt] names
    for the outputs and give the snapshot a path other than the
    document's. *)
Theorem text_file_roundtrip (E : env) (src : text) (self : Scrubber)
  (fs : files) (c : text) :
  consistent self -> tokens_unknown self (universal_newlines c) ->
  linesep E = [10%N] \/ linesep E = [13%N; 10%N] ->
  fs !! src = Some (FText c) ->
  ext_of E src = lit ".txt" ->
  ext_of E (dst_path E src ENC) = lit ".txt" ->
  mapping_path E (dst_path E src ENC) <> dst_path E src ENC ->
  let masked := dst_path E src ENC in
  let r1 := process E src ENC self fs in
  let r2 := process E masked DEC r1.1.2 r1.2 in
  r1.1.1 = Ok (masked, Some (mapping_path E masked))
  /\ r1.2 !! masked
     = Some (FText (write_newlines E (_enc self (universal_newlines c))))
  /\ r2.1.1 = Ok (dst_path E masked DEC, None)
  /\ r2.2 !! dst_path E masked DEC
     = Some (FText (write_newlines E (universal_newlines c)))
  /\ (linesep E = [10%N] -> Forall (fun x => x <> 13%N) c ->
      r2.2 !! dst_path E masked DEC = Some (FText c)).
Proof.
  intros Hc Hun Hsep Hsrc Hext Hext' Hmp masked r1 r2.
  assert (r1 = (Ok (masked, Some (mapping_path E masked)),
                {| mapping := mapping self; reverse := reverse self;
                   json_paths := json_paths self ++ [mapping_path E masked] |},
                <[mapping_path E masked := FJson (snapshot self)]>
                  (<[masked := FText (write_newlines E
                                        (_enc self (universal_newlines c)))]>
                     fs))) as Hr1.
  { unfold r1. by rewrite (process_txt _ _ _ _ _ c). }
  assert (r1.2 !! masked
          = Some (FText (write_newlines E (_enc self (universal_newlines c)))))
    as Hmasked.
  { rewrite Hr1. simpl. unfold files in *.
    rewrite lookup_insert_ne by done. apply lookup_insert_eq. }
  assert (r2.2 !! dst_path E masked DEC
          = Some (FText (write_newlines E (universal_newlines c)))) as Hback.
  { unfold r2. rewrite (process_txt _ _ _ _ _ _ Hmasked Hext'). simpl.
    unfold files in *. rewrite lookup_insert_eq. do 3 f_equal.
    rewrite read_written; [| done |].
    - rewrite Hr1. simpl.
      change (_dec _ (_enc self ?t)) with (_dec self (_enc self t)).
      by apply _dec_enc_consistent.
    - apply _enc_Forall; [|apply universal_newlines_no_cr].
      intros w m Hw. apply is_token_no_cr. by apply (Hc w m). }
  split_and!; [by rewrite Hr1 | done | | done |].
  - unfold r2. by rewrite (process_txt _ _ _ _ _ _ Hmasked Hext').
  - intros Hlf Hcr. rewrite Hback, universal_newlines_id by done.
    do 2 f_equal. clear -Hlf. induction c as [|x c IH]; [done|].
    rewrite write_newlines_cons, Hlf, IH.
    by destruct (N.eqb_spec x 10) as [->|_].
Qed.

Lemma text_file_roundtrip_witness :
  (process posix (dst_path posix (lit "note.txt") ENC) DEC
     (process posix (lit "note.txt") ENC engine_A_AB files_crlf).1.2
     (process posix (lit "note.txt") ENC engine_A_AB files_crlf).2).2
  !! dst_path posix (dst_path posix (lit "note.txt") ENC) DEC
  = Some (FText (lit "AB met A" ++ [10%N] ++ lit "end")).
Proof.
  apply (text_file_roundtrip posix (lit "note.txt") engine_A_AB files_crlf
           TEXT_CRLF).
  - apply consistent_decide. apply (bool_decide_unpack _). by vm_compute.
  - intros m Hin. vm_compute in Hin. by apply elem_of_nil in Hin.
  - by left.
  - reflexivity.
  - reflexivity.
  - by vm_compute.
  - by vm_compute.
Defined.

(** * Further properties of [batch] *)

Lemma batch_loop_json_paths E mode cb total i fps w results res' w' :
  batch_loop E mode cb total i fps w results = (Ok res', w') ->
  exists new, res' = results ++ new
    /\ json_paths (scrub w')
       = json_paths (scrub w) ++ omap snapshot_path new.
Proof.
  revert i w results res' w'.
  induction fps as [|fp rest IH]; intros i w results res' w'.
  - simpl. intros [= <- <-]. exists []. by rewrite !app_nil_r.
  - pose proof (process_json_paths E fp mode (scrub w) (fs w)) as Hj.
    destruct (batch_loop_step E mode cb total i fp rest w results)
      as (log & extra & Hextra & [[e ->] | ->]); [done|].
    intros Hl. apply IH in Hl as (new & -> & ->).
    exists (entry fp (process E fp mode (scrub w) (fs w)).1.1 :: extra ++ new).
    split; [by rewrite <- app_assoc|].
    cbn [scrub]. rewrite Hj, <- app_assoc. f_equal.
    change (?a :: extra ++ new) with ([a] ++ extra ++ new).
    by rewrite !omap_app, Hextra.
Qed.

Lemma build_step_json_paths uuid4 st w :
  json_paths (build_step uuid4 st w).1 = json_paths st.1.
Proof. unfold build_step. by destruct (_ && _). Qed.

Lemma build_json_paths uuid4 words st :
  json_paths (build uuid4 words st).1 = json_paths st.1.
Proof.
  revert st. induction words as [|w words IH]; intros st; [done|].
  rewrite build_cons, IH. apply build_step_json_paths.
Qed.

Lemma batch_loop_progress E mode f total i fps w :
  quiet (Some f) ->
  progress (batch_loop E mode (Some f) total i fps w []).2
  = progress w
    ++ events_of E total i
         (results_of (batch_loop E mode (Some f) total i fps w []).1).
Proof.
  intros Hq. revert i w. induction fps as [|fp rest IH]; intros i w.
  - simpl. by rewrite app_nil_r.
  - rewrite batch_loop_cons, batch_loop_acc by done. simpl fst. simpl snd.
    rewrite IH. simpl progress. rewrite <- app_assoc. f_equal.
    simpl. unfold events_of. simpl. f_equal.
    + rewrite Nat.add_0_r.
      by destruct (process E fp mode (scrub w) (fs w)) as [[[[out mp]|e] ?] ?].
    + apply imap_ext. intros k r _. simpl.
      by replace (i + S k) with (S (i + k)) by lia.
Qed.

(** X21. No file's processing touches the dictionaries or draws a UUID: after
    [batch], whether it returned or the callback made it raise, the two
    dictionaries and the number of UUIDs drawn are those with which its
    loop started, that is, those [build] left in mask mode and those at the
    call in unmask mode. *)
Theorem batch_keeps_dictionaries (E : env) (uuid4 : nat -> N)
  (fps words : list text) (mode : text) (cb : option callback) (w : world) :
  let w0 := batch_start uuid4 words mode w in
  let w' := (batch E uuid4 fps words mode cb w).2 in
  mapping (scrub w') = mapping (scrub w0)
  /\ reverse (scrub w') = reverse (scrub w0)
  /\ uuid_calls w' = uuid_calls w0
  /\ (is_enc mode = false ->
      mapping (scrub w') = mapping (scrub w)
      /\ reverse (scrub w') = reverse (scrub w)
      /\ uuid_calls w' = uuid_calls w).
Proof.
  intros w0 w'. unfold w', w0. rewrite batch_unfold.
  destruct (batch_loop_engine E mode cb (length fps) 0 fps
              (batch_start uuid4 words mode w) []) as (Hm & Hr & Hu).
  split_and!; [done..|].
  intros Hdec. rewrite Hm, Hr, Hu. unfold batch_start. by rewrite Hdec.
Qed.

(** X22. [batch] creates and overwrites files but removes none: a path that
    holds a file before the call holds one afterwards, whatever the mode,
    the outcome of the files and the callback. *)
Theorem batch_removes_nothing (E : env) (uuid4 : nat -> N)
  (fps words : list text) (mode : text) (cb : option callback) (w : world)
  (p : text) :
  is_Some (fs w !! p) ->
  is_Some (fs (batch E uuid4 fps words mode cb w).2 !! p).
Proof.
  intros Hp. rewrite batch_unfold. apply batch_loop_keeps_files.
  unfold batch_start. by destruct (is_enc mode).
Qed.

Lemma batch_removes_nothing_witness :
  is_Some (fs (batch posix uuid_counting
                 [lit "a.txt"; lit "b.docx"; lit "c.txt"] [lit "bob"] ENC
                 (Some cb_raises) world_batch).2 !! lit "b.docx").
Proof.
  apply (batch_removes_nothing posix uuid_counting
           [lit "a.txt"; lit "b.docx"; lit "c.txt"] [lit "bob"] ENC
           (Some cb_raises) world_batch (lit "b.docx")).
  eexists. reflexivity.
Defined.

(** X23. When [batch] returns, the snapshot paths it has appended to
    [json_paths] are exactly those of the result list, in its order; this
    holds also when the callback raised on some successes. *)
Theorem batch_json_paths (E : env) (uuid4 : nat -> N) (fps words : list text)
  (mode : text) (cb : option callback) (w : world) (results : list outcome) :
  (batch E uuid4 fps words mode cb w).1 = Ok results ->
  json_paths (scrub (batch E uuid4 fps words mode cb w).2)
  = json_paths (scrub w) ++ omap snapshot_path results.
Proof.
  rewrite batch_unfold. intros Hres.
  destruct (batch_loop E mode cb (length fps) 0 fps
              (batch_start uuid4 words mode w) []) as [r w'] eqn:Hl.
  simpl in Hres. subst r.
  apply batch_loop_json_paths in Hl as (new & [= ->] & Hj).
  cbn [snd]. rewrite Hj. f_equal.
  unfold batch_start. destruct (is_enc mode); [|done].
  apply build_json_paths.
Qed.

Lemma batch_json_paths_witness :
  json_paths (scrub (batch posix uuid_counting
                       [lit "a.txt"; lit "b.docx"; lit "c.txt"] [lit "bob"]
                       ENC (Some cb_raises_on_done) world_batch).2)
  = [lit "./a" ++ SUFFIX_ENC ++ MAPPING_SUFFIX;
     lit "./c" ++ SUFFIX_ENC ++ MAPPING_SUFFIX].
Proof.
  rewrite (batch_json_paths posix uuid_counting
             [lit "a.txt"; lit "b.docx"; lit "c.txt"] [lit "bob"] ENC
             (Some cb_raises_on_done) world_batch
             (results_of (batch posix uuid_counting
                            [lit "a.txt"; lit "b.docx"; lit "c.txt"]
                            [lit "bob"] ENC (Some cb_raises_on_done)
                            world_batch).1)); by vm_compute.
Defined.

(** X24. A callback that returns is called once for each file, in the order
    of the files, with the one-based position of the file, the number of
    files, the base name of the file and the tag of its outcome. *)
Theorem batch_progress (E : env) (uuid4 : nat -> N) (fps words : list text)
  (mode : text) (f : callback) (w : world) :
  quiet (Some f) ->
  progress (batch E uuid4 fps words mode (Some f) w).2
  = progress w
    ++ events_of E (length fps) 0
         (results_of (batch E uuid4 fps words mode (Some f) w).1).
Proof.
  intros Hq. rewrite batch_unfold, batch_loop_progress by done. f_equal.
  unfold batch_start. by destruct (is_enc mode).
Qed.

Lemma batch_progress_witness :
  progress (batch posix uuid_counting [lit "a.txt"; lit "b.docx"; lit "c.txt"]
              [lit "bob"] ENC (Some cb_returns) world_batch).2
  = [(1, 3, lit "a.txt", Done); (2, 3, lit "b.docx", Failed);
     (3, 3, lit "c.txt", Done)].
Proof.
  rewrite (batch_progress posix uuid_counting
             [lit "a.txt"; lit "b.docx"; lit "c.txt"] [lit "bob"] ENC
             cb_returns world_batch); [by vm_compute|].
  intros ev. reflexivity.
Defined.

(** * The file list of a drop zone *)

Lemma unselected_from_none {A} k sel (l : list A) :
  (forall s, s ∈ sel -> s < k) -> FileList.unselected_from k sel l = l.
Proof.
  revert k. induction l as [|x l IH]; intros k Hs; [done|]. simpl.
  rewrite bool_decide_eq_false_2; [|intros Hin; apply Hs in Hin; lia].
  f_equal. apply IH. intros s Hin. apply Hs in Hin. lia.
Qed.

(** Deleting the greatest selected index first leaves the other selected
    indices where they are. *)
Lemma unselected_from_last {A} k i sel (l : list A) :
  (forall s, s ∈ sel -> s < k + i) ->
  FileList.unselected_from k (sel ++ [k + i]) l
  = FileList.unselected_from k sel (delete i l).
Proof.
  revert k i. induction l as [|x l IH]; intros k i Hs; [done|].
  destruct i as [|i]; simpl.
  - rewrite Nat.add_0_r in *.
    rewrite bool_decide_eq_true_2 by set_solver.
    rewrite !unselected_from_none; [done|done|].
    intros s [Hin| ->%list_elem_of_singleton]%elem_of_app; [|lia].
    apply Hs in Hin. lia.
  - replace (k + S i) with (S k + i) in * by lia.
    destruct (decide (k ∈ sel)) as [Hk|Hk].
    + rewrite !bool_decide_eq_true_2 by set_solver. by apply IH.
    + rewrite !bool_decide_eq_false_2; [|done|].
      * f_equal. by apply IH.
      * intros [Hin|Hin%list_elem_of_singleton]%elem_of_app; [done|lia].
Qed.

Lemma unselected_from_sublist {A} k sel (l : list A) :
  FileList.unselected_from k sel l `sublist_of` l.
Proof.
  revert k. induction l as [|x l IH]; intros k; simpl; [done|].
  destruct (bool_decide _); [apply sublist_cons | apply sublist_skip]; apply IH.
Qed.

Lemma unselected_from_Forall {A} (P : A -> Prop) k sel (l : list A) :
  Forall P l -> Forall P (FileList.unselected_from k sel l).
Proof.
  intros H. revert k. induction H as [|x l Hx _ IH]; intros k; simpl; [done|].
  destruct (bool_decide _); [apply IH | constructor; [done | apply IH]].
Qed.

Lemma unselected_from_map {A B} (f : A -> B) k sel (l : list A) :
  FileList.unselected_from k sel (map f l)
  = map f (FileList.unselected_from k sel l).
Proof.
  revert k. induction l as [|x l IH]; intros k; simpl; [done|].
  destruct (bool_decide _); simpl; by rewrite IH.
Qed.

Lemma StronglySorted_snoc_inv (sel : list nat) i :
  StronglySorted lt (sel ++ [i]) ->
  StronglySorted lt sel /\ forall s, s ∈ sel -> s < i.
Proof.
  induction sel as [|a sel IH]; simpl.
  - intros _. split; [constructor|]. by intros s ?%elem_of_nil.
  - intros H. apply StronglySorted_inv in H as [Hs Ha].
    destruct (IH Hs) as [Hs' Hlt]. split.
    + constructor; [done|]. by apply Forall_app in Ha as [Ha _].
    + intros s [->|Hin]%elem_of_cons; [|by apply Hlt].
      rewrite Forall_app, Forall_singleton in Ha. by destruct Ha.
Qed.

(** The loop of [_del] over an ascending selection of valid indices. *)
Lemma _del_unselected sel (self : FileList.t) :
  length (FileList.files self) = length (FileList.lb self) ->
  FileList.valid_selection sel self ->
  FileList._del sel self
  = FileList.Deleted
      {| FileList.files := FileList.unselected sel (FileList.files self);
         FileList.lb := FileList.unselected sel (FileList.lb self) |}.
Proof.
  unfold FileList._del, FileList.valid_selection, FileList.unselected.
  revert self. induction sel as [|i sel IH] using rev_ind; intros [fl rows];
    simpl; intros Hlen [Hs Hv].
  - by rewrite !unselected_from_none by (by intros s ?%elem_of_nil).
  - apply StronglySorted_snoc_inv in Hs as [Hs Hlt].
    rewrite Forall_app, Forall_singleton in Hv. destruct Hv as [Hv Hi].
    rewrite rev_unit. simpl.
    rewrite bool_decide_eq_true_2 by lia.
    rewrite IH; simpl.
    + by rewrite <- !(unselected_from_last 0 i).
    + rewrite !length_delete; [lia | | ]; apply lookup_lt_is_Some; lia.
    + split; [done|]. apply Forall_forall. intros s Hin.
      rewrite length_delete by (apply lookup_lt_is_Some; lia).
      apply Hlt in Hin. lia.
Qed.

Lemma _add_ok E path (self : FileList.t) :
  FileList.listed_ok E self -> FileList.listed_ok E (FileList._add E path self).
Proof.
  intros (Hnd & Hall & Hlb). unfold FileList._add.
  case_bool_decide as Hp; [done|]. case_bool_decide as He; [done|].
  case_bool_decide as Hin; [done|]. split_and!; simpl.
  - apply NoDup_app. split_and!; [done | | apply NoDup_singleton].
    by intros x Hx ->%list_elem_of_singleton.
  - apply Forall_app. split; [done|]. apply Forall_singleton. split; [done|].
    by destruct (decide (ext_of E path ∈ SUPPORTED_EXT)).
  - by rewrite Hlb, map_app.
Qed.

Lemma _scan_dir_ok E listdir d (self : FileList.t) :
  FileList.listed_ok E self ->
  FileList.listed_ok E (FileList._scan_dir E listdir d self).
Proof.
  unfold FileList._scan_dir. revert self.
  induction listdir as [|fn l IH]; intros self Hok; [done|]. simpl.
  apply IH. destruct (bool_decide _); [by apply _add_ok | done].
Qed.

(** X25. The methods of [FileList] keep its list in order: after [_add],
    [_scan_dir], [_clear] and, for a selection as the list box reports it,
    [_del], the list holds no path twice, every path on it is non-empty and
    has a supported extension, and the list box shows one row per path, in
    the order of the list; [_del] raises no [IndexError]. *)
Theorem filelist_invariant (E : env) (self : FileList.t) :
  FileList.listed_ok E self ->
  (forall path, FileList.listed_ok E (FileList._add E path self))
  /\ (forall listdir d,
        FileList.listed_ok E (FileList._scan_dir E listdir d self))
  /\ FileList.listed_ok E (FileList._clear self)
  /\ (forall sel, FileList.valid_selection sel self ->
        exists self', FileList._del sel self = FileList.Deleted self'
                      /\ FileList.listed_ok E self').
Proof.
  intros Hok. split_and!.
  - intros path. by apply _add_ok.
  - intros listdir d. by apply _scan_dir_ok.
  - split_and!; [apply NoDup_nil_2 | constructor | done].
  - intros sel Hsel. destruct Hok as (Hnd & Hall & Hlb).
    eexists. split.
    + apply _del_unselected; [|done]. by rewrite Hlb, length_map.
    + split_and!; simpl.
      * eapply sublist_NoDup; [done | apply unselected_from_sublist].
      * by apply unselected_from_Forall.
      * rewrite Hlb. apply unselected_from_map.
Qed.

Lemma filelist_invariant_witness :
  FileList.listed_ok posix
    (FileList._scan_dir posix [lit "x.xlsx"; lit "y.pdf"] (lit "d")
       FileList.three).
Proof.
  apply (filelist_invariant posix FileList.three).
  split_and!.
  - apply (bool_decide_unpack _). by vm_compute.
  - repeat constructor; try done; apply (bool_decide_unpack _); by vm_compute.
  - reflexivity.
Defined.

(** X26. [_del] with an ascending selection of rows of a list whose rows
    match its paths removes exactly the selected positions from the paths
    and from the rows, and keeps the others in their order; deleting from
    the last index to the first is what makes the indices stay valid. *)
Theorem del_removes_selection (sel : list nat) (self : FileList.t) :
  length (FileList.files self) = length (FileList.lb self) ->
  FileList.valid_selection sel self ->
  FileList._del sel self
  = FileList.Deleted
      {| FileList.files := FileList.unselected sel (FileList.files self);
         FileList.lb := FileList.unselected sel (FileList.lb self) |}.
Proof. apply _del_unselected. Qed.

Lemma del_removes_selection_witness :
  FileList._del [0; 2] FileList.three
  = FileList.Deleted
      {| FileList.files := [lit "b.docx"];
         FileList.lb := [lit "  b.docx"] |}.
Proof.
  rewrite (del_removes_selection [0; 2] FileList.three); [reflexivity | reflexivity |].
  split; [repeat constructor | repeat constructor; simpl; lia].
Defined.

(** X27. A path on the list is never rejected by [process] for its format:
    when processing it fails, the file is missing or unreadable, the library
    for its format is not installed, or the library rejects the document. *)
Theorem listed_files_format (E : env) (self : FileList.t) (p mode : text)
  (s : Scrubber) (fs : files) (e : exn) :
  FileList.listed_ok E self -> p ∈ FileList.files self ->
  (process E p mode s fs).1.1 = Raise e ->
  e = FileNotFoundError p \/ e = OSError p \/ e = BadDocument p
  \/ exists package, e = ImportError package.
Proof.
  intros (_ & Hall & _) Hin. rewrite Forall_forall in Hall.
  destruct (Hall p Hin) as [_ Hext]. unfold ext_of, SUPPORTED_EXT in Hext.
  unfold process. destruct (fs !! p) as [f|] eqn:Hf; [|intros [= <-]; auto].
  assert (forall A (r : result A) (x : result files),
            match x with
            | Raise e => (Raise e, s, fs)
            | Ok fs' =>
                if is_enc mode
                then let '(mp, self', fs'') :=
                       save E (dst_path E p mode) s fs' in
                     (Ok (dst_path E p mode, Some mp), self', fs'')
                else (Ok (dst_path E p mode, None), s, fs')
            end.1.1 = Raise e -> x = Raise e) as Hx.
  { intros _ _ [fs'|e']; [|by intros [= ->]]. by destruct (is_enc mode). }
  intros He. apply (Hx unit (Ok tt)) in He. clear Hx. revert He.
  unfold _handle_docx, _handle_pptx, _handle_xlsx, _handle_txt, open_with.
  rewrite Hf. apply list_elem_of_In in Hext. simpl in Hext.
  destruct Hext as [H|[H|[H|[H|[]]]]]; rewrite <- H; clear H;
    repeat (rewrite bool_decide_eq_false_2 by (by vm_compute));
    rewrite bool_decide_eq_true_2 by done;
    try (destruct (negb _); [intros [= <-]; eauto 6|]);
    destruct f; simpl; intros [= <-]; eauto 6.
Qed.

Lemma listed_files_format_witness :
  BadDocument (lit "b.docx") = FileNotFoundError (lit "b.docx")
  \/ BadDocument (lit "b.docx") = OSError (lit "b.docx")
  \/ BadDocument (lit "b.docx") = BadDocument (lit "b.docx")
  \/ exists package, BadDocument (lit "b.docx") = ImportError package.
Proof.
  apply (listed_files_format posix FileList.three (lit "b.docx") ENC
           engine_A_AB files_batch (BadDocument (lit "b.docx"))).
  - split_and!.
    + apply (bool_decide_unpack _). by vm_compute.
    + repeat constructor; try done; apply (bool_decide_unpack _); by vm_compute.
    + reflexivity.
  - apply (bool_decide_unpack _). by vm_compute.
  - reflexivity.
Defined.

(** * The word list of the input box *)

Lemma sep_pat_good : good_matcher sep_pat.
Proof.
  split.
  - intros b [|c s] w; unfold sep_pat; simpl; [done|].
    destruct (is_sep c); [|done]. intros [= <-]. simpl. lia.
  - intros [|c s] w; unfold sep_pat; simpl; [done|].
    by destruct (is_sep c); [intros [= <-]|].
Qed.

Lemma scan_at_sep b s : scan_at sep_pat b s = map sep_seg s.
Proof.
  revert b. induction s as [|c s IH]; intros b.
  - by apply scan_at_nil.
  - unfold sep_seg at 1. simpl. destruct (is_sep c) eqn:Hc.
    + rewrite (scan_at_hit _ sep_pat_good _ _ [c]).
      * simpl. rewrite drop_0. by rewrite IH.
      * unfold sep_pat. simpl. by rewrite Hc.
    + rewrite (scan_at_lit _ sep_pat_good).
      * by rewrite IH.
      * unfold sep_pat. simpl. by rewrite Hc.
Qed.

(** The parts between separators: the first is a prefix of the text, each
    is a substring of it, and none holds a separator. *)
Lemma split_sep_parts s :
  exists q qs, split_segs (map sep_seg s) = q :: qs
    /\ (exists post, s = q ++ post)
    /\ Forall (fun p => Forall (fun c => is_sep c = false) p /\ occurs p s)
         (q :: qs).
Proof.
  induction s as [|c s (q & qs & Hs & [post Hq] & Hall)].
  - exists [], []. split_and!; [done | by exists [] |].
    repeat constructor. by exists [], [].
  - assert (Forall (fun p => Forall (fun c => is_sep c = false) p
                             /\ occurs p (c :: s)) (q :: qs)) as Hall'.
    { eapply Forall_impl; [exact Hall|]. intros p [Hp (a & b & ->)].
      split; [done|]. by exists (c :: a), b. }
    simpl. unfold sep_seg at 1. destruct (is_sep c) eqn:Hc; simpl; rewrite Hs.
    + exists [], (q :: qs). split_and!; [done | by exists (c :: s) |].
      constructor; [|done]. split; [constructor|]. by exists [], (c :: s).
    + exists (c :: q), qs. split_and!; [done | exists post; by rewrite Hq |].
      apply Forall_cons in Hall' as [[Hq' _] Hqs].
      constructor; [|done]. split; [by constructor|].
      exists [], post. by rewrite Hq.
Qed.

Lemma re_split_sep_parts s p :
  p ∈ re_split sep_pat s ->
  Forall (fun c => is_sep c = false) p /\ occurs p s.
Proof.
  unfold re_split. rewrite finditer_scan_at, scan_at_sep.
  destruct (split_sep_parts s) as (q & qs & -> & _ & Hall).
  rewrite Forall_forall in Hall. apply Hall.
Qed.

(** [lstrip] removes a prefix, and what is left does not begin with a
    space. *)
Lemma lstrip_suffix s : exists pre, s = pre ++ lstrip s.
Proof.
  induction s as [|c s [pre IH]]; [by exists []|]. simpl.
  destruct (isspace c); [|by exists []].
  exists (c :: pre). simpl. by rewrite <- IH.
Qed.

Lemma lstrip_head s :
  match lstrip s with [] => True | c :: _ => isspace c = false end.
Proof.
  induction s as [|c s IH]; [done|]. simpl.
  by destruct (isspace c) eqn:Hc; [|rewrite Hc].
Qed.

Lemma lstrip_fixed s :
  match s with [] => True | c :: _ => isspace c = false end -> lstrip s = s.
Proof. destruct s as [|c s]; [done|]. simpl. by intros ->. Qed.

Lemma lstrip_idemp s : lstrip (lstrip s) = lstrip s.
Proof. apply lstrip_fixed, lstrip_head. Qed.

(** [strip] keeps a substring, and stripping again changes nothing. *)
Lemma strip_split s : exists pre post, s = pre ++ strip s ++ post.
Proof.
  unfold strip. destruct (lstrip_suffix s) as [pre Hpre].
  destruct (lstrip_suffix (rev (lstrip s))) as [post Hpost].
  exists pre, (rev post). rewrite Hpre at 1. f_equal.
  rewrite <- rev_app_distr, <- Hpost. by rewrite rev_involutive.
Qed.

Lemma strip_idemp s : strip (strip s) = strip s.
Proof.
  unfold strip. set (a := lstrip s).
  remember (rev (lstrip (rev a))) as b eqn:Eb.
  assert (lstrip b = b) as Hb.
  { apply lstrip_fixed. destruct b as [|c b']; [done|].
    destruct (lstrip_suffix (rev a)) as [pre Hpre].
    assert (a = (c :: b') ++ rev pre) as Ha.
    { rewrite Eb. rewrite <- (rev_involutive a) at 1. rewrite Hpre at 1.
      by rewrite rev_app_distr. }
    pose proof (lstrip_head s) as Hh. fold a in Hh. by rewrite Ha in Hh. }
  rewrite Hb. rewrite Eb at 1. by rewrite rev_involutive, lstrip_idemp.
Qed.

Lemma strip_Forall (P : N -> Prop) s : Forall P s -> Forall P (strip s).
Proof.
  intros H. destruct (strip_split s) as (pre & post & Hs).
  rewrite Hs in H. by apply Forall_app in H as [_ [H _]%Forall_app].
Qed.

Lemma elem_of_words content w :
  w ∈ _words content ->
  exists p, w = strip p /\ w <> [] /\ p ∈ re_split sep_pat (strip content).
Proof.
  unfold _words. destruct (_ || _); [by intros ?%elem_of_nil|].
  intros (p & -> & Hp)%list_elem_of_fmap.
  apply list_elem_of_In, filter_In in Hp as [Hp Hne].
  apply bool_decide_eq_true_1 in Hne. apply list_elem_of_In in Hp. eauto.
Qed.

(** X28. Every word that [_words] returns is non-empty, has no white space
    at either end and no separator in it, and stands in the content of the
    box. *)
Theorem words_clean (content w : text) :
  w ∈ _words content ->
  w <> [] /\ strip w = w /\ Forall (fun c => is_sep c = false) w
  /\ occurs w content.
Proof.
  intros (p & -> & Hne & Hp)%elem_of_words.
  apply re_split_sep_parts in Hp as [Hsep Hocc].
  split_and!; [done | apply strip_idemp | by apply strip_Forall |].
  eapply occurs_trans; [|eapply occurs_trans; [exact Hocc|]].
  - destruct (strip_split p) as (a & b & Hs). by exists a, b.
  - destruct (strip_split content) as (a & b & Hs). by exists a, b.
Qed.

Lemma words_clean_witness :
  lit "bob" <> [] /\ strip (lit "bob") = lit "bob"
  /\ Forall (fun c => is_sep c = false) (lit "bob")
  /\ occurs (lit "bob") BOX.
Proof.
  apply (words_clean BOX (lit "bob")).
  apply (bool_decide_unpack _). by vm_compute.
Defined.

(** * After the run: [App._done] *)

Lemma remove_json_lookup E removable st path (p : text) :
  (remove_json E removable st path).1 !! p
  = if bool_decide (p = path) && removable p then None else st.1 !! p.
Proof.
  unfold remove_json. case_bool_decide as Hp; simpl.
  - subst p. destruct (st.1 !! path) eqn:Hst.
    + destruct (removable path); [|done]. simpl. apply lookup_delete_eq.
    + by destruct (removable path).
  - destruct (st.1 !! path); [|done].
    destruct (removable path); [|done]. simpl. by apply lookup_delete_ne.
Qed.

Lemma remove_loop_lookup E removable paths st (p : text) :
  (foldl (remove_json E removable) st paths).1 !! p
  = if bool_decide (p ∈ paths) && removable p then None else st.1 !! p.
Proof.
  revert st. induction paths as [|a paths IH]; intros st; simpl.
  - done.
  - rewrite IH, remove_json_lookup.
    destruct (decide (p = a)) as [->|Hne].
    + rewrite (bool_decide_eq_true_2 (a = a)) by done.
      rewrite (bool_decide_eq_true_2 (a ∈ a :: paths)) by apply list_elem_of_here.
      simpl. destruct (removable a); by destruct (bool_decide _).
    + rewrite (bool_decide_eq_false_2 (p = a)) by done. simpl.
      destruct (decide (p ∈ paths)) as [Hin|Hin].
      * rewrite !bool_decide_eq_true_2; [done | by right | done].
      * rewrite !bool_decide_eq_false_2; [done | | done].
        by intros [?|?]%elem_of_cons.
Qed.

Lemma load_json_paths E path self fs self' :
  load E path self fs = Loaded self' -> json_paths self' = json_paths self.
Proof.
  unfold load. destruct (json_load E path fs) as [j|]; [|done].
  destruct j as [| | | | |d]; try done.
  destruct (dict_update (mapping self) _) as [m| |]; try done.
  simpl reverse.
  destruct (dict_update (reverse self) _) as [r| |]; try done.
  by intros [= <-].
Qed.

Lemma batch_loop_dec_json_paths E mode cb total i fps w results :
  is_enc mode = false ->
  json_paths (scrub (batch_loop E mode cb total i fps w results).2)
  = json_paths (scrub w).
Proof.
  intros Hdec. revert i w results.
  induction fps as [|fp rest IH]; intros i w results; [done|].
  assert (json_paths (process E fp mode (scrub w) (fs w)).1.2
          = json_paths (scrub w)) as Hj.
  { destruct (process_inv E fp mode (scrub w) (fs w))
      as [[e ->]|[(f' & _ & ->)|(f' & Henc & _)]]; [done | done | congruence]. }
  destruct (batch_loop_step E mode cb total i fp rest w results)
    as (log & extra & _ & [[e ->] | ->]); [done|].
  by rewrite IH.
Qed.

(** X29. [_done] touches no file unless the mode is unmasking, at least one
    file succeeded and the check box is set; when all three hold, every
    snapshot path the engine recorded on which [os.remove] succeeds holds no
    file afterwards.  [_done] never creates a file. *)
Theorem done_files (E : env) (del_json_var : bool) (removable : text -> bool)
  (results : list outcome) (mode : text) (w : world) :
  let w' := (_done E del_json_var removable results mode w).1 in
  let armed := bool_decide (mode = DEC)
               && bool_decide (List.filter succeeded results <> [])
               && del_json_var in
  (armed = false -> fs w' = fs w)
  /\ (armed = true ->
      forall p, p ∈ json_paths (scrub w) -> removable p = true ->
                fs w' !! p = None)
  /\ (forall p, is_Some (fs w' !! p) -> is_Some (fs w !! p)).
Proof.
  intros w' armed. unfold w', _done. fold armed. split_and!.
  - by intros ->.
  - intros -> p Hp Hr. simpl. rewrite remove_loop_lookup.
    by rewrite bool_decide_eq_true_2, Hr.
  - intros p. destruct armed; [|done]. simpl. rewrite remove_loop_lookup.
    destruct (_ && _); [by intros [? ?]|done].
Qed.

Lemma done_files_witness :
  fs (_done posix true (fun _ => true)
        [(lit "x.txt", Some (lit "y.txt"), None, None)] DEC world_masked).1
  !! mapping_path posix (dst_path posix (lit "a.txt") ENC)
  = None.
Proof.
  destruct (done_files posix true (fun _ => true)
              [(lit "x.txt", Some (lit "y.txt"), None, None)] DEC world_masked)
    as (_ & Hgone & _).
  apply Hgone; [reflexivity | | reflexivity].
  apply (bool_decide_unpack _). by vm_compute.
Defined.

(** X30. A session that has not masked anything deletes nothing: [load],
    [auto_load] and [batch] in unmask mode leave [json_paths] as it is, so
    when [_run] has unmasked with an engine that recorded no snapshot path,
    [_done] leaves every file in place, whatever the check box says. *)
Theorem unmask_session_keeps_snapshots (E : env) (uuid4 : nat -> N)
  (ui : dialogs) (fps words : list text) (mode : text) (w w' : world)
  (results : list outcome) (del_json_var : bool) (removable : text -> bool) :
  json_paths (scrub w) = [] -> is_enc mode = false ->
  _run E uuid4 ui fps words mode w = Ran results w' ->
  fs (_done E del_json_var removable results mode w').1 = fs w'.
Proof.
  intros Hnil Hdec Hrun.
  assert (json_paths (scrub w') = []) as Hnil'.
  { assert (forall v, json_paths (scrub v) = [] ->
              worker E uuid4 ui fps [] mode v = Ran results w' ->
              json_paths (scrub w') = []) as Hworker.
    { intros v Hv. unfold worker, batch. rewrite Hdec.
      destruct (batch_loop E mode _ _ 0 fps v []) as [[r|e] v'] eqn:Hl;
        [|done].
      intros [= <- <-].
      pose proof (batch_loop_dec_json_paths E mode
                    (Some (on_progress ui)) (length fps) 0 fps v [] Hdec) as Hj.
      rewrite Hl in Hj. simpl in Hj. by rewrite Hj. }
    revert Hrun. unfold _run. destruct fps as [|first rest]; [done|].
    rewrite Hdec. case_bool_decide; [|by apply Hworker].
    destruct (auto_load E first (scrub w) (fs w)) as [[[self| |]|] mp] eqn:Ha;
      try done.
    - apply Hworker. simpl. unfold auto_load in Ha.
      destruct (fs w !! mapping_path E first); [|done].
      injection Ha as Ha _. apply load_json_paths in Ha. congruence.
    - destruct (ask_ok ui); [|done]. destruct (picked ui) as [|c jp]; [done|].
      destruct (load E (c :: jp) (scrub w) (fs w)) as [self| |] eqn:Hload;
        try done.
      apply Hworker. simpl. apply load_json_paths in Hload. congruence. }
  unfold _done. simpl. rewrite Hnil'. simpl. by destruct (_ && _).
Qed.

Lemma unmask_session_keeps_snapshots_witness :
  exists results w',
    _run posix uuid_counting ui_cancel [lit "note.txt"] [] DEC world_note
    = Ran results w'
    /\ fs (_done posix true (fun _ => true) results DEC w').1 = fs w'.
Proof.
  eexists _, _. split; [reflexivity|].
  apply (unmask_session_keeps_snapshots posix uuid_counting ui_cancel
           [lit "note.txt"] [] DEC world_note); reflexivity.
Defined.
